(** * Fiber-aware I/O runtime: scheduler, io_uring manager, pipeline executor

    A shallow embedding of the parts of the repository that the
    specification talks about:

    - [Scheduler]: the [round_robin] scheduling algorithm of
      [examples/asio_fibers.cc] (ready queue, ready counter, sentinel timer);
    - [DoneSync]: the [Done] flag-plus-condition primitive of the same file;
    - [URing]: [URingManager] (submission and the drain loop);
    - [Redis]: the [RedisConnection] state machine driven by completions;
    - [Pipeline]: [Pipeline::Executor] (workers, mapper, shutdown, stop);
    - [Varz]: [VarzMapCount] and its sorted export.
*)

From stdpp Require Import gmap strings list sorting pretty.
From Stdlib Require Import ZArith OrderedTypeEx.

Local Open Scope Z_scope.

(** ** Shared machine arithmetic *)

(** [std::size_t] and [uint64_t] are 64 bits wide on the targets of the
    repository (Linux, x86-64); increments and decrements wrap. *)
Definition two64 : Z := 2 ^ 64.
Definition wrap64 (z : Z) : Z := z mod two64.

Lemma wrap64_small z : 0 ≤ z < two64 → wrap64 z = z.
Proof. intros. unfold wrap64. by apply Z.mod_small. Qed.

(** A duplicate-free list of non-null 64-bit addresses has fewer than
    [2^64] elements. *)
Definition valid_ptr (p : N) : Prop := (0 < p < 2 ^ 64)%N.

Lemma NoDup_ptr_length (l : list N) :
  NoDup l → Forall valid_ptr l → Z.of_nat (length l) < two64.
Proof.
  intros Hnd Hall.
  set (n := N.to_nat (2 ^ 64 - 1)).
  set (k := (λ i : nat, N.of_nat (S i)) <$> seq 0 n).
  assert (Hsub : l ⊆+ k).
  { apply NoDup_submseteq; [done|]. intros x Hx.
    rewrite Forall_forall in Hall. destruct (Hall x Hx) as [Hlo Hhi].
    apply list_elem_of_fmap. exists (pred (N.to_nat x)). split.
    - lia.
    - apply elem_of_seq. subst n. lia. }
  apply submseteq_length in Hsub.
  subst k. rewrite length_fmap, length_seq in Hsub. subst n.
  unfold two64. lia.
Qed.

(** ** The round-robin scheduler ([round_robin] in examples/asio_fibers.cc) *)

Module Scheduler.

(** [fibers::context *]: contexts are identified by their address. *)
Abbreviation ptr := N (only parsing).
Definition nullptr : ptr := 0%N.

(** [fibers::type], restricted to the kinds a context is created with. *)
Inductive context_type := main_context | dispatcher_context | worker_context.

#[global] Instance context_type_eq_dec : EqDecision context_type.
Proof. solve_decision. Defined.

(** [std::chrono::steady_clock::time_point] is a signed 64-bit tick count. *)
Definition time_point := Z.
Definition time_point_max : time_point := 2 ^ 63 - 1.

(** [asio::steady_timer]: its expiry, the waits outstanding on it, and the
    number of waits completed so far with [operation_aborted]. *)
Record steady_timer := mk_timer {
  expiry : time_point;
  pending : nat;
  aborted : nat
}.

(** [expires_at(t)] cancels every outstanding wait and sets the expiry. *)
Definition expires_at (t : time_point) (tm : steady_timer) : steady_timer :=
  {| expiry := t; pending := 0; aborted := (aborted tm + pending tm)%nat |}.

(** [async_wait(h)] starts one more wait against the current expiry. *)
Definition async_wait (tm : steady_timer) : steady_timer :=
  {| expiry := expiry tm; pending := S (pending tm); aborted := aborted tm |}.

Record round_robin := mk_rr {
  rqueue_ : list ptr;
  counter_ : Z;
  suspend_timer_ : steady_timer;
  cnd_notified : nat  (* calls of [cnd_.notify_one()] so far *)
}.

Definition init : round_robin :=
  {| rqueue_ := []; counter_ := 0;
     suspend_timer_ := {| expiry := 0; pending := 0; aborted := 0 |};
     cnd_notified := 0 |}.

Section Algorithm.

(** The kind each context was created with ([ctx->is_context(...)]). *)
Variable type_of : ptr → context_type.

Definition is_context (ctx : ptr) (t : context_type) : bool :=
  bool_decide (type_of ctx = t).

(** [awakened(ctx)]. The two assertions of the source are kept: a null
    context or one that is already linked yields [None]. *)
Definition awakened (ctx : ptr) (s : round_robin) : option round_robin :=
  if bool_decide (ctx = nullptr) then None
  else if bool_decide (ctx ∈ rqueue_ s) then None
  else Some {| rqueue_ := rqueue_ s ++ [ctx];
               counter_ := if negb (is_context ctx dispatcher_context)
                           then wrap64 (counter_ s + 1) else counter_ s;
               suspend_timer_ := suspend_timer_ s;
               cnd_notified := cnd_notified s |}.

(** [pick_next()]: pops the head of the ready queue, if any. *)
Definition pick_next (s : round_robin) : option ptr * round_robin :=
  match rqueue_ s with
  | [] => (None, s)
  | ctx :: rest =>
      (Some ctx,
       {| rqueue_ := rest;
          counter_ := if negb (is_context ctx dispatcher_context)
                      then wrap64 (counter_ s - 1) else counter_ s;
          suspend_timer_ := suspend_timer_ s;
          cnd_notified := cnd_notified s |})
  end.

Definition has_ready_fibers (s : round_robin) : bool :=
  bool_decide (0 < counter_ s).

(** [suspend_until(abs_time)]: whenever the deadline is not
    [time_point::max] the timer is set and a wait is started; then the
    drive loop is signalled. *)
Definition suspend_until (abs_time : time_point) (s : round_robin) : round_robin :=
  let tm :=
    if bool_decide (time_point_max ≠ abs_time)
    then async_wait (expires_at abs_time (suspend_timer_ s))
    else suspend_timer_ s in
  {| rqueue_ := rqueue_ s; counter_ := counter_ s;
     suspend_timer_ := tm; cnd_notified := S (cnd_notified s) |}.

(** [notify()]: starts a wait, then moves the expiry to [now], which
    cancels it. *)
Definition notify (now : time_point) (s : round_robin) : round_robin :=
  {| rqueue_ := rqueue_ s; counter_ := counter_ s;
     suspend_timer_ := expires_at now (async_wait (suspend_timer_ s));
     cnd_notified := cnd_notified s |}.

(** Number of fibers in a queue that are not the dispatcher. *)
Definition ready_workers (q : list ptr) : nat :=
  length (filter (λ c, type_of c ≠ dispatcher_context) q).

(** States the scheduler can be in: the fiber library calls the four
    entry points in any order, handing [awakened] valid context
    addresses. *)
Inductive reachable : round_robin → Prop :=
| reach_init : reachable init
| reach_awakened s ctx s' :
    reachable s → valid_ptr ctx → awakened ctx s = Some s' → reachable s'
| reach_pick_next s :
    reachable s → reachable (pick_next s).2
| reach_suspend_until s t :
    reachable s → reachable (suspend_until t s)
| reach_notify s now :
    reachable s → reachable (notify now s).

(** The invariant behind the ready counter: the queue holds distinct valid
    contexts and the counter is the number of its non-dispatcher entries. *)
Definition counter_inv (s : round_robin) : Prop :=
  NoDup (rqueue_ s) ∧ Forall valid_ptr (rqueue_ s) ∧
  counter_ s = Z.of_nat (ready_workers (rqueue_ s)).

Lemma ready_workers_le q : (ready_workers q ≤ length q)%nat.
Proof. unfold ready_workers. apply length_filter. Qed.

Lemma ready_workers_snoc q c :
  ready_workers (q ++ [c]) =
  (ready_workers q + if negb (is_context c dispatcher_context) then 1 else 0)%nat.
Proof.
  unfold ready_workers, is_context.
  rewrite filter_app, length_app. f_equal.
  rewrite filter_cons, filter_nil.
  case_decide; case_bool_decide; simpl; congruence.
Qed.

Lemma ready_workers_cons q c :
  ready_workers (c :: q) =
  ((if negb (is_context c dispatcher_context) then 1 else 0) + ready_workers q)%nat.
Proof.
  unfold ready_workers, is_context. rewrite filter_cons.
  case_decide; case_bool_decide; simpl; congruence.
Qed.

Lemma ready_workers_pos q :
  (0 < ready_workers q)%nat ↔ ∃ c, c ∈ q ∧ type_of c ≠ dispatcher_context.
Proof.
  unfold ready_workers. split.
  - intros Hpos.
    destruct (filter (λ c, type_of c ≠ dispatcher_context) q) as [|c l] eqn:E;
      [simpl in Hpos; lia|].
    assert (Hc : c ∈ filter (λ c, type_of c ≠ dispatcher_context) q)
      by (rewrite E; apply list_elem_of_here).
    apply list_elem_of_filter in Hc. exists c. tauto.
  - intros (c & Hin & Hc).
    assert (Hf : c ∈ filter (λ c, type_of c ≠ dispatcher_context) q)
      by (apply list_elem_of_filter; tauto).
    destruct (filter _ q); [by apply elem_of_nil in Hf | simpl; lia].
Qed.

Lemma awakened_inv ctx s s' :
  counter_inv s → valid_ptr ctx → awakened ctx s = Some s' →
  counter_inv s' ∧
  counter_ s' = counter_ s + (if is_context ctx dispatcher_context then 0 else 1).
Proof.
  intros (Hnd & Hval & Hcnt) Hctx. unfold awakened.
  case_bool_decide as Hnull; [done|]. case_bool_decide as Hin; [done|].
  intros [= <-]; simpl.
  assert (Hnd' : NoDup (rqueue_ s ++ [ctx])).
  { apply NoDup_app. split; [done|]. split; [|apply NoDup_singleton].
    intros x Hx ->%list_elem_of_singleton. done. }
  assert (Hval' : Forall valid_ptr (rqueue_ s ++ [ctx])).
  { apply Forall_app. split; [done|]. by apply Forall_singleton. }
  pose proof (NoDup_ptr_length _ Hnd' Hval') as Hlen.
  pose proof (ready_workers_le (rqueue_ s ++ [ctx])) as Hle.
  rewrite ready_workers_snoc in Hle.
  unfold counter_inv; simpl. rewrite ready_workers_snoc.
  destruct (is_context ctx dispatcher_context); simpl in *.
  - split; [split_and!; try done|]; lia.
  - rewrite wrap64_small by lia. split; [split_and!; try done|]; lia.
Qed.

Lemma pick_next_inv s :
  counter_inv s →
  counter_inv (pick_next s).2 ∧
  ∀ ctx, (pick_next s).1 = Some ctx →
    counter_ (pick_next s).2 =
    counter_ s - (if is_context ctx dispatcher_context then 0 else 1).
Proof.
  intros (Hnd & Hval & Hcnt). unfold pick_next.
  destruct (rqueue_ s) as [|c rest] eqn:E; simpl.
  { split; [|done]. unfold counter_inv. by rewrite E. }
  apply NoDup_cons in Hnd as [_ Hnd]. apply Forall_cons in Hval as [_ Hval].
  pose proof (NoDup_ptr_length _ Hnd Hval) as Hlen.
  pose proof (ready_workers_le rest) as Hle.
  rewrite ready_workers_cons in Hcnt.
  unfold counter_inv; simpl.
  destruct (is_context c dispatcher_context) eqn:Ec; simpl in *.
  - split; [split_and!; try done; lia|]. intros ? [= <-]. rewrite Ec. lia.
  - rewrite wrap64_small by lia.
    split; [split_and!; try done; lia|]. intros ? [= <-]. rewrite Ec. lia.
Qed.

Lemma reachable_counter_inv s : reachable s → counter_inv s.
Proof.
  induction 1 as [|s ctx s' _ IH Hctx Haw|s _ IH|s t _ IH|s now _ IH].
  - unfold counter_inv; simpl. split_and!; [apply NoDup_nil_2|done|done].
  - by destruct (awakened_inv ctx s s' IH Hctx Haw).
  - by destruct (pick_next_inv s IH).
  - exact IH.
  - exact IH.
Qed.

(** C7. In every state the scheduler can reach, the ready counter equals
    the number of non-dispatcher fibers linked in the ready queue:
    [awakened] adds one unless the fiber is the dispatcher, [pick_next]
    removes one unless the popped fiber is the dispatcher, and
    [has_ready_fibers] is true exactly when a non-dispatcher fiber is in
    the queue. *)
Theorem ready_counter_counts_workers (s : round_robin) :
  reachable s →
  counter_ s = Z.of_nat (ready_workers (rqueue_ s)) ∧
  (has_ready_fibers s = true ↔
     ∃ c, c ∈ rqueue_ s ∧ type_of c ≠ dispatcher_context) ∧
  (∀ ctx s', valid_ptr ctx → awakened ctx s = Some s' →
     counter_ s' = counter_ s + (if is_context ctx dispatcher_context then 0 else 1)) ∧
  (∀ ctx, (pick_next s).1 = Some ctx →
     counter_ (pick_next s).2 =
     counter_ s - (if is_context ctx dispatcher_context then 0 else 1)).
Proof.
  intros Hr. pose proof (reachable_counter_inv s Hr) as Hinv.
  pose proof Hinv as (_ & _ & Hcnt). split_and!.
  - exact Hcnt.
  - unfold has_ready_fibers. rewrite bool_decide_eq_true, Hcnt.
    rewrite <- ready_workers_pos. lia.
  - intros ctx s' Hctx Haw. by destruct (awakened_inv ctx s s' Hinv Hctx Haw).
  - by destruct (pick_next_inv s Hinv).
Qed.

(** Two calls with the same finite deadline: the second one cancels the
    wait started by the first and starts a new one. *)
Lemma suspend_until_twice_aborts (s : round_robin) (t : time_point) :
  t ≠ time_point_max →
  let s1 := suspend_until t s in
  let s2 := suspend_until t s1 in
  expiry (suspend_timer_ s2) = expiry (suspend_timer_ s1) ∧
  aborted (suspend_timer_ s2) = S (aborted (suspend_timer_ s1)).
Proof.
  intros Ht. unfold suspend_until; simpl.
  rewrite !bool_decide_eq_true_2 by congruence. simpl. split; [done|lia].
Qed.

End Algorithm.

(** C1 (evaluation at the failing input). From the initial state, two
    consecutive [suspend_until] calls with the same finite deadline 1000:
    the first arms the timer, the second aborts that wait and arms the
    timer again, so the second call is not a no-op on the timer. *)
Theorem suspend_until_same_deadline_rearms :
  let s1 := suspend_until 1000 init in
  let s2 := suspend_until 1000 s1 in
  suspend_timer_ s1 = mk_timer 1000 1 0 ∧
  suspend_timer_ s2 = mk_timer 1000 1 1 ∧
  suspend_timer_ s2 ≠ suspend_timer_ s1.
Proof. split_and!; [reflexivity|reflexivity|discriminate]. Qed.

(** A concrete run for C7: the dispatcher (address 1) and two workers. *)
Definition demo_type_of (p : ptr) : context_type :=
  if (p =? 1)%N then dispatcher_context else worker_context.

Definition demo_queue (q : list ptr) (n : Z) : round_robin :=
  {| rqueue_ := q; counter_ := n;
     suspend_timer_ := suspend_timer_ init; cnd_notified := 0 |}.

Definition demo_state : round_robin := demo_queue [1; 2; 3]%N 2.

Lemma demo_state_reachable : reachable demo_type_of demo_state.
Proof.
  assert (Hv : ∀ p : N, (0 < p < 10)%N → valid_ptr p).
  { intros p Hp. unfold valid_ptr. split; [lia|].
    eapply N.lt_trans; [apply Hp|]. reflexivity. }
  apply (reach_awakened _ (demo_queue [1; 2]%N 1) 3%N);
    [|apply Hv; lia|reflexivity].
  apply (reach_awakened _ (demo_queue [1]%N 0) 2%N);
    [|apply Hv; lia|reflexivity].
  apply (reach_awakened _ init 1%N); [|apply Hv; lia|reflexivity].
  apply reach_init.
Defined.

Lemma ready_counter_counts_workers_witness :
  reachable demo_type_of demo_state ∧
  counter_ demo_state = Z.of_nat (ready_workers demo_type_of (rqueue_ demo_state)).
Proof.
  split; [apply demo_state_reachable|].
  apply (ready_counter_counts_workers demo_type_of demo_state).
  apply demo_state_reachable.
Defined.

End Scheduler.

(** ** The [Done] primitive (examples/asio_fibers.cc)

    [Done] wraps a [bool ready], a fiber mutex and a fiber condition
    variable.  One fiber runs [wait()], another runs [notify()]; the
    scheduler may interleave them at every suspension point, so each
    method is cut into its atomic steps and the two programs are composed
    by interleaving. *)

Module DoneSync.

Inductive tid := Waiter | Notifier.

(** Program points of [wait()]:
    [std::unique_lock lock(mutex); cond.wait(lock, [this]{ return ready; });] *)
Inductive wait_pc :=
| W_start     (* before [lock(mutex)] *)
| W_test      (* holds the mutex, about to evaluate the predicate *)
| W_sleep     (* inside [cond.wait]: mutex released, on the wait list *)
| W_woken     (* notified, must take the mutex again *)
| W_exit      (* predicate held, about to release the mutex *)
| W_returned.

(** Program points of [notify()]:
    [{ std::unique_lock lock(mutex); ready = true; } cond.notify_one();] *)
Inductive notify_pc :=
| N_start | N_locked | N_set | N_unlocked | N_done.

Record state := mk_state {
  ready : bool;
  mutex : option tid;
  wpc : wait_pc;
  npc : notify_pc
}.

Definition init : state :=
  {| ready := false; mutex := None; wpc := W_start; npc := N_start |}.

(** One step of the waiting fiber; [None] when it cannot run. *)
Definition step_wait (s : state) : option state :=
  match wpc s with
  | W_start | W_woken =>
      match mutex s with
      | None => Some {| ready := ready s; mutex := Some Waiter;
                        wpc := W_test; npc := npc s |}
      | Some _ => None
      end
  | W_test =>
      if ready s
      then Some {| ready := ready s; mutex := mutex s;
                   wpc := W_exit; npc := npc s |}
      else Some {| ready := ready s; mutex := None;
                   wpc := W_sleep; npc := npc s |}
  | W_sleep => None
  | W_exit => Some {| ready := ready s; mutex := None;
                      wpc := W_returned; npc := npc s |}
  | W_returned => None
  end.

(** One step of the notifying fiber; [notify_one] wakes the waiter when
    it is on the wait list and does nothing otherwise. *)
Definition step_notify (s : state) : option state :=
  match npc s with
  | N_start =>
      match mutex s with
      | None => Some {| ready := ready s; mutex := Some Notifier;
                        wpc := wpc s; npc := N_locked |}
      | Some _ => None
      end
  | N_locked => Some {| ready := true; mutex := mutex s;
                        wpc := wpc s; npc := N_set |}
  | N_set => Some {| ready := ready s; mutex := None;
                     wpc := wpc s; npc := N_unlocked |}
  | N_unlocked =>
      Some {| ready := ready s; mutex := mutex s;
              wpc := match wpc s with W_sleep => W_woken | pc => pc end;
              npc := N_done |}
  | N_done => None
  end.

Inductive step : state → state → Prop :=
| step_by_waiter s s' : step_wait s = Some s' → step s s'
| step_by_notifier s s' : step_notify s = Some s' → step s s'.

(** What holds in every state of every interleaving. *)
Definition inv (s : state) : bool :=
  match wpc s, npc s, mutex s, ready s with
  (* the notifier has not yet taken the mutex *)
  | (W_start | W_sleep), N_start, None, false => true
  | W_test, N_start, Some Waiter, false => true
  (* the notifier holds the mutex *)
  | (W_start | W_sleep), N_locked, Some Notifier, false => true
  | (W_start | W_sleep), N_set, Some Notifier, true => true
  (* the flag is set and the notifier is out of the critical section *)
  | (W_start | W_sleep | W_returned), N_unlocked, None, true => true
  | (W_test | W_exit), N_unlocked, Some Waiter, true => true
  | (W_start | W_woken | W_returned), N_done, None, true => true
  | (W_test | W_exit), N_done, Some Waiter, true => true
  | _, _, _, _ => false
  end.

(** Steps still to run: both programs are loop-free on every reachable
    state, the waiter sleeping at most once (it leaves [W_sleep] through
    the notifier's last step). *)
Definition rank (s : state) : nat :=
  (match wpc s with
   | W_start => 5
   | W_test => if ready s then 2 else 4
   | W_sleep => 3
   | W_woken => 3
   | W_exit => 1
   | W_returned => 0
   end +
   match npc s with
   | N_start => 4 | N_locked => 3 | N_set => 2 | N_unlocked => 1 | N_done => 0
   end)%nat.

Ltac cases s :=
  destruct s as [[] [[]|] [] []];
  unfold step_wait, step_notify in *; simpl in *; try done.

Lemma inv_step s s' : inv s → step s s' → inv s' ∧ (rank s' < rank s)%nat.
Proof.
  intros Hi Hs. destruct Hs as [s s' H|s s' H]; cases s;
    injection H as <-; (split; [done | unfold rank; simpl; lia]).
Qed.

Lemma inv_rtc s : rtc step init s → inv s.
Proof.
  revert s. apply rtc_ind_r; [done|].
  intros s1 s2 _ Hs IH. by destruct (inv_step _ _ IH Hs).
Qed.

Lemma nsteps_rank k s s' :
  inv s → nsteps step k s s' → (k + rank s' ≤ rank s)%nat.
Proof.
  intros Hi H. induction H as [|k s1 s2 s3 Hs _ IH]; [lia|].
  destruct (inv_step _ _ Hi Hs) as [Hi' Hlt]. specialize (IH Hi'). lia.
Qed.

Lemma inv_stuck s :
  inv s → step_wait s = None → step_notify s = None →
  wpc s = W_returned ∧ npc s = N_done.
Proof. intros Hi Hw Hn. cases s. Qed.

(** C9. For every interleaving of one [wait()] and one [notify()]:
    (a) when [notify()] has completed before [wait()] starts, [wait()]
    takes the mutex, sees the flag and returns, never sleeping, and the
    notifier has no step left that could interfere;
    (b) [wait()] has returned only if the flag is set, that is after
    [notify()] stored it;
    (c) no wakeup is lost: every interleaving has at most 9 steps, and a
    state from which neither fiber can move is one where [wait()] has
    returned and [notify()] is done. *)
Theorem done_no_lost_wakeup :
  (∀ s, rtc step init s → npc s = N_done → wpc s = W_start →
     step_notify s = None ∧
     ∃ s1 s2 s3,
       step_wait s = Some s1 ∧ wpc s1 = W_test ∧
       step_wait s1 = Some s2 ∧ wpc s2 = W_exit ∧
       step_wait s2 = Some s3 ∧ wpc s3 = W_returned) ∧
  (∀ s, rtc step init s →
     (wpc s = W_exit ∨ wpc s = W_returned) →
     ready s = true ∧ npc s ≠ N_start ∧ npc s ≠ N_locked) ∧
  (∀ k s, nsteps step k init s →
     (k ≤ 9)%nat ∧
     (step_wait s = None → step_notify s = None →
      wpc s = W_returned ∧ npc s = N_done)).
Proof.
  split_and!.
  - intros s Hr Hn Hw. apply inv_rtc in Hr. cases s.
    split; [done|]. eexists _, _, _. split_and!; reflexivity.
  - intros s Hr Hw. apply inv_rtc in Hr. cases s; by destruct Hw.
  - intros k s Hk. split.
    + pose proof (nsteps_rank k init s I Hk) as Hle.
      unfold rank in Hle; simpl in Hle. lia.
    + apply inv_stuck, inv_rtc. by eapply rtc_nsteps_2.
Qed.

(** The interleaving in which [wait()] goes to sleep first and is then
    woken by [notify()]: nine steps, the longest possible run. *)
Definition sleeping_schedule : list tid :=
  [Waiter; Waiter; Notifier; Notifier; Notifier; Notifier;
   Waiter; Waiter; Waiter].

Fixpoint run (sched : list tid) (s : state) : option state :=
  match sched with
  | [] => Some s
  | t :: sched' =>
      match (match t with Waiter => step_wait s | Notifier => step_notify s end) with
      | Some s' => run sched' s'
      | None => None
      end
  end.

Lemma run_rtc sched s s' : run sched s = Some s' → rtc step s s'.
Proof.
  revert s. induction sched as [|t sched IH]; simpl; intros s H.
  - injection H as <-. apply rtc_refl.
  - destruct t.
    + destruct (step_wait s) as [s1|] eqn:E; [|done].
      eapply rtc_l; [by apply step_by_waiter|by apply IH].
    + destruct (step_notify s) as [s1|] eqn:E; [|done].
      eapply rtc_l; [by apply step_by_notifier|by apply IH].
Defined.

Lemma done_no_lost_wakeup_witness :
  let s := mk_state true None W_returned N_done in
  rtc step init s ∧ ready s = true.
Proof.
  assert (H : rtc step init (mk_state true None W_returned N_done)).
  { apply (run_rtc sleeping_schedule). reflexivity. }
  split; [exact H|].
  apply (proj1 (proj2 done_no_lost_wakeup) _ H). by right.
Defined.

End DoneSync.

(** ** Process-level results

    [CHECK], [CHECK_GT], [LOG(FATAL)] and friends abort the process; a
    computation that reaches one of them ends in [Fatal] with the message
    of the failed check. *)

Inductive outcome (A : Type) :=
| Ok (a : A)
| Fatal (msg : string).
Arguments Ok {A} a.
Arguments Fatal {A} msg.

#[global] Instance outcome_ret : MRet outcome := λ A a, Ok a.
#[global] Instance outcome_bind : MBind outcome := λ A B f o,
  match o with
  | Ok a => f a
  | Fatal msg => Fatal msg
  end.

(** ** The io_uring manager ([URingManager], [URingEvent]) *)

Module URing.

(** The part of an SQE the program sets. *)
Inductive opcode :=
| op_none
| op_poll_add (fd : Z) (mask : Z)
| op_recvmsg (fd : Z)
| op_sendmsg (fd : Z).

Record io_uring_sqe := mk_sqe {
  sqe_op : opcode;
  sqe_flags : Z;
  sqe_user_data : N
}.

Record io_uring_cqe := mk_cqe {
  cqe_res : Z;
  cqe_user_data : N
}.

Definition POLLIN : Z := 1.
Definition IOSQE_IO_LINK : Z := 4.
Definition EINTR : Z := 4.

(** [struct io_uring] as the program sees it: the size of the submission
    ring, the entries handed out by [io_uring_get_sqe] and not yet
    submitted, the entries submitted so far, and the completions that are
    posted and not yet consumed (head first). *)
Record io_uring := mk_ring {
  sq_entries : nat;
  sq : list io_uring_sqe;
  submitted : list io_uring_sqe;
  cq : list io_uring_cqe
}.

Definition blank_sqe : io_uring_sqe :=
  {| sqe_op := op_none; sqe_flags := 0; sqe_user_data := 0 |}.

(** [io_uring_queue_init_params(entries, ...)]. *)
Definition io_uring_queue_init (entries : nat) : io_uring :=
  {| sq_entries := entries; sq := []; submitted := []; cq := [] |}.

(** [io_uring_get_sqe]: the next free slot, or null ([None]) when every
    slot of the submission ring is taken. *)
Definition io_uring_get_sqe (r : io_uring) : option io_uring :=
  if decide (length (sq r) < sq_entries r)%nat
  then Some {| sq_entries := sq_entries r; sq := sq r ++ [blank_sqe];
               submitted := submitted r; cq := cq r |}
  else None.

(** [io_uring_submit]: hands every pending entry to the kernel. *)
Definition io_uring_submit (r : io_uring) : io_uring :=
  {| sq_entries := sq_entries r; sq := [];
     submitted := submitted r ++ sq r; cq := cq r |}.

(** [io_uring_cq_advance(ring, n)]. *)
Definition io_uring_cq_advance (n : nat) (r : io_uring) : io_uring :=
  {| sq_entries := sq_entries r; sq := sq r;
     submitted := submitted r; cq := drop n (cq r) |}.

(** The kernel posting completions. *)
Definition post_cqes (cs : list io_uring_cqe) (r : io_uring) : io_uring :=
  {| sq_entries := sq_entries r; sq := sq r;
     submitted := submitted r; cq := cq r ++ cs |}.

(** The slot most recently returned by [io_uring_get_sqe] is the last
    pending one; the [io_uring_prep_*] helpers and the direct stores of
    the program write to it. *)
Definition update_last (f : io_uring_sqe → io_uring_sqe)
    (l : list io_uring_sqe) : list io_uring_sqe :=
  match reverse l with
  | [] => []
  | e :: rest => reverse (f e :: rest)
  end.

Section Manager.

(** What a [CbType] value is: left open here, fixed by each client. *)
Context {callback : Type}.

Record URingEvent := mk_event {
  fd_ : Z;
  cb_ : option callback
}.

(** [storage_] owns the events; the address of an event is its position
    in [storage_] plus one, so that no event has the null address. *)
Record URingManager := mk_manager {
  ring_ : io_uring;
  storage_ : list URingEvent
}.

Definition event_at (m : URingManager) (p : N) : option URingEvent :=
  if decide (p = 0%N) then None else storage_ m !! N.to_nat (p - 1).

(** [URingManager::URingManager()]: a ring of 4096 entries. *)
Definition URingManager_new : URingManager :=
  {| ring_ := io_uring_queue_init 4096; storage_ := [] |}.

(** [GetSubmit()]. *)
Definition GetSubmit (m : URingManager) : outcome URingManager :=
  match io_uring_get_sqe (ring_ m) with
  | Some r => Ok {| ring_ := r; storage_ := storage_ m |}
  | None => Fatal "TBD: To handle ring overflow"
  end.

Definition on_last_sqe (f : io_uring_sqe → io_uring_sqe)
    (m : URingManager) : URingManager :=
  {| ring_ := {| sq_entries := sq_entries (ring_ m);
                 sq := update_last f (sq (ring_ m));
                 submitted := submitted (ring_ m);
                 cq := cq (ring_ m) |};
     storage_ := storage_ m |}.

(** The [io_uring_prep_*] helpers reset the entry they prepare. *)
Definition prep (op : opcode) : io_uring_sqe → io_uring_sqe :=
  λ _, {| sqe_op := op; sqe_flags := 0; sqe_user_data := 0 |}.

Definition set_data (p : N) : io_uring_sqe → io_uring_sqe :=
  λ e, {| sqe_op := sqe_op e; sqe_flags := sqe_flags e; sqe_user_data := p |}.

(** [sqe->flags |= IOSQE_IO_LINK; sqe->user_data = 0;] *)
Definition set_link : io_uring_sqe → io_uring_sqe :=
  λ e, {| sqe_op := sqe_op e;
          sqe_flags := Z.lor (sqe_flags e) IOSQE_IO_LINK;
          sqe_user_data := 0 |}.

(** [AssignCb(fd, cb)]: [CHECK(cb)], then a new event at the end of
    [storage_]; returns its address. *)
Definition AssignCb (fd : Z) (cb : option callback) (m : URingManager)
    : outcome (N * URingManager) :=
  match cb with
  | None => Fatal "CHECK(cb)"
  | Some _ =>
      Ok (N.of_nat (S (length (storage_ m))),
          {| ring_ := ring_ m;
             storage_ := storage_ m ++ [{| fd_ := fd; cb_ := cb |}] |})
  end.

(** [event->Set(cb)]. *)
Definition Set_cb (p : N) (cb : option callback) (m : URingManager)
    : URingManager :=
  match event_at m p with
  | Some e =>
      {| ring_ := ring_ m;
         storage_ := <[N.to_nat (p - 1) := {| fd_ := fd_ e; cb_ := cb |}]>
                       (storage_ m) |}
  | None => m
  end.

(** [AddPollIn(event)]. *)
Definition AddPollIn (p : N) (m : URingManager) : outcome URingManager :=
  match event_at m p with
  | None => Fatal "invalid event"
  | Some e =>
      m1 ← GetSubmit m;
      Ok (on_last_sqe (set_data p)
            (on_last_sqe (prep (op_poll_add (fd_ e) POLLIN)) m1))
  end.

Definition with_ring (f : io_uring → io_uring) (m : URingManager)
    : URingManager :=
  {| ring_ := f (ring_ m); storage_ := storage_ m |}.

(** *** The drain loop [URingManager::Run()] *)

(** What the kernel answers in one turn of the loop: the results of
    [io_uring_submit] and [io_uring_wait_cqe], and the completions posted
    by the time the wait returns. *)
Record kernel_turn := mk_turn {
  submit_res : Z;
  wait_res : Z;
  arrived : list io_uring_cqe
}.

(** How a run over a finite kernel script ends: the loop was left on
    [EINTR], or it is blocked in the next [io_uring_wait_cqe]. *)
Inductive run_end := Returned | Waiting.

(** The program state the callbacks act on besides the manager. *)
Context {user : Type}.

(** Running a callback: [cb(res, mgr, event)]. *)
Variable invoke : callback → Z → N → URingManager → user
                  → outcome (URingManager * user).

(** [event->Run(res, mgr)]; an empty [std::function] throws. *)
Definition URingEvent_Run (res : Z) (p : N) (m : URingManager) (u : user)
    : outcome (URingManager * user) :=
  match event_at m p with
  | None => Fatal "invalid event"
  | Some e =>
      match cb_ e with
      | None => Fatal "bad_function_call"
      | Some cb => invoke cb res p m u
      end
  end.

(** The [for] loop over the peeked completions.  [log] records the calls
    of [event->Run]: the event and the result it was given. *)
Fixpoint drain (batch : list io_uring_cqe) (m : URingManager) (u : user)
    (log : list (N * Z)) : outcome (URingManager * user * list (N * Z)) :=
  match batch with
  | [] => Ok (m, u, log)
  | cqe :: batch' =>
      let res := cqe_res cqe in
      let event := cqe_user_data cqe in
      let m1 := with_ring (io_uring_cq_advance 1) m in
      if decide (event = 0%N) then drain batch' m1 u log
      else
        '(m2, u2) ← URingEvent_Run res event m1 u;
        drain batch' m2 u2 (log ++ [(event, res)])
  end.

(** [io_uring_peek_batch_cqe(&ring_, cqes, 32)]. *)
Definition peek_batch (m : URingManager) : list io_uring_cqe :=
  take 32 (cq (ring_ m)).

Fixpoint Run (turns : list kernel_turn) (m : URingManager) (u : user)
    (log : list (N * Z))
    : outcome (run_end * URingManager * user * list (N * Z)) :=
  match turns with
  | [] => Ok (Waiting, m, u, log)
  | t :: turns' =>
      if decide (submit_res t < 0) then Fatal "CHECK_GE(io_uring_submit)"
      else
        let m1 := with_ring io_uring_submit m in
        if decide (wait_res t < 0) then
          if decide (- wait_res t = EINTR) then Ok (Returned, m1, u, log)
          else Fatal "Error"
        else if decide (wait_res t = 0) then
          let m2 := with_ring (post_cqes (arrived t)) m1 in
          '(m3, u3, log3) ← drain (peek_batch m2) m2 u log;
          Run turns' m3 u3 log3
        else Fatal "CHECK_EQ(0, res)"
  end.

End Manager.

Arguments URingEvent : clear implicits.
Arguments URingManager : clear implicits.

(** [n] calls of [GetSubmit] in a row, with no submit in between. *)
Fixpoint GetSubmit_times {callback} (n : nat) (m : URingManager callback)
    : outcome (URingManager callback) :=
  match n with
  | O => Ok m
  | S n' => m' ← GetSubmit_times n' m; GetSubmit m'
  end.

(** A manager whose submission ring is full: 4096 entries handed out. *)
Definition full_manager : URingManager unit :=
  {| ring_ := {| sq_entries := 4096; sq := replicate 4096 blank_sqe;
                 submitted := []; cq := [] |};
     storage_ := [] |}.

Section ManagerFacts.

Context {callback user : Type}.
Implicit Types m : URingManager callback.

Lemma GetSubmit_times_new (n : nat) :
  (n ≤ 4096)%nat →
  GetSubmit_times n (@URingManager_new callback) =
  Ok {| ring_ := {| sq_entries := 4096; sq := replicate n blank_sqe;
                    submitted := []; cq := [] |};
        storage_ := [] |}.
Proof.
  induction n as [|n IH]; intros Hn; [reflexivity|].
  rewrite replicate_S_end.
  change (GetSubmit_times (S n) (@URingManager_new callback))
    with (GetSubmit_times n (@URingManager_new callback) ≫= GetSubmit).
  rewrite IH by lia.
  unfold mbind, outcome_bind, GetSubmit, io_uring_get_sqe.
  cbn [ring_ sq sq_entries storage_ submitted cq].
  rewrite length_replicate. by rewrite decide_True by lia.
Qed.

(** C3 (as the code has it). On the ring of 4096 entries that the
    constructor sets up, [GetSubmit] hands out a slot as long as fewer
    than 4096 entries are pending; once the ring is exhausted, so that
    [io_uring_get_sqe] returns null, [GetSubmit] ends the process with the
    fatal check "TBD: To handle ring overflow". *)
Theorem GetSubmit_full_ring_is_fatal m :
  sq_entries (ring_ m) = 4096%nat →
  ((length (sq (ring_ m)) < 4096)%nat →
     ∃ m', GetSubmit m = Ok m' ∧
           sq (ring_ m') = sq (ring_ m) ++ [blank_sqe] ∧
           storage_ m' = storage_ m) ∧
  ((4096 ≤ length (sq (ring_ m)))%nat →
     io_uring_get_sqe (ring_ m) = None ∧
     GetSubmit m = Fatal "TBD: To handle ring overflow").
Proof.
  intros He. unfold GetSubmit, io_uring_get_sqe. rewrite He. split; intros Hl.
  - rewrite decide_True by lia. eexists. split_and!; reflexivity.
  - rewrite decide_False by lia. done.
Qed.

(** Submitting and registering leave the completion queue alone. *)
Lemma cq_GetSubmit m m' : GetSubmit m = Ok m' → cq (ring_ m') = cq (ring_ m).
Proof.
  unfold GetSubmit, io_uring_get_sqe. case_decide; [|done]. by intros [= <-].
Qed.

Lemma cq_on_last_sqe f m : cq (ring_ (on_last_sqe f m)) = cq (ring_ m).
Proof. done. Qed.

Lemma cq_AddPollIn p m m' : AddPollIn p m = Ok m' → cq (ring_ m') = cq (ring_ m).
Proof.
  unfold AddPollIn. destruct (event_at m p); [|done].
  destruct (GetSubmit m) as [m1|] eqn:E; [|done]. simpl.
  intros [= <-]. rewrite !cq_on_last_sqe. by apply cq_GetSubmit.
Qed.

Lemma cq_AssignCb fd cb m p m' :
  AssignCb fd cb m = Ok (p, m') → cq (ring_ m') = cq (ring_ m).
Proof. unfold AssignCb. destruct cb; [|done]. by intros [= <- <-]. Qed.

Lemma cq_Set_cb p cb m : cq (ring_ (Set_cb p cb m)) = cq (ring_ m).
Proof. unfold Set_cb. by destruct (event_at m p). Qed.

Variable invoke : callback → Z → N → URingManager callback → user
                  → outcome (URingManager callback * user).

(** Callbacks submit requests and touch their events; they do not consume
    or post completions. *)
Definition cq_preserving : Prop :=
  ∀ cb res p m u m' u',
    invoke cb res p m u = Ok (m', u') → cq (ring_ m') = cq (ring_ m).

(** The calls of [event->Run] a batch gives rise to. *)
Definition calls_of (batch : list io_uring_cqe) : list (N * Z) :=
  (λ c, (cqe_user_data c, cqe_res c)) <$>
  filter (λ c, cqe_user_data c ≠ 0%N) batch.

Lemma drain_calls batch : ∀ m u log rest m' u' log',
  cq_preserving →
  cq (ring_ m) = batch ++ rest →
  drain invoke batch m u log = Ok (m', u', log') →
  log' = log ++ calls_of batch ∧ cq (ring_ m') = rest.
Proof.
  induction batch as [|c batch IH]; intros m u log rest m' u' log' Hf Hcq; simpl.
  - intros [= <- <- <-]. by rewrite app_nil_r.
  - set (m1 := with_ring (io_uring_cq_advance 1) m).
    assert (Hcq1 : cq (ring_ m1) = batch ++ rest).
    { subst m1; simpl. by rewrite Hcq. }
    unfold calls_of. rewrite filter_cons.
    destruct (decide (cqe_user_data c = 0%N)) as [Hz|Hnz].
    + rewrite decide_False by tauto. by apply IH.
    + rewrite decide_True by done.
      destruct (URingEvent_Run invoke (cqe_res c) (cqe_user_data c) m1 u)
        as [[m2 u2]|msg] eqn:Erun; simpl; [|done].
      assert (Hcq2 : cq (ring_ m2) = batch ++ rest).
      { rewrite <- Hcq1. unfold URingEvent_Run in Erun.
        destruct (event_at m1 _) as [e|]; [|done].
        destruct (cb_ e) as [cb|]; [|done]. by eapply Hf. }
      intros Hd. destruct (IH _ _ _ _ _ _ _ Hf Hcq2 Hd) as [-> ->].
      split; [|done]. by rewrite <- app_assoc.
Qed.

Lemma drain_null batch : ∀ m u log,
  Forall (λ c, cqe_user_data c = 0%N) batch →
  drain invoke batch m u log =
  Ok (with_ring (io_uring_cq_advance (length batch)) m, u, log).
Proof.
  induction batch as [|c batch IH]; intros m u log Hall; simpl.
  - destruct m as [[] ?]; reflexivity.
  - apply Forall_cons in Hall as [Hc Hall]. rewrite decide_True by done.
    rewrite IH by done.
    destruct m as [[] ?]; unfold with_ring, io_uring_cq_advance; simpl.
    by rewrite drop_drop.
Qed.

(** *** Which callbacks the loop runs

    A call of a callback as [event->Run(res, mgr)] makes it: the callback,
    the result and the event it is given, and the manager it runs on. *)
Record call := mk_call {
  call_cb : callback;
  call_res : Z;
  call_event : N;
  call_mgr : URingManager callback
}.

(** [invoke] observed: it does what [invoke] does and writes every call
    down next to the user state.  Nothing but a call of a callback adds to
    this list. *)
Definition traced (cb : callback) (res : Z) (p : N)
    (m : URingManager callback) (ut : user * list call)
    : outcome (URingManager callback * (user * list call)) :=
  '(m', u') ← invoke cb res p m ut.1;
  Ok (m', (u', ut.2 ++ [mk_call cb res p m])).

(** The callback of a call is the one stored in the event the call is
    given, at the time of the call. *)
Definition looked_up (c : call) : Prop :=
  ∃ e, event_at (call_mgr c) (call_event c) = Some e ∧
       cb_ e = Some (call_cb c).

Lemma Ok_bind {A B} (a : A) (f : A → outcome B) : (Ok a ≫= f) = f a.
Proof. reflexivity. Qed.

Lemma traced_eq cb res p m u tr :
  traced cb res p m (u, tr) =
  match invoke cb res p m u with
  | Ok (m', u') => Ok (m', (u', tr ++ [mk_call cb res p m]))
  | Fatal msg => Fatal msg
  end.
Proof.
  unfold traced. simpl. by destruct (invoke cb res p m u) as [[m' u']|msg].
Qed.

Lemma drain_cons {U}
    (inv : callback → Z → N → URingManager callback → U
           → outcome (URingManager callback * U))
    c batch m (u : U) log :
  drain inv (c :: batch) m u log =
  if decide (cqe_user_data c = 0%N)
  then drain inv batch (with_ring (io_uring_cq_advance 1) m) u log
  else URingEvent_Run inv (cqe_res c) (cqe_user_data c)
         (with_ring (io_uring_cq_advance 1) m) u ≫=
       λ '(m2, u2), drain inv batch m2 u2 (log ++ [(cqe_user_data c, cqe_res c)]).
Proof. reflexivity. Qed.

Lemma calls_of_null batch :
  Forall (λ c, cqe_user_data c = 0%N) batch → calls_of batch = [].
Proof.
  induction 1 as [|c batch Hc _ IH]; [done|]. unfold calls_of in *.
  by rewrite filter_cons_False by tauto.
Qed.

Lemma drain_traced batch : ∀ m u tr log,
  match drain invoke batch m u log with
  | Ok (m', u', log') =>
      ∃ calls,
        drain traced batch m (u, tr) log = Ok (m', (u', tr ++ calls), log') ∧
        (λ c, (call_event c, call_res c)) <$> calls = calls_of batch ∧
        Forall looked_up calls
  | Fatal msg => drain traced batch m (u, tr) log = Fatal msg
  end.
Proof.
  induction batch as [|c batch IH]; intros m u tr log.
  - simpl. exists []. by rewrite app_nil_r.
  - rewrite !drain_cons. set (m1 := with_ring (io_uring_cq_advance 1) m).
    unfold calls_of. rewrite filter_cons.
    destruct (decide (cqe_user_data c = 0%N)) as [Hz|Hnz].
    + rewrite decide_False by tauto. apply IH.
    + rewrite decide_True by done. unfold URingEvent_Run.
      destruct (event_at m1 (cqe_user_data c)) as [e|] eqn:He; [|done].
      destruct (cb_ e) as [cb|] eqn:Hcb; [|done].
      rewrite traced_eq.
      destruct (invoke cb (cqe_res c) (cqe_user_data c) m1 u)
        as [[m2 u2]|msg]; [|done].
      rewrite !Ok_bind.
      specialize (IH m2 u2
        (tr ++ [mk_call cb (cqe_res c) (cqe_user_data c) m1])
        (log ++ [(cqe_user_data c, cqe_res c)])).
      destruct (drain invoke batch m2 u2 _) as [[[m' u'] log']|msg]; [|done].
      destruct IH as (calls & Hd & Hcalls & Hlook).
      exists (mk_call cb (cqe_res c) (cqe_user_data c) m1 :: calls).
      split_and!.
      * rewrite Hd. by rewrite <- app_assoc.
      * rewrite fmap_cons. simpl. by rewrite Hcalls.
      * apply Forall_cons. split; [|done]. by exists e.
Qed.

(** C5. One turn of the drain loop, when [io_uring_submit] succeeds:
    the pending SQEs are submitted; a wait that fails with [EINTR] ends
    the loop with no callback run; otherwise up to 32 completions are
    peeked, each is consumed (the CQ head moves past all of them), and the
    callbacks that are run are exactly these, in order: for each
    completion with non-null user data, the callback stored in the event
    at that address, called with the result of the completion and that
    event; a completion with null user data runs nothing. *)
Theorem drain_loop_turn (t : kernel_turn) (turns : list kernel_turn)
    m (u : user) (log : list (N * Z)) :
  cq_preserving →
  0 ≤ submit_res t →
  let m1 := with_ring io_uring_submit m in
  let m2 := with_ring (post_cqes (arrived t)) m1 in
  sq (ring_ m1) = [] ∧
  submitted (ring_ m1) = submitted (ring_ m) ++ sq (ring_ m) ∧
  (wait_res t = - EINTR →
     Run invoke (t :: turns) m u log = Ok (Returned, m1, u, log) ∧
     Run traced (t :: turns) m (u, []) log = Ok (Returned, m1, (u, []), log)) ∧
  (wait_res t = 0 →
     peek_batch m2 = take 32 (cq (ring_ m) ++ arrived t) ∧
     Run invoke (t :: turns) m u log =
       (drain invoke (peek_batch m2) m2 u log ≫=
          λ '(m3, u3, log3), Run invoke turns m3 u3 log3) ∧
     (∀ m3 u3 log3,
        drain invoke (peek_batch m2) m2 u log = Ok (m3, u3, log3) →
        log3 = log ++ calls_of (peek_batch m2) ∧
        cq (ring_ m3) = drop 32 (cq (ring_ m) ++ arrived t) ∧
        ∃ calls,
          drain traced (peek_batch m2) m2 (u, []) log =
            Ok (m3, (u3, calls), log3) ∧
          (λ c, (call_event c, call_res c)) <$> calls =
            calls_of (peek_batch m2) ∧
          Forall looked_up calls) ∧
     (∀ msg,
        drain invoke (peek_batch m2) m2 u log = Fatal msg →
        drain traced (peek_batch m2) m2 (u, []) log = Fatal msg) ∧
     (Forall (λ c, cqe_user_data c = 0%N) (peek_batch m2) →
        drain invoke (peek_batch m2) m2 u log =
        Ok (with_ring (io_uring_cq_advance (length (peek_batch m2))) m2,
            u, log) ∧
        drain traced (peek_batch m2) m2 (u, []) log =
        Ok (with_ring (io_uring_cq_advance (length (peek_batch m2))) m2,
            (u, []), log))).
Proof.
  intros Hf Hs m1 m2. split_and!; [done|done| |].
  - intros Hw. simpl. rewrite !(decide_False (P := submit_res t < 0)) by lia.
    rewrite !(decide_True (P := wait_res t < 0))
      by (rewrite Hw; unfold EINTR; lia).
    by rewrite !(decide_True (P := - wait_res t = EINTR))
      by (rewrite Hw; unfold EINTR; lia).
  - intros Hw. split_and!.
    + done.
    + simpl. rewrite decide_False by lia. rewrite decide_False by lia.
      by rewrite decide_True by done.
    + intros m3 u3 log3 Hd.
      destruct (drain_calls (peek_batch m2) m2 u log
                  (drop 32 (cq (ring_ m) ++ arrived t)) m3 u3 log3 Hf)
        as [Hlog Hcq]; [unfold peek_batch; by rewrite take_drop|done|].
      split_and!; [done|done|].
      pose proof (drain_traced (peek_batch m2) m2 u [] log) as Ht.
      rewrite Hd in Ht. exact Ht.
    + intros msg Hd.
      pose proof (drain_traced (peek_batch m2) m2 u [] log) as Ht.
      by rewrite Hd in Ht.
    + intros Hall. split.
      * by apply drain_null.
      * pose proof (drain_traced (peek_batch m2) m2 u [] log) as Ht.
        rewrite drain_null in Ht by done.
        destruct Ht as (calls & Hd & Hc & _). rewrite Hd.
        assert (calls = []) as ->; [|done].
        apply (fmap_nil_inv (λ c, (call_event c, call_res c))).
        rewrite Hc. by apply calls_of_null.
Qed.

End ManagerFacts.

(** C3 (no waiting on an exhausted ring). After 4096 calls of [GetSubmit] on a
    new manager the ring is exhausted: [io_uring_get_sqe] returns null and
    the next [GetSubmit] does not wait, it is fatal. *)
Lemma GetSubmit_overflow_aborts :
  GetSubmit_times 4096 URingManager_new = Ok full_manager ∧
  io_uring_get_sqe (ring_ full_manager) = None ∧
  GetSubmit full_manager = Fatal "TBD: To handle ring overflow" ∧
  ¬ (∀ m : URingManager unit,
       io_uring_get_sqe (ring_ m) = None → ∀ msg, GetSubmit m ≠ Fatal msg).
Proof.
  assert (H : GetSubmit full_manager = Fatal "TBD: To handle ring overflow").
  { by vm_compute. }
  assert (Hn : io_uring_get_sqe (ring_ full_manager) = None).
  { by vm_compute. }
  split_and!.
  - by rewrite GetSubmit_times_new.
  - exact Hn.
  - exact H.
  - intros Hc. exact (Hc full_manager Hn _ H).
Qed.

Lemma GetSubmit_full_ring_is_fatal_witness :
  sq_entries (ring_ full_manager) = 4096%nat ∧
  GetSubmit full_manager = Fatal "TBD: To handle ring overflow".
Proof.
  split; [reflexivity|].
  apply (GetSubmit_full_ring_is_fatal full_manager eq_refl).
  unfold full_manager; cbn [ring_ sq]. rewrite length_replicate. lia.
Defined.

End URing.

(** ** The connection state machine ([RedisConnection], [HandleAccept]) *)

Module Redis.
Import URing.

Inductive State := WAIT_READ | READ | WRITE.

Inductive shut_how := SHUT_RD | SHUT_WR | SHUT_RDWR.

(** The system calls the handlers issue directly. *)
Inductive syscall :=
| sys_shutdown (fd : Z) (how : shut_how)
| sys_close (fd : Z).

(** The two callbacks the program registers: [&HandleAccept], and the
    lambda of [StartPolling], which owns a [shared_ptr] to its connection
    (here the connection's address). *)
Inductive callback :=
| cb_HandleAccept
| cb_Handle (conn : N).

(** What [accept4] on the listening socket returns next. *)
Inductive accept_result :=
| Accepted (conn_fd : Z)
| AcceptError (errno : Z).

Definition EAGAIN : Z := 11.

Section Connection.

Variable FLAGS_linked_ske : bool.

(** [PingCommand] (examples/pingserver/ping_command.h) is used through
    [Decode] only; what it decides is left open. *)
Context {PingCommand : Type}.
Variable Decode : PingCommand → Z → bool * PingCommand.
Variable PingCommand_new : PingCommand.

Record RedisConnection := mk_conn {
  state_ : State;
  cmd_ : PingCommand;
  use_count : nat   (* strong references to the object *)
}.

(** The heap of connections and the process-level effects. *)
Record world := mk_world {
  conns : gmap N RedisConnection;
  next_conn : N;
  syscalls : list syscall;
  socket_errors : list Z;          (* [LOG(WARNING) << "Socket error "] *)
  ping_qps : nat;
  accept_pending : list accept_result
}.

Abbreviation manager := (URingManager callback).

Definition update_conn (c : N) (f : RedisConnection → RedisConnection)
    (w : world) : world :=
  {| conns := alter f c (conns w); next_conn := next_conn w;
     syscalls := syscalls w; socket_errors := socket_errors w;
     ping_qps := ping_qps w; accept_pending := accept_pending w |}.

Definition set_state (st : State) (conn : RedisConnection) : RedisConnection :=
  {| state_ := st; cmd_ := cmd_ conn; use_count := use_count conn |}.

Definition set_cmd (cmd : PingCommand) (conn : RedisConnection) : RedisConnection :=
  {| state_ := state_ conn; cmd_ := cmd; use_count := use_count conn |}.

Definition add_ref (conn : RedisConnection) : RedisConnection :=
  {| state_ := state_ conn; cmd_ := cmd_ conn; use_count := S (use_count conn) |}.

(** Dropping one [shared_ptr]: the last one destroys the object. *)
Definition release (c : N) (w : world) : world :=
  {| conns :=
       match conns w !! c with
       | Some conn =>
           if decide (use_count conn ≤ 1)%nat then delete c (conns w)
           else <[c := {| state_ := state_ conn; cmd_ := cmd_ conn;
                          use_count := pred (use_count conn) |}]> (conns w)
       | None => conns w
       end;
     next_conn := next_conn w;
     syscalls := syscalls w; socket_errors := socket_errors w;
     ping_qps := ping_qps w; accept_pending := accept_pending w |}.

Definition do_syscalls (cs : list syscall) (w : world) : world :=
  {| conns := conns w; next_conn := next_conn w;
     syscalls := syscalls w ++ cs; socket_errors := socket_errors w;
     ping_qps := ping_qps w; accept_pending := accept_pending w |}.

Definition log_socket_error (e : Z) (w : world) : world :=
  {| conns := conns w; next_conn := next_conn w;
     syscalls := syscalls w; socket_errors := socket_errors w ++ [e];
     ping_qps := ping_qps w; accept_pending := accept_pending w |}.

Definition inc_qps (w : world) : world :=
  {| conns := conns w; next_conn := next_conn w;
     syscalls := syscalls w; socket_errors := socket_errors w;
     ping_qps := S (ping_qps w); accept_pending := accept_pending w |}.

(** [event->Set(nullptr)]: the old callback is destroyed, and with it the
    reference it owns. *)
Definition Set_nullptr (event : N) (m : manager) (w : world) : manager * world :=
  (Set_cb event None m,
   match event_at m event with
   | Some {| cb_ := Some (cb_Handle c) |} => release c w
   | _ => w
   end).

(** [RedisConnection::InitiateRead]. *)
Definition InitiateRead (c : N) (event : N) (m : manager) (w : world)
    : outcome (manager * world) :=
  match event_at m event with
  | None => Fatal "invalid event"
  | Some e =>
      let socket := fd_ e in
      m1 ← GetSubmit m;
      Ok (on_last_sqe (set_data event)
            (on_last_sqe (prep (op_recvmsg socket)) m1),
          update_conn c (set_state READ) w)
  end.

(** [RedisConnection::InitiateWrite]. *)
Definition InitiateWrite (c : N) (event : N) (m : manager) (w : world)
    : outcome (manager * world) :=
  match event_at m event with
  | None => Fatal "invalid event"
  | Some e =>
      let socket := fd_ e in
      m1 ← GetSubmit m;
      let m2 := on_last_sqe (prep (op_sendmsg socket)) m1 in
      if FLAGS_linked_ske then
        m3 ← AddPollIn event (on_last_sqe set_link m2);
        Ok (m3, update_conn c (set_state WAIT_READ) w)
      else
        Ok (on_last_sqe (set_data event) m2,
            update_conn c (set_state WRITE) w)
  end.

(** [RedisConnection::Handle], run on connection [c]. *)
Definition Handle (c : N) (res : Z) (event : N) (m : manager) (w : world)
    : outcome (manager * world) :=
  match event_at m event, conns w !! c with
  | Some e, Some conn =>
      let socket := fd_ e in
      match state_ conn with
      | WAIT_READ =>
          if decide (res > 0) then InitiateRead c event m w
          else Fatal "CHECK_GT(res, 0)"
      | READ =>
          if decide (res > 0) then
            let '(decoded, cmd) := Decode (cmd_ conn) res in
            let w1 := update_conn c (set_cmd cmd) w in
            if decoded then InitiateWrite c event m (inc_qps w1)
            else InitiateRead c event m w1
          else
            let w1 := if decide (res < 0) then log_socket_error (- res) w else w in
            let w2 := do_syscalls [sys_shutdown socket SHUT_RDWR;
                                   sys_close socket] w1 in
            Ok (Set_nullptr event m w2)
      | WRITE =>
          if decide (res > 0) then
            m1 ← AddPollIn event m;
            Ok (m1, update_conn c (set_state WAIT_READ) w)
          else Fatal "CHECK_GT(res, 0)"
      end
  | _, _ => Fatal "invalid object"
  end.

(** [RedisConnection::StartPolling]. *)
Definition StartPolling (c : N) (fd : Z) (m : manager) (w : world)
    : outcome (manager * world) :=
  let w1 := update_conn c add_ref w in           (* shared_from_this() *)
  '(event, m1) ← AssignCb fd (Some (cb_Handle c)) m;
  m2 ← GetSubmit m1;
  let m3 := on_last_sqe (prep (op_poll_add fd POLLIN)) m2 in
  if FLAGS_linked_ske then
    InitiateRead c event (on_last_sqe set_link m3) w1
  else
    Ok (on_last_sqe (set_data event) m3, update_conn c (set_state WAIT_READ) w1).

Definition set_accept_pending (l : list accept_result) (w : world) : world :=
  {| conns := conns w; next_conn := next_conn w;
     syscalls := syscalls w; socket_errors := socket_errors w;
     ping_qps := ping_qps w; accept_pending := l |}.

(** [new RedisConnection], held by one local [shared_ptr]. *)
Definition new_connection (w : world) : N * world :=
  (next_conn w,
   {| conns := <[next_conn w := {| state_ := WAIT_READ; cmd_ := PingCommand_new;
                                   use_count := 1 |}]> (conns w);
      next_conn := N.succ (next_conn w);
      syscalls := syscalls w; socket_errors := socket_errors w;
      ping_qps := ping_qps w; accept_pending := accept_pending w |}).

(** The [while (true)] loop of [HandleAccept] over what [accept4] returns;
    an empty backlog is [EAGAIN]. *)
Fixpoint accept_loop (pending : list accept_result) (m : manager) (w : world)
    : outcome (manager * world) :=
  match pending with
  | [] => Ok (m, set_accept_pending [] w)
  | AcceptError errno :: rest =>
      if decide (errno = EAGAIN) then Ok (m, set_accept_pending rest w)
      else Fatal "Error calling accept4"
  | Accepted conn_fd :: rest =>
      if decide (conn_fd > 0) then
        let '(c, w1) := new_connection w in
        '(m2, w2) ← StartPolling c conn_fd m w1;
        accept_loop rest m2 (release c w2)   (* the local pointer goes away *)
      else Fatal "CHECK_GT(conn_fd, 0)"
  end.

Definition HandleAccept (res : Z) (me : N) (m : manager) (w : world)
    : outcome (manager * world) :=
  if decide (res > 0) then
    '(m1, w1) ← accept_loop (accept_pending w) m w;
    m2 ← AddPollIn me m1;
    Ok (m2, w1)
  else Fatal "CHECK_GT(res, 0)".

(** Calling a registered callback. *)
Definition invoke (cb : callback) (res : Z) (event : N) (m : manager)
    (w : world) : outcome (manager * world) :=
  match cb with
  | cb_HandleAccept => HandleAccept res event m w
  | cb_Handle c => Handle c res event m w
  end.

Lemma event_at_Set_cb (event : N) (cb : option callback) (m : manager) e :
  event_at m event = Some e →
  event_at (Set_cb event cb m) event = Some {| fd_ := fd_ e; cb_ := cb |}.
Proof.
  unfold Set_cb. intros He. rewrite He. revert He. unfold event_at; simpl.
  case_decide; [done|]. intros He.
  apply list_lookup_insert_eq. by eapply lookup_lt_Some.
Qed.

Lemma ring_Set_cb (event : N) (cb : option callback) (m : manager) :
  ring_ (Set_cb event cb m) = ring_ m.
Proof. unfold Set_cb. by destruct (event_at m event). Qed.

(** C6. A completion with result [res ≤ 0] handled in state [READ]:
    the handler shuts the socket down with [SHUT_RDWR], closes it, and
    clears the callback of the event, which drops the reference the
    callback owned (destroying the connection when that was the last
    one); the ring is left as it was, so no read or write is started. *)
Theorem read_error_closes_connection (c : N) (res : Z) (event : N)
    (m : manager) (w : world) (e : URingEvent callback) (conn : RedisConnection) :
  event_at m event = Some e →
  cb_ e = Some (cb_Handle c) →
  conns w !! c = Some conn →
  state_ conn = READ →
  res ≤ 0 →
  ∃ m' w',
    Handle c res event m w = Ok (m', w') ∧
    syscalls w' =
      syscalls w ++ [sys_shutdown (fd_ e) SHUT_RDWR; sys_close (fd_ e)] ∧
    event_at m' event = Some {| fd_ := fd_ e; cb_ := None |} ∧
    ring_ m' = ring_ m ∧
    conns w' !! c =
      (if decide (use_count conn ≤ 1)%nat then None
       else Some {| state_ := READ; cmd_ := cmd_ conn;
                    use_count := pred (use_count conn) |}).
Proof.
  intros He Hcb Hc Hst Hres. unfold Handle. rewrite He, Hc, Hst.
  rewrite decide_False by lia. eexists _, _. split; [reflexivity|].
  unfold Set_nullptr. rewrite He. destruct e as [fd cb]; simpl in *. subst cb.
  split_and!.
  - by destruct (decide (res < 0)).
  - by rewrite (event_at_Set_cb event None m _ He).
  - apply ring_Set_cb.
  - unfold release. destruct (decide (res < 0)); simpl; rewrite Hc;
      (case_decide; [apply lookup_delete_eq|rewrite lookup_insert_eq; by rewrite Hst]).
Qed.

(** The callbacks of the program only submit: the completion queue is
    the same before and after. *)
Lemma cq_InitiateRead c event m w m' w' :
  InitiateRead c event m w = Ok (m', w') → cq (ring_ m') = cq (ring_ m).
Proof.
  unfold InitiateRead. destruct (event_at m event); [|done].
  destruct (GetSubmit m) as [m1|] eqn:E; [|done]. simpl.
  intros [= <- <-]. rewrite !cq_on_last_sqe. by apply cq_GetSubmit.
Qed.

Lemma cq_InitiateWrite c event m w m' w' :
  InitiateWrite c event m w = Ok (m', w') → cq (ring_ m') = cq (ring_ m).
Proof.
  unfold InitiateWrite. destruct (event_at m event); [|done].
  destruct (GetSubmit m) as [m1|] eqn:E; [|done]. simpl.
  apply cq_GetSubmit in E. destruct FLAGS_linked_ske.
  - destruct (AddPollIn event _) as [m3|] eqn:E3; [|done]. simpl.
    intros [= <- <-]. apply cq_AddPollIn in E3.
    rewrite E3, !cq_on_last_sqe. done.
  - intros [= <- <-]. by rewrite !cq_on_last_sqe.
Qed.

Lemma cq_StartPolling c fd m w m' w' :
  StartPolling c fd m w = Ok (m', w') → cq (ring_ m') = cq (ring_ m).
Proof.
  unfold StartPolling.
  destruct (AssignCb fd _ m) as [[event m1]|] eqn:E1; [|done]. simpl.
  apply cq_AssignCb in E1.
  destruct (GetSubmit m1) as [m2|] eqn:E2; [|done]. simpl.
  apply cq_GetSubmit in E2. destruct FLAGS_linked_ske.
  - intros Hread. apply cq_InitiateRead in Hread.
    rewrite Hread, !cq_on_last_sqe. congruence.
  - intros [= <- <-]. rewrite !cq_on_last_sqe. congruence.
Qed.

Lemma cq_accept_loop pending : ∀ m w m' w',
  accept_loop pending m w = Ok (m', w') → cq (ring_ m') = cq (ring_ m).
Proof.
  induction pending as [|[conn_fd|errno] rest IH]; intros m w m' w'; simpl.
  - by intros [= <- <-].
  - case_decide; [|done].
    destruct (StartPolling _ conn_fd m _) as [[m2 w2]|] eqn:E; [|done]. simpl.
    intros Hrest. apply IH in Hrest. apply cq_StartPolling in E. congruence.
  - case_decide; [|done]. by intros [= <- <-].
Qed.

Lemma invoke_cq_preserving : cq_preserving invoke.
Proof.
  intros cb res event m w m' w'. destruct cb as [|c]; simpl.
  - unfold HandleAccept. case_decide; [|done].
    destruct (accept_loop _ m w) as [[m1 w1]|] eqn:E1; [|done]. simpl.
    destruct (AddPollIn event m1) as [m2|] eqn:E2; [|done]. simpl.
    intros [= <- <-]. apply cq_accept_loop in E1. apply cq_AddPollIn in E2.
    congruence.
  - unfold Handle. destruct (event_at m event) as [e|] eqn:He; [|done].
    destruct (conns w !! c) as [conn|]; [|done].
    destruct (state_ conn).
    + case_decide; [|done]. apply cq_InitiateRead.
    + case_decide.
      * destruct (Decode (cmd_ conn) res) as [[] cmd].
        -- apply cq_InitiateWrite.
        -- apply cq_InitiateRead.
      * unfold Set_nullptr. intros [= <- <-]. apply cq_Set_cb.
    + case_decide; [|done].
      destruct (AddPollIn event m) as [m1|] eqn:E; [|done]. simpl.
      intros [= <- <-]. by apply cq_AddPollIn in E.
Qed.

End Connection.

(** *** A complete exchange: accept, poll, read, end of stream

    The listening event has address 1.  The kernel reports the listening
    socket readable; [accept4] yields descriptor 9; the new connection
    polls, reads, and on the end of the stream closes and is destroyed. *)

Definition demo_decode (cmd : unit) (res : Z) : bool * unit := (false, tt).

Definition demo_manager : URingManager callback :=
  {| ring_ := io_uring_queue_init 4096;
     storage_ := [{| fd_ := 3; cb_ := Some cb_HandleAccept |}] |}.

Definition demo_world : @world unit :=
  {| conns := ∅; next_conn := 100; syscalls := []; socket_errors := [];
     ping_qps := 0; accept_pending := [Accepted 9] |}.

Definition demo_script : list kernel_turn :=
  [ mk_turn 0 0 [mk_cqe 1 1];      (* the listening socket is readable *)
    mk_turn 0 0 [mk_cqe 1 2];      (* descriptor 9 is readable *)
    mk_turn 0 0 [mk_cqe 0 2];      (* recvmsg returns 0: end of stream *)
    mk_turn 0 (-4) [] ].           (* the wait is interrupted *)

Definition demo_run :
    outcome (run_end * URingManager callback * @world unit * list (N * Z)) :=
  Run (invoke false demo_decode tt) demo_script demo_manager demo_world [].

Example demo_run_closes :
  match demo_run with
  | Ok (e, m, w, log) =>
      e = Returned ∧
      log = [(1%N, 1); (2%N, 1); (2%N, 0)] ∧
      syscalls w = [sys_shutdown 9 SHUT_RDWR; sys_close 9] ∧
      conns w = ∅ ∧
      cb_ <$> storage_ m = [Some cb_HandleAccept; None]
  | Fatal _ => False
  end.
Proof. vm_compute. split_and!; reflexivity. Qed.

(** The first turn of the exchange: the completion of the poll on the
    listening socket arrives. *)
Definition demo_turn : kernel_turn := mk_turn 0 0 [mk_cqe 1 1].

Definition demo_arrived : URingManager callback :=
  with_ring (post_cqes (arrived demo_turn))
    (with_ring io_uring_submit demo_manager).

Lemma drain_loop_turn_witness :
  cq_preserving (invoke false demo_decode tt) ∧ 0 ≤ submit_res demo_turn ∧
  wait_res demo_turn = 0 ∧
  ∃ m3 w3 calls,
    drain (invoke false demo_decode tt) (peek_batch demo_arrived)
      demo_arrived demo_world [] = Ok (m3, w3, [(1%N, 1)]) ∧
    cq (ring_ m3) = [] ∧
    drain (traced (invoke false demo_decode tt)) (peek_batch demo_arrived)
      demo_arrived (demo_world, []) [] = Ok (m3, (w3, calls), [(1%N, 1)]) ∧
    (λ c, (call_event c, call_res c)) <$> calls = [(1%N, 1)] ∧
    call_cb <$> calls = [cb_HandleAccept] ∧
    Forall looked_up calls.
Proof.
  pose proof (invoke_cq_preserving false demo_decode tt) as Hf.
  split; [exact Hf|]. split; [simpl; lia|]. split; [reflexivity|].
  destruct (drain_loop_turn (invoke false demo_decode tt) demo_turn []
              demo_manager demo_world [] Hf) as (_ & _ & _ & H0);
    [simpl; lia|].
  destruct (H0 eq_refl) as (_ & _ & Hcalls & _).
  fold demo_arrived in Hcalls.
  destruct (drain (invoke false demo_decode tt) (peek_batch demo_arrived)
              demo_arrived demo_world []) as [[[m3 w3] log3]|msg] eqn:E;
    [|by vm_compute in E].
  destruct (Hcalls m3 w3 log3 eq_refl) as (Hlog & Hcq & calls & Hd & Hc & Hl).
  exists m3, w3, calls. rewrite Hlog in *.
  assert (Hcb : call_cb <$> calls = [cb_HandleAccept]).
  { vm_compute in Hd. injection Hd as _ _ <-. reflexivity. }
  split_and!; done.
Defined.

(** The state the demo connection is in after it has started to read. *)
Definition reading_manager : URingManager callback :=
  {| ring_ := io_uring_queue_init 4096;
     storage_ := [{| fd_ := 3; cb_ := Some cb_HandleAccept |};
                  {| fd_ := 9; cb_ := Some (cb_Handle 100) |}] |}.

Definition reading_world : @world unit :=
  {| conns := {[ 100%N := {| state_ := READ; cmd_ := tt; use_count := 1 |} ]};
     next_conn := 101; syscalls := []; socket_errors := [];
     ping_qps := 0; accept_pending := [] |}.

Lemma read_error_closes_connection_witness :
  ∃ m' w',
    Handle false demo_decode 100 0 2 reading_manager reading_world
      = Ok (m', w') ∧
    syscalls w' = [sys_shutdown 9 SHUT_RDWR; sys_close 9] ∧
    event_at m' 2 = Some {| fd_ := 9; cb_ := None |} ∧
    ring_ m' = ring_ reading_manager ∧
    conns w' !! 100%N = None.
Proof.
  apply (read_error_closes_connection false demo_decode 100 0 2
           reading_manager reading_world
           {| fd_ := 9; cb_ := Some (cb_Handle 100) |}
           {| state_ := READ; cmd_ := tt; use_count := 1 |}).
  - reflexivity.
  - reflexivity.
  - reflexivity.
  - reflexivity.
  - lia.
Defined.

End Redis.

(** ** The pipeline executor ([mr3::Pipeline::Executor]) *)

Module Pipeline.

(** *** Channels ([fibers::buffered_channel], [StringQueue]) *)

Record channel (A : Type) := mk_channel {
  items : list A;
  capacity : nat;
  is_closed : bool
}.
Arguments mk_channel {A}.
Arguments items {A}.
Arguments capacity {A}.
Arguments is_closed {A}.

Definition new_channel {A} (cap : nat) : channel A :=
  {| items := []; capacity := cap; is_closed := false |}.

(** [close()] and [StartClosing()] both mark the channel closed; what is
    queued stays poppable. *)
Definition close {A} (q : channel A) : channel A :=
  {| items := items q; capacity := capacity q; is_closed := true |}.

Definition set_items {A} (l : list A) (q : channel A) : channel A :=
  {| items := l; capacity := capacity q; is_closed := is_closed q |}.

(** A file to process: its name and the format tag of its input. *)
Definition FileInput : Type := string * nat.

(** *** The mapper loop ([MapFiber]) *)

Record map_state := mk_map_state {
  record_num : Z;            (* [uint64_t record_num] *)
  invoked : list string;     (* the arguments [do_fn] was called with *)
  skipped : nat;             (* records dropped by the [continue] *)
  yields : nat               (* calls of [this_fiber::yield()] *)
}.

Definition map_init : map_state :=
  {| record_num := 0; invoked := []; skipped := 0; yields := 0 |}.

(** The body of the [while] loop for one popped record.  [map_limit] is
    the value of [FLAGS_map_limit]. *)
Definition map_iter (map_limit : Z) (st : map_state) (record : string)
    : map_state :=
  let n1 := wrap64 (record_num st + 1) in                    (* ++record_num *)
  if bool_decide (map_limit ≠ 0) && bool_decide (n1 > map_limit) then
    {| record_num := n1; invoked := invoked st;
       skipped := S (skipped st); yields := yields st |}
  else
    let n2 := wrap64 (n1 + 1) in                  (* ++record_num % 1000 *)
    {| record_num := n2; invoked := invoked st ++ [record];
       skipped := skipped st;
       yields := if bool_decide (n2 mod 1000 = 0) then S (yields st)
                 else yields st |}.

(** [MapFiber] run on the records its queue delivers before it reports
    closed. *)
Definition MapFiber (map_limit : Z) (records : list string) : map_state :=
  foldl (map_iter map_limit) map_init records.

Lemma MapFiber_snoc map_limit records r :
  MapFiber map_limit (records ++ [r]) =
  map_iter map_limit (MapFiber map_limit records) r.
Proof. unfold MapFiber. by rewrite foldl_app. Qed.

(** With a limit [L > 0], [record_num] goes up by two for every mapped
    record, so the test [record_num > L] lets through the first
    [(L + 1) / 2] records only. *)
Lemma MapFiber_limit (L : Z) (records : list string) :
  0 < L < 2 ^ 32 →
  Z.of_nat (length records) < 2 ^ 62 →
  let k := Z.to_nat ((L + 1) / 2) in
  let st := MapFiber L records in
  invoked st = take k records ∧
  skipped st = (length records - k)%nat ∧
  record_num st =
    (if decide (length records ≤ k)%nat then 2 * Z.of_nat (length records)
     else Z.of_nat k + Z.of_nat (length records)).
Proof.
  intros HL. induction records as [|r records IH] using rev_ind; intros Hlen k st.
  { subst st. simpl. rewrite take_nil. by split_and!. }
  rewrite length_app in Hlen; simpl in Hlen.
  destruct IH as (Hinv & Hsk & Hrn); [lia|]. fold k in Hinv, Hsk, Hrn.
  subst st. rewrite MapFiber_snoc, length_app. simpl.
  set (j := length records) in *.
  assert (Hk : 2 * Z.of_nat k ≤ L + 1 ∧ L ≤ 2 * Z.of_nat k).
  { subst k. rewrite Z2Nat.id by (apply Z.div_pos; lia).
    Z.to_euclidean_division_equations. lia. }
  unfold map_iter. rewrite Hrn.
  rewrite (bool_decide_eq_true_2 (L ≠ 0)) by lia. simpl.
  destruct (decide (j < k)%nat) as [Hjk|Hjk].
  - rewrite decide_True by lia.
    rewrite (wrap64_small (2 * Z.of_nat j + 1)) by (unfold two64; lia).
    rewrite bool_decide_eq_false_2 by lia. simpl.
    rewrite wrap64_small by (unfold two64; lia).
    rewrite Hinv, Hsk. rewrite !take_ge by (rewrite ?length_app; simpl; lia).
    split_and!; [done|lia|]. rewrite decide_True by lia. lia.
  - assert (Hn1 : wrap64 ((if decide (j ≤ k)%nat then 2 * Z.of_nat j
                           else Z.of_nat k + Z.of_nat j) + 1) =
                  Z.of_nat k + Z.of_nat (j + 1)).
    { case_decide; rewrite wrap64_small; unfold two64; lia. }
    rewrite Hn1. rewrite bool_decide_eq_true_2 by lia. simpl.
    rewrite Hinv, Hsk. rewrite take_app_le by lia.
    split_and!; [done|lia|]. by rewrite decide_False by lia.
Qed.

(** One hundred distinct records, fifty on each of two reactors. *)
Definition demo_records (first n : nat) : list string :=
  (λ i, String (Ascii.ascii_of_nat i) EmptyString) <$> seq first n.

(** C2 (evaluation at the failing input). With [map_limit = 5] and 100
    records, 50 on each of 2 reactors, each mapper calls the user function
    on its first 3 records only: 6 calls in all and 94 records skipped. *)
Theorem map_limit_5_maps_3_per_reactor :
  let r0 := demo_records 0 50 in
  let r1 := demo_records 50 50 in
  invoked (MapFiber 5 r0) = take 3 r0 ∧
  invoked (MapFiber 5 r1) = take 3 r1 ∧
  (length (invoked (MapFiber 5 r0)) + length (invoked (MapFiber 5 r1)) = 6)%nat ∧
  (skipped (MapFiber 5 r0) + skipped (MapFiber 5 r1) = 94)%nat.
Proof. vm_compute. split_and!; reflexivity. Qed.

(** *** The fibers of a run *)

(** [ProcessFiles]. *)
Inductive worker_pc :=
| W_loop_head                         (* testing [!trd_local->stop_early] *)
| W_in_pop                            (* inside [file_name_q_->pop] *)
| W_process_file (rest : list string) (* inside [runner_->ProcessFile] *)
| W_finished.

(** [MapFiber]. *)
Inductive mapper_pc := Mp_running | Mp_finished.

(** [PerIoStruct::Shutdown] followed by [per_io_.reset()], as run by
    [AwaitFiberOnAll]. *)
Inductive shutdown_pc :=
| S_idle | S_join_workers | S_start_closing | S_join_mapper | S_flush | S_done.

#[global] Instance shutdown_pc_eq_dec : EqDecision shutdown_pc.
Proof. solve_decision. Defined.

(** [Executor::Run] on the main thread. *)
Inductive run_pc :=
| R_push (files : list FileInput)   (* the loops that push file names *)
| R_close                           (* before [file_name_q_->close()] *)
| R_dispatch                        (* before [AwaitFiberOnAll] *)
| R_shutdown                        (* waiting for the reactors *)
| R_done.

Record PerIoStruct := mk_per_io {
  index : nat;
  process_fd : worker_pc;
  map_fd : mapper_pc;
  shutdown_fb : shutdown_pc;
  record_q : channel string;
  stop_early : bool;
  processed : list FileInput;   (* the files [ProcessFile] was called on *)
  map_st : map_state;
  flushed : bool
}.

(** The events whose order the shutdown protocol fixes. *)
Inductive event :=
| EvCloseFileQ
| EvJoinWorker (i : nat)
| EvStartClosing (i : nat)
| EvJoinMapper (i : nat)
| EvFlush (i : nat).

#[global] Instance event_eq_dec : EqDecision event.
Proof. solve_decision. Defined.

Record Executor := mk_executor {
  file_name_q_ : option (channel FileInput);
  per_io_ : list PerIoStruct;    (* [per_io_] of reactor 0, 1, ... *)
  run_fb : run_pc;
  trace : list event
}.

Definition set_worker (pc : worker_pc) (p : PerIoStruct) : PerIoStruct :=
  {| index := index p; process_fd := pc; map_fd := map_fd p;
     shutdown_fb := shutdown_fb p; record_q := record_q p;
     stop_early := stop_early p; processed := processed p;
     map_st := map_st p; flushed := flushed p |}.

Definition set_processed (l : list FileInput) (p : PerIoStruct) : PerIoStruct :=
  {| index := index p; process_fd := process_fd p; map_fd := map_fd p;
     shutdown_fb := shutdown_fb p; record_q := record_q p;
     stop_early := stop_early p; processed := l;
     map_st := map_st p; flushed := flushed p |}.

Definition set_record_q (q : channel string) (p : PerIoStruct) : PerIoStruct :=
  {| index := index p; process_fd := process_fd p; map_fd := map_fd p;
     shutdown_fb := shutdown_fb p; record_q := q;
     stop_early := stop_early p; processed := processed p;
     map_st := map_st p; flushed := flushed p |}.

Definition set_mapper (pc : mapper_pc) (st : map_state) (p : PerIoStruct)
    : PerIoStruct :=
  {| index := index p; process_fd := process_fd p; map_fd := pc;
     shutdown_fb := shutdown_fb p; record_q := record_q p;
     stop_early := stop_early p; processed := processed p;
     map_st := st; flushed := flushed p |}.

Definition set_shutdown (pc : shutdown_pc) (p : PerIoStruct) : PerIoStruct :=
  {| index := index p; process_fd := process_fd p; map_fd := map_fd p;
     shutdown_fb := pc; record_q := record_q p;
     stop_early := stop_early p; processed := processed p;
     map_st := map_st p; flushed := flushed p |}.

Definition set_stop_early (p : PerIoStruct) : PerIoStruct :=
  {| index := index p; process_fd := process_fd p; map_fd := map_fd p;
     shutdown_fb := shutdown_fb p; record_q := record_q p;
     stop_early := true; processed := processed p;
     map_st := map_st p; flushed := flushed p |}.

Definition set_flushed (p : PerIoStruct) : PerIoStruct :=
  {| index := index p; process_fd := process_fd p; map_fd := map_fd p;
     shutdown_fb := shutdown_fb p; record_q := record_q p;
     stop_early := stop_early p; processed := processed p;
     map_st := map_st p; flushed := true |}.

Definition set_per_io (i : nat) (p : PerIoStruct) (e : Executor) : Executor :=
  {| file_name_q_ := file_name_q_ e; per_io_ := <[i := p]> (per_io_ e);
     run_fb := run_fb e; trace := trace e |}.

Definition set_file_q (q : option (channel FileInput)) (e : Executor) : Executor :=
  {| file_name_q_ := q; per_io_ := per_io_ e;
     run_fb := run_fb e; trace := trace e |}.

Definition set_run (pc : run_pc) (e : Executor) : Executor :=
  {| file_name_q_ := file_name_q_ e; per_io_ := per_io_ e;
     run_fb := pc; trace := trace e |}.

Definition emit (ev : event) (e : Executor) : Executor :=
  {| file_name_q_ := file_name_q_ e; per_io_ := per_io_ e;
     run_fb := run_fb e; trace := trace e ++ [ev] |}.

(** [PerIoStruct(i)]: a record queue of 256 slots, the fibers not yet
    started on their loops. *)
Definition PerIoStruct_new (i : nat) : PerIoStruct :=
  {| index := i; process_fd := W_loop_head; map_fd := Mp_running;
     shutdown_fb := S_idle; record_q := new_channel 256;
     stop_early := false; processed := []; map_st := map_init;
     flushed := false |}.

(** The state [Run] sets up before it starts to push file names: a file
    queue of 16 slots and one [PerIoStruct] per reactor.  The runs modelled
    start here; in [Run] itself [file_name_q_] is set a little earlier,
    before the first [AwaitOnAll] has created the [PerIoStruct]s, and
    [per_io_] is null on every reactor in between. *)
Definition Run_start (reactors : nat) (files : list FileInput) : Executor :=
  {| file_name_q_ := Some (new_channel 16);
     per_io_ := PerIoStruct_new <$> seq 0 reactors;
     run_fb := R_push files; trace := [] |}.

(** [per_io_] is a thread-local [unique_ptr]: [per_io_.reset()], the
    last act of the shutdown fiber, leaves it null on that reactor.  The
    record stays in the model as the history of the reactor; the pointer is
    null exactly when the reactor's shutdown is [S_done]. *)
Definition per_io_null (p : PerIoStruct) : Prop := shutdown_fb p = S_done.

#[global] Instance per_io_null_dec p : Decision (per_io_null p).
Proof. unfold per_io_null. apply _. Defined.

(** The callback [Stop()] runs on a reactor: [per_io_->stop_early = true].
    Through a null [per_io_] the store is undefined behaviour: the process
    crashes. *)
Definition Stop_callback (p : PerIoStruct) : outcome PerIoStruct :=
  if decide (per_io_null p) then Fatal "null per_io_"
  else Ok (set_stop_early p).

(** [pool_->AwaitOnAll(cb)]: the callback runs on every reactor. *)
Fixpoint AwaitOnAll (cb : PerIoStruct → outcome PerIoStruct)
    (l : list PerIoStruct) : outcome (list PerIoStruct) :=
  match l with
  | [] => Ok []
  | p :: l' => p' ← cb p; l'' ← AwaitOnAll cb l'; Ok (p' :: l'')
  end.

(** [Executor::Stop()]. *)
Definition Stop (e : Executor) : outcome Executor :=
  match file_name_q_ e with
  | Some q =>
      l ← AwaitOnAll Stop_callback (per_io_ e);
      Ok {| file_name_q_ := Some (close q); per_io_ := l;
            run_fb := run_fb e; trace := trace e |}
  | None => Ok e
  end.

Section Steps.

(** [FLAGS_map_limit], and the records [runner_->ProcessFile] decodes from
    a file. *)
Variable map_limit : Z.
Variable decode : FileInput → list string.

(** One step of [ProcessFiles] on reactor [i]; [None] when the fiber is
    suspended or has finished. *)
Definition ProcessFiles_step (i : nat) (e : Executor) : option Executor :=
  p ← per_io_ e !! i;
  match process_fd p with
  | W_loop_head =>
      Some (set_per_io i
              (set_worker (if stop_early p then W_finished else W_in_pop) p) e)
  | W_in_pop =>
      q ← file_name_q_ e;
      match items q with
      | f :: rest =>
          Some (set_per_io i
                  (set_processed (processed p ++ [f])
                     (set_worker (W_process_file (decode f)) p))
                  (set_file_q (Some (set_items rest q)) e))
      | [] => if is_closed q
              then Some (set_per_io i (set_worker W_finished p) e)
              else None
      end
  | W_process_file [] => Some (set_per_io i (set_worker W_loop_head p) e)
  | W_process_file (r :: rest) =>
      let q := record_q p in
      if is_closed q then
        Some (set_per_io i (set_worker (W_process_file rest) p) e)
      else if decide (length (items q) < capacity q)%nat then
        Some (set_per_io i
                (set_record_q (set_items (items q ++ [r]) q)
                   (set_worker (W_process_file rest) p)) e)
      else None
  | W_finished => None
  end.

(** One step of [MapFiber] on reactor [i]: pop a record and run the loop
    body, or leave the loop when the queue is closed and drained. *)
Definition MapFiber_step (i : nat) (e : Executor) : option Executor :=
  p ← per_io_ e !! i;
  match map_fd p with
  | Mp_running =>
      let q := record_q p in
      match items q with
      | r :: rest =>
          Some (set_per_io i
                  (set_record_q (set_items rest q)
                     (set_mapper Mp_running (map_iter map_limit (map_st p) r) p))
                  e)
      | [] => if is_closed q
              then Some (set_per_io i (set_mapper Mp_finished (map_st p) p) e)
              else None
      end
  | Mp_finished => None
  end.

(** One step of [per_io_->Shutdown(); per_io_.reset();] on reactor [i];
    a [join] waits for the joined fiber to finish.  [Run] starts [map_fd]
    on every reactor, so the test [map_fd.joinable()] holds. *)
Definition Shutdown_step (i : nat) (e : Executor) : option Executor :=
  p ← per_io_ e !! i;
  match shutdown_fb p with
  | S_idle => None
  | S_join_workers =>
      match process_fd p with
      | W_finished =>
          Some (emit (EvJoinWorker i)
                  (set_per_io i (set_shutdown S_start_closing p) e))
      | _ => None
      end
  | S_start_closing =>
      Some (emit (EvStartClosing i)
              (set_per_io i
                 (set_shutdown S_join_mapper
                    (set_record_q (close (record_q p)) p)) e))
  | S_join_mapper =>
      match map_fd p with
      | Mp_finished =>
          Some (emit (EvJoinMapper i)
                  (set_per_io i (set_shutdown S_flush p) e))
      | Mp_running => None
      end
  | S_flush =>
      Some (emit (EvFlush i)
              (set_per_io i (set_shutdown S_done (set_flushed p)) e))
  | S_done => None
  end.

(** One step of [Run] on the main thread. *)
Definition Run_step (e : Executor) : option Executor :=
  match run_fb e with
  | R_push [] => Some (set_run R_close e)
  | R_push (f :: files) =>
      q ← file_name_q_ e;
      if is_closed q then Some (set_run R_close e)     (* the rest is dropped *)
      else if decide (length (items q) < capacity q)%nat then
        Some (set_run (R_push files)
                (set_file_q (Some (set_items (items q ++ [f]) q)) e))
      else None
  | R_close =>
      q ← file_name_q_ e;
      Some (emit EvCloseFileQ
              (set_run R_dispatch (set_file_q (Some (close q)) e)))
  | R_dispatch =>
      Some {| file_name_q_ := file_name_q_ e;
              per_io_ := set_shutdown S_join_workers <$> per_io_ e;
              run_fb := R_shutdown; trace := trace e |}
  | R_shutdown =>
      if bool_decide (Forall (λ p, shutdown_fb p = S_done) (per_io_ e))
      then Some (set_run R_done (set_file_q None e))
      else None
  | R_done => None
  end.

(** [Stop()] seen from the reactors: the queue is closed, then each
    reactor runs the callback that sets its flag.  Where the callback
    crashes the process is gone and no state follows. *)
Definition stop_close_step (e : Executor) : option Executor :=
  q ← file_name_q_ e; Some (set_file_q (Some (close q)) e).

Definition stop_flag_step (i : nat) (e : Executor) : option Executor :=
  _ ← file_name_q_ e;
  p ← per_io_ e !! i;
  match Stop_callback p with
  | Ok p' => Some (set_per_io i p' e)
  | Fatal _ => None
  end.

Inductive label :=
| L_worker (i : nat) | L_mapper (i : nat) | L_shutdown (i : nat)
| L_run | L_stop_close | L_stop_flag (i : nat).

Definition exec (l : label) (e : Executor) : option Executor :=
  match l with
  | L_worker i => ProcessFiles_step i e
  | L_mapper i => MapFiber_step i e
  | L_shutdown i => Shutdown_step i e
  | L_run => Run_step e
  | L_stop_close => stop_close_step e
  | L_stop_flag i => stop_flag_step i e
  end.

Definition step (e e' : Executor) : Prop := ∃ l, exec l e = Some e'.

Fixpoint exec_all (ls : list label) (e : Executor) : option Executor :=
  match ls with
  | [] => Some e
  | l :: ls' => e' ← exec l e; exec_all ls' e'
  end.

(** **** Facts about [ProcessFiles] and [Stop] *)












Lemma AwaitOnAll_null l :
  Exists per_io_null l → AwaitOnAll Stop_callback l = Fatal "null per_io_".
Proof.
  induction l as [|p l IH]; intros Hex; [by apply Exists_nil in Hex|].
  simpl. destruct (decide (per_io_null p)) as [Hn|Hn].
  - assert (Stop_callback p = Fatal "null per_io_") as ->; [|done].
    unfold Stop_callback. by destruct (decide (per_io_null p)).
  - assert (Stop_callback p = Ok (set_stop_early p)) as ->.
    { unfold Stop_callback. by destruct (decide (per_io_null p)). }
    simpl. apply Exists_cons in Hex as [Hex|Hex]; [done|]. by rewrite IH.
Qed.

(** Where a reactor has reset its [per_io_] while the file-name queue is
    still set, [Stop()] crashes. *)
Lemma Stop_null e :
  is_Some (file_name_q_ e) → Exists per_io_null (per_io_ e) →
  Stop e = Fatal "null per_io_".
Proof.
  intros [q Hq] Hex. unfold Stop. rewrite Hq.
  by rewrite AwaitOnAll_null.
Qed.



(** **** The order of shutdown *)

Definition reactor_of (ev : event) : option nat :=
  match ev with
  | EvCloseFileQ => None
  | EvJoinWorker i | EvStartClosing i | EvJoinMapper i | EvFlush i => Some i
  end.

(** The events of reactor [i] in a trace, in the order they happened. *)
Definition events_of (i : nat) (t : list event) : list event :=
  filter (λ ev, reactor_of ev = Some i) t.

(** What [Shutdown] does on reactor [i], in program order. *)
Definition shutdown_events (i : nat) : list event :=
  [EvJoinWorker i; EvStartClosing i; EvJoinMapper i; EvFlush i].

(** How many of them are behind a given program point. *)
Definition events_done (pc : shutdown_pc) : nat :=
  match pc with
  | S_idle | S_join_workers => 0
  | S_start_closing => 1
  | S_join_mapper => 2
  | S_flush => 3
  | S_done => 4
  end.

Definition fq_closed (e : Executor) : Prop :=
  ∀ q, file_name_q_ e = Some q → is_closed q = true.

Definition reactor_inv (t : list event) (i : nat) (p : PerIoStruct) : Prop :=
  events_of i t = take (events_done (shutdown_fb p)) (shutdown_events i) ∧
  (1 ≤ events_done (shutdown_fb p) → process_fd p = W_finished)%nat ∧
  (2 ≤ events_done (shutdown_fb p) → is_closed (record_q p) = true)%nat ∧
  (3 ≤ events_done (shutdown_fb p) → map_fd p = Mp_finished)%nat ∧
  (flushed p = true ↔ shutdown_fb p = S_done).

Definition closed_first (t : list event) : Prop :=
  ∃ t', t = EvCloseFileQ :: t' ∧ Forall (λ ev, reactor_of ev ≠ None) t'.

Definition global_inv (e : Executor) : Prop :=
  match run_fb e with
  | R_push _ | R_close =>
      trace e = [] ∧ Forall (λ p, shutdown_fb p = S_idle) (per_io_ e)
  | R_dispatch =>
      trace e = [EvCloseFileQ] ∧ fq_closed e ∧
      Forall (λ p, shutdown_fb p = S_idle) (per_io_ e)
  | R_shutdown =>
      closed_first (trace e) ∧ fq_closed e ∧
      Forall (λ p, shutdown_fb p ≠ S_idle) (per_io_ e)
  | R_done =>
      closed_first (trace e) ∧ fq_closed e ∧
      Forall (λ p, shutdown_fb p = S_done) (per_io_ e)
  end.

Definition run_inv (e : Executor) : Prop :=
  global_inv e ∧ ∀ i p, per_io_ e !! i = Some p → reactor_inv (trace e) i p.

(** A change of a [PerIoStruct] that does not concern its shutdown. *)
Definition inert (p q : PerIoStruct) : Prop :=
  shutdown_fb q = shutdown_fb p ∧ flushed q = flushed p ∧
  (process_fd p = W_finished → process_fd q = W_finished) ∧
  (is_closed (record_q p) = true → is_closed (record_q q) = true) ∧
  (map_fd p = Mp_finished → map_fd q = Mp_finished).

Definition inert_lists (l l1 : list PerIoStruct) : Prop :=
  ∀ i p1, l1 !! i = Some p1 → ∃ p, l !! i = Some p ∧ inert p p1.

Lemma inert_refl p : inert p p.
Proof. by split_and!. Qed.

Lemma inert_lists_refl l : inert_lists l l.
Proof. intros i p H. exists p. split; [done|apply inert_refl]. Qed.

Lemma inert_lists_insert l j p q :
  l !! j = Some p → inert p q → inert_lists l (<[j:=q]> l).
Proof.
  intros Hj Hpq i p1 H. apply list_lookup_insert_Some in H as [(-> & <- & _)|[Hne H]].
  - by exists p.
  - exists p1. split; [done|apply inert_refl].
Qed.

Lemma inert_lists_Forall (P : shutdown_pc → Prop) l l1 :
  inert_lists l l1 →
  Forall (λ p, P (shutdown_fb p)) l → Forall (λ p, P (shutdown_fb p)) l1.
Proof.
  intros Hi Hl. apply Forall_lookup. intros i p1 H1.
  destruct (Hi i p1 H1) as (p & Hp & Heq & _). rewrite Heq.
  rewrite Forall_lookup in Hl. by apply (Hl i p).
Qed.

Lemma reactor_inv_inert t i p q :
  inert p q → reactor_inv t i p → reactor_inv t i q.
Proof.
  intros (Hs & Hf & Hw & Hc & Hm) (I1 & I2 & I3 & I4 & I5).
  unfold reactor_inv. rewrite Hs, Hf. split_and!; auto.
Qed.

(** Steps that leave the trace and the main thread alone. *)
Lemma run_inv_inert e e1 :
  inert_lists (per_io_ e) (per_io_ e1) →
  trace e1 = trace e → run_fb e1 = run_fb e →
  (fq_closed e → fq_closed e1) →
  run_inv e → run_inv e1.
Proof.
  intros Hl Ht Hr Hq [Hg Hp]. split.
  - unfold global_inv in *. rewrite Hr, Ht.
    destruct (run_fb e) as [files| | | |].
    + destruct Hg. split; [done|].
      by apply (inert_lists_Forall (λ pc, pc = S_idle) (per_io_ e)).
    + destruct Hg. split; [done|].
      by apply (inert_lists_Forall (λ pc, pc = S_idle) (per_io_ e)).
    + destruct Hg as (? & ? & ?). split_and!; [done|auto|].
      by apply (inert_lists_Forall (λ pc, pc = S_idle) (per_io_ e)).
    + destruct Hg as (? & ? & ?). split_and!; [done|auto|].
      by apply (inert_lists_Forall (λ pc, pc ≠ S_idle) (per_io_ e)).
    + destruct Hg as (? & ? & ?). split_and!; [done|auto|].
      by apply (inert_lists_Forall (λ pc, pc = S_done) (per_io_ e)).
  - intros i p1 H1. destruct (Hl i p1 H1) as (p & Hpi & Hin).
    rewrite Ht. eapply reactor_inv_inert; [done|]. by apply Hp.
Qed.

Lemma ProcessFiles_step_inert i e e1 :
  ProcessFiles_step i e = Some e1 →
  inert_lists (per_io_ e) (per_io_ e1) ∧ trace e1 = trace e ∧
  run_fb e1 = run_fb e ∧ (fq_closed e → fq_closed e1).
Proof.
  unfold ProcessFiles_step. intros Hl.
  destruct (per_io_ e !! i) as [p|] eqn:Hp; [simpl in Hl|done].
  destruct (process_fd p) as [| |[|r rest]|] eqn:Hpc.
  - injection Hl as <-. split_and!; try done.
    apply (inert_lists_insert _ _ p); [done|]. split_and!; try done. congruence.
  - destruct (file_name_q_ e) as [q|] eqn:Hq; [simpl in Hl|done].
    destruct (items q) as [|f rest].
    + destruct (is_closed q); [|done]. injection Hl as <-. split_and!; try done.
      apply (inert_lists_insert _ _ p); [done|]. by split_and!.
    + injection Hl as <-. split_and!; try done.
      * apply (inert_lists_insert _ _ p); [done|]. split_and!; try done. congruence.
      * intros Hc q1 [= <-]. simpl. by apply Hc.
  - injection Hl as <-. split_and!; try done.
    apply (inert_lists_insert _ _ p); [done|]. split_and!; try done. congruence.
  - destruct (is_closed (record_q p)) eqn:Hc.
    + injection Hl as <-. split_and!; try done.
      apply (inert_lists_insert _ _ p); [done|]. split_and!; try done. congruence.
    + case_decide; [|done]. injection Hl as <-. split_and!; try done.
      apply (inert_lists_insert _ _ p); [done|]. split_and!; try done; congruence.
  - done.
Qed.

Lemma MapFiber_step_inert i e e1 :
  MapFiber_step i e = Some e1 →
  inert_lists (per_io_ e) (per_io_ e1) ∧ trace e1 = trace e ∧
  run_fb e1 = run_fb e ∧ (fq_closed e → fq_closed e1).
Proof.
  unfold MapFiber_step. intros Hl.
  destruct (per_io_ e !! i) as [p|] eqn:Hp; [simpl in Hl|done].
  destruct (map_fd p) eqn:Hm; [|done].
  destruct (items (record_q p)) as [|r rest].
  - destruct (is_closed (record_q p)); [|done]. injection Hl as <-.
    split_and!; try done.
    apply (inert_lists_insert _ _ p); [done|]. by split_and!.
  - injection Hl as <-. split_and!; try done.
    apply (inert_lists_insert _ _ p); [done|]. split_and!; try done. congruence.
Qed.

Lemma events_of_snoc i t ev :
  events_of i (t ++ [ev]) =
  events_of i t ++ (if decide (reactor_of ev = Some i) then [ev] else []).
Proof.
  unfold events_of. rewrite filter_app. f_equal.
Qed.

Lemma closed_first_snoc t ev :
  reactor_of ev ≠ None → closed_first t → closed_first (t ++ [ev]).
Proof.
  intros Hev (t' & -> & Hall). exists (t' ++ [ev]). split; [done|].
  apply Forall_app. split; [done|]. by apply Forall_singleton.
Qed.

(** A shutdown step on reactor [j]: the event it emits, and the program
    points before and after. *)
Lemma Shutdown_step_inv j e e1 :
  Shutdown_step j e = Some e1 → run_inv e → run_inv e1.
Proof.
  unfold Shutdown_step. intros Hl [Hg Hp].
  destruct (per_io_ e !! j) as [p|] eqn:Hj; [simpl in Hl|done].
  pose proof (Hp j p Hj) as (I1 & I2 & I3 & I4 & I5).
  assert (Hrun : run_fb e = R_shutdown).
  { unfold global_inv in Hg. destruct (run_fb e) as [files| | | |]; [| | |done|].
    - destruct Hg as [_ Hall]. pose proof (proj1 (Forall_lookup _ _) Hall _ _ Hj) as Hs.
      simpl in Hs. rewrite Hs in Hl. done.
    - destruct Hg as [_ Hall]. pose proof (proj1 (Forall_lookup _ _) Hall _ _ Hj) as Hs.
      simpl in Hs. rewrite Hs in Hl. done.
    - destruct Hg as (_ & _ & Hall).
      pose proof (proj1 (Forall_lookup _ _) Hall _ _ Hj) as Hs.
      simpl in Hs. rewrite Hs in Hl. done.
    - destruct Hg as (_ & _ & Hall).
      pose proof (proj1 (Forall_lookup _ _) Hall _ _ Hj) as Hs.
      simpl in Hs. rewrite Hs in Hl. done. }
  assert (∃ q ev, e1 = emit ev (set_per_io j q e) ∧ reactor_of ev = Some j ∧
            shutdown_fb q ≠ S_idle ∧
            reactor_inv (trace e ++ [ev]) j q) as (q & ev & -> & Hev & Hni & Hq).
  { destruct (shutdown_fb p) eqn:Hs; try done.
    - destruct (process_fd p) eqn:Hw; try done. injection Hl as <-.
      eexists _, _. split_and!; try done.
      unfold reactor_inv. rewrite events_of_snoc, I1. simpl.
      rewrite decide_True by done. split_and!; try done; try lia.
      rewrite I5. done.
    - injection Hl as <-. eexists _, _. split_and!; try done.
      unfold reactor_inv. rewrite events_of_snoc, I1. simpl.
      rewrite decide_True by done. simpl in *.
      split_and!; try done; try lia; auto with lia. rewrite I5. done.
    - destruct (map_fd p) eqn:Hm; [done|]. injection Hl as <-.
      eexists _, _. split_and!; try done.
      unfold reactor_inv. rewrite events_of_snoc, I1. simpl.
      rewrite decide_True by done. simpl in *.
      split_and!; try done; try lia; auto with lia. rewrite I5. done.
    - injection Hl as <-. eexists _, _. split_and!; try done.
      unfold reactor_inv. rewrite events_of_snoc, I1. simpl.
      rewrite decide_True by done. simpl in *.
      split_and!; try done; try lia; auto with lia. }
  split.
  - unfold global_inv in *. simpl. rewrite Hrun in *.
    destruct Hg as (Hc & Hf & Hall). split_and!.
    + apply closed_first_snoc; [congruence|done].
    + done.
    + by apply Forall_insert.
  - intros i p1 H1. simpl in H1 |- *.
    apply list_lookup_insert_Some in H1 as [(-> & <- & _)|[Hne H1]]; [done|].
    destruct (Hp i p1 H1) as (J1 & J2).
    split; [|done]. rewrite events_of_snoc, decide_False, app_nil_r; [done|].
    congruence.
Qed.

Lemma Run_step_inv e e1 : Run_step e = Some e1 → run_inv e → run_inv e1.
Proof.
  unfold Run_step. intros Hl [Hg Hp]. unfold global_inv in Hg.
  destruct (run_fb e) as [[|f files]| | | |] eqn:Hrun.
  - injection Hl as <-. split; [|done]. unfold global_inv. simpl. done.
  - destruct (file_name_q_ e) as [q|] eqn:Hq; [simpl in Hl|done].
    destruct (is_closed q).
    + injection Hl as <-. split; [|done]. unfold global_inv. simpl. done.
    + case_decide; [|done]. injection Hl as <-. split; [|done].
      unfold global_inv. simpl. done.
  - destruct (file_name_q_ e) as [q|] eqn:Hq; [simpl in Hl|done].
    injection Hl as <-. destruct Hg as [Ht Hall]. split.
    + unfold global_inv. simpl. rewrite Ht. split_and!; [done| |done].
      by intros q1 [= <-].
    + intros i p Hi. simpl in Hi |- *.
      destruct (Hp i p Hi) as (J1 & J2).
      split; [|done]. rewrite events_of_snoc, decide_False, app_nil_r; done.
  - injection Hl as <-. destruct Hg as (Ht & Hf & Hall). split.
    + unfold global_inv. simpl. rewrite Ht. split_and!.
      * exists []. by split.
      * done.
      * apply Forall_fmap, Forall_forall. done.
    + intros i p1 H1. simpl in H1 |- *. rewrite list_lookup_fmap in H1.
      destruct (per_io_ e !! i) as [p|] eqn:Hi; [|done]. injection H1 as <-.
      pose proof (proj1 (Forall_lookup _ _) Hall _ _ Hi) as Hs. simpl in Hs.
      destruct (Hp i p Hi) as (J1 & J2 & J3 & J4 & J5).
      unfold reactor_inv. simpl. rewrite Hs in *. simpl in *.
      split_and!; try done; try lia. rewrite J5. done.
  - case_bool_decide as Hall; [|done]. injection Hl as <-.
    destruct Hg as (Hc & Hf & _). split; [|done].
    unfold global_inv. simpl. split_and!; [done|by intros q|done].
  - done.
Qed.

Lemma step_run_inv e e1 : step e e1 → run_inv e → run_inv e1.
Proof.
  intros [l Hl] Hinv. destruct l as [j|j|j| | |j]; simpl in Hl.
  - destruct (ProcessFiles_step_inert j e e1 Hl) as (? & ? & ? & ?).
    by apply (run_inv_inert e).
  - destruct (MapFiber_step_inert j e e1 Hl) as (? & ? & ? & ?).
    by apply (run_inv_inert e).
  - by apply (Shutdown_step_inv j e).
  - by apply (Run_step_inv e).
  - unfold stop_close_step in Hl.
    destruct (file_name_q_ e) as [q|]; [simpl in Hl|done]. injection Hl as <-.
    apply (run_inv_inert e); try done; [apply inert_lists_refl|].
    by intros _ q1 [= <-].
  - unfold stop_flag_step, Stop_callback in Hl.
    destruct (file_name_q_ e) as [q|]; [simpl in Hl|done].
    destruct (per_io_ e !! j) as [p|] eqn:Hj; [simpl in Hl|done].
    destruct (decide (per_io_null p)); [done|].
    injection Hl as <-. apply (run_inv_inert e); try done.
    apply (inert_lists_insert _ _ p); [done|]. by split_and!.
Qed.

Lemma Run_start_inv reactors files : run_inv (Run_start reactors files).
Proof.
  split.
  - unfold global_inv. simpl. split; [done|].
    apply Forall_fmap, Forall_forall. done.
  - intros i p H. simpl in H. rewrite list_lookup_fmap in H.
    destruct (seq 0 reactors !! i); [|done]. injection H as <-.
    unfold reactor_inv. simpl. split_and!; try done; lia.
Qed.

Lemma rtc_run_inv e e' : rtc step e e' → run_inv e → run_inv e'.
Proof. induction 1; eauto using step_run_inv. Qed.

(** The order of the shutdown events, in every run and at every moment,
    [Stop] or not: nothing of the shutdown happens
    before the main thread has closed the file-name queue; on each reactor
    the shutdown events so far are an initial part of "workers joined,
    [StartClosing] on the record queue, mapper joined, context flushed",
    in this order; the workers had finished when they were joined, the
    record queue is closed from [StartClosing] on, the mapper had finished
    when it was joined, and the context is flushed exactly at the end;
    [Run] returns only after every reactor went through all of it. *)
Lemma shutdown_order (reactors : nat) (files : list FileInput) (e : Executor) :
  rtc step (Run_start reactors files) e →
  (trace e = [] ∨ closed_first (trace e)) ∧
  (closed_first (trace e) → fq_closed e) ∧
  (∀ i p, per_io_ e !! i = Some p →
     events_of i (trace e) =
       take (events_done (shutdown_fb p)) (shutdown_events i) ∧
     (EvJoinWorker i ∈ trace e → process_fd p = W_finished) ∧
     (EvStartClosing i ∈ trace e → is_closed (record_q p) = true) ∧
     (EvJoinMapper i ∈ trace e → map_fd p = Mp_finished) ∧
     (EvFlush i ∈ trace e ↔ flushed p = true) ∧
     (run_fb e = R_done → events_of i (trace e) = shutdown_events i)).
Proof.
  intros Hr.
  destruct (rtc_run_inv _ _ Hr (Run_start_inv reactors files)) as [Hg Hp].
  split_and!.
  - unfold global_inv in Hg.
    destruct (run_fb e); [left|left|right|right|right]; try (by destruct Hg).
    destruct Hg as (-> & _). exists []. by split.
  - unfold global_inv in Hg. intros (t' & Ht & _).
    destruct (run_fb e); try (by destruct Hg as (_ & ? & _));
      destruct Hg as [Hnil _]; by rewrite Hnil in Ht.
  - intros i p Hi. destruct (Hp i p Hi) as (I1 & I2 & I3 & I4 & I5).
    assert (Hin : ∀ ev, reactor_of ev = Some i →
              ev ∈ trace e ↔
              ev ∈ take (events_done (shutdown_fb p)) (shutdown_events i)).
    { intros ev Hev. rewrite <- I1. unfold events_of.
      rewrite list_elem_of_filter. tauto. }
    split_and!.
    + done.
    + rewrite Hin by done. intros H. apply I2. clear -H.
      destruct (shutdown_fb p); simpl in *; try lia; by apply elem_of_nil in H.
    + rewrite Hin by done. intros H. apply I3. clear -H.
      destruct (shutdown_fb p); simpl in *; try lia;
        rewrite ?elem_of_cons, ?elem_of_nil in H; intuition discriminate.
    + rewrite Hin by done. intros H. apply I4. clear -H.
      destruct (shutdown_fb p); simpl in *; try lia;
        rewrite ?elem_of_cons, ?elem_of_nil in H; intuition discriminate.
    + rewrite Hin by done. rewrite I5. clear.
      destruct (shutdown_fb p); simpl;
        rewrite ?elem_of_cons, ?elem_of_nil; intuition discriminate.
    + intros Hd. unfold global_inv in Hg. rewrite Hd in Hg.
      destruct Hg as (_ & _ & Hall).
      pose proof (proj1 (Forall_lookup _ _) Hall _ _ Hi) as Hs. simpl in Hs.
      rewrite I1, Hs. done.
Qed.

Lemma exec_all_rtc ls e e' : exec_all ls e = Some e' → rtc step e e'.
Proof.
  revert e. induction ls as [|l ls IH]; simpl; intros e H.
  - injection H as <-. apply rtc_refl.
  - destruct (exec l e) as [e1|] eqn:E; [simpl in H|done].
    eapply rtc_l; [by exists l|by apply IH].
Qed.

End Steps.

(** *** A complete run: two reactors, two files of two records each *)

Definition demo_decode (f : FileInput) : list string := [f.1; f.1].

Definition demo_files : list FileInput := [("a", 0%nat); ("b", 0%nat)].

Definition demo_schedule : list label :=
  [L_run; L_run; L_run;
   L_worker 0; L_worker 0; L_worker 0; L_worker 0; L_worker 0;
   L_worker 1; L_worker 1; L_worker 1; L_worker 1; L_worker 1;
   L_mapper 0; L_mapper 0; L_mapper 1;
   L_run; L_run;
   L_worker 0; L_worker 0; L_worker 1; L_worker 1;
   L_shutdown 0; L_shutdown 1; L_shutdown 0; L_mapper 0;
   L_shutdown 0; L_shutdown 0;
   L_shutdown 1; L_mapper 1; L_mapper 1; L_shutdown 1; L_shutdown 1;
   L_run].

Definition demo_final : Executor :=
  Eval vm_compute in
    default (Run_start 0 [])
      (exec_all 0 demo_decode demo_schedule (Run_start 2 demo_files)).

Example demo_final_state :
  run_fb demo_final = R_done ∧
  trace demo_final =
    [EvCloseFileQ; EvJoinWorker 0; EvJoinWorker 1;
     EvStartClosing 0; EvJoinMapper 0; EvFlush 0;
     EvStartClosing 1; EvJoinMapper 1; EvFlush 1] ∧
  (λ p, (processed p, invoked (map_st p))) <$> per_io_ demo_final =
    [([("a", 0%nat)], ["a"; "a"]); ([("b", 0%nat)], ["b"; "b"])].
Proof. split_and!; reflexivity. Qed.

Lemma demo_final_reachable :
  rtc (step 0 demo_decode) (Run_start 2 demo_files) demo_final.
Proof. apply (exec_all_rtc 0 demo_decode demo_schedule). reflexivity. Qed.


(** *** [Stop()] while the run winds down

    Reactor 1 has processed its file and, the file-name queue closed and
    empty, has gone through its whole shutdown including [per_io_.reset()];
    reactor 0 is still pushing the records of its file, so [Run] waits and
    [file_name_q_] is still set. *)

Definition stop_late_schedule : list label :=
  [L_run; L_run; L_run;
   L_worker 0; L_worker 0;
   L_worker 1; L_worker 1; L_worker 1; L_worker 1; L_worker 1; L_worker 1;
   L_run; L_run;
   L_worker 1;
   L_shutdown 1; L_shutdown 1; L_mapper 1; L_mapper 1; L_mapper 1;
   L_shutdown 1; L_shutdown 1].

Definition stop_late_state : Executor :=
  Eval vm_compute in
    default (Run_start 0 [])
      (exec_all 0 demo_decode stop_late_schedule (Run_start 2 demo_files)).

(** C8 (evaluation at the failing input). In a run of two files on two
    reactors, with no [Stop] so far, the state is reached in which reactor
    0 is still inside [ProcessFile] and reactor 1 has finished its shutdown
    and reset its [per_io_], while [file_name_q_] is set.  [Stop()] called
    now passes its test [if (file_name_q_)] and runs its callback on
    reactor 1 through the null [per_io_]: the process crashes; no flag
    stops the worker of reactor 0. *)
Theorem Stop_after_reset_crashes :
  rtc (step 0 demo_decode) (Run_start 2 demo_files) stop_late_state ∧
  run_fb stop_late_state = R_shutdown ∧
  is_Some (file_name_q_ stop_late_state) ∧
  process_fd <$> per_io_ stop_late_state =
    [W_process_file ["a"; "a"]; W_finished] ∧
  shutdown_fb <$> per_io_ stop_late_state = [S_join_workers; S_done] ∧
  stop_early <$> per_io_ stop_late_state = [false; false] ∧
  Stop stop_late_state = Fatal "null per_io_".
Proof.
  split.
  - apply (exec_all_rtc 0 demo_decode stop_late_schedule). reflexivity.
  - split_and!; try reflexivity. by eexists.
Qed.

End Pipeline.

(** ** Exported counters ([VarzMapCount], util/stats/varz_stats.cc) *)

Module Varz.

(** [long] is 64 bits wide; [fetch_add] wraps in two's complement. *)
Definition wrap_long (z : Z) : Z := (z + 2 ^ 63) mod 2 ^ 64 - 2 ^ 63.

(** The values [GetData] builds here are all made by [VarzValue::FromInt]. *)
Inductive VarzValue :=
| FromInt (n : Z).

(** [ReadLockAndFindOrInsert]: the entry of [key], created with 0 when
    missing. *)
Definition FindOrInsert (key : string) (m : gmap string Z) : gmap string Z :=
  match m !! key with
  | Some _ => m
  | None => <[key := 0]> m
  end.

(** [IncBy(key, delta)]: an empty key and a zero delta change nothing. *)
Definition IncBy (key : string) (delta : Z) (m : gmap string Z) : gmap string Z :=
  if decide (key = EmptyString) then m
  else if decide (delta = 0) then m
  else alter (λ v, wrap_long (v + delta)) key (FindOrInsert key m).

(** [Set(key, value)]. *)
Definition Set_ (key : string) (value : Z) (m : gmap string Z) : gmap string Z :=
  if decide (key = EmptyString) then m
  else alter (λ _, value) key (FindOrInsert key m).

(** The comparison [GetData] sorts with:
    [[](const vt& l, const vt& r) { return l.first < r.first; }]. *)
Definition key_less (l r : string * VarzValue) : bool :=
  String.ltb l.1 r.1.

(** [std::sort(first, last, comp)]: here by insertion. *)
Fixpoint sort_insert {A} (comp : A → A → bool) (x : A) (l : list A) : list A :=
  match l with
  | [] => [x]
  | y :: l' => if comp y x then y :: sort_insert comp x l' else x :: l
  end.

Definition std_sort {A} (comp : A → A → bool) (l : list A) : list A :=
  foldr (sort_insert comp) [] l.

(** [std::string::operator<] is a strict total order. *)
Lemma ltb_lt (a b : string) : String.ltb a b = true ↔ String_as_OT.lt a b.
Proof.
  unfold String.ltb. rewrite <- String_as_OT.cmp_lt. unfold String_as_OT.cmp.
  destruct (String.compare a b); split; congruence.
Qed.

Lemma ltb_asym (a b : string) : String.ltb a b = true → String.ltb b a = false.
Proof.
  unfold String.ltb. rewrite (String.compare_antisym b a).
  by destruct (String.compare a b).
Qed.

Lemma ltb_trichotomy (a b : string) :
  a ≠ b → String.ltb a b = true ∨ String.ltb b a = true.
Proof.
  intros Hne. unfold String.ltb. rewrite (String.compare_antisym b a).
  destruct (String.compare a b) eqn:E; simpl; auto.
  by apply String.compare_eq_iff in E.
Qed.

Lemma ltb_trans (a b c : string) :
  String.ltb a b = true → String.ltb b c = true → String.ltb a c = true.
Proof. rewrite !ltb_lt. apply String_as_OT.lt_trans. Qed.

(** If [b] is not below [a] and [c] is not below [b], [c] is not below [a]. *)
Lemma ltb_neg_trans (a b c : string) :
  String.ltb b a = false → String.ltb c b = false → String.ltb c a = false.
Proof.
  intros Hba Hcb. destruct (String.ltb c a) eqn:Hca; [|done].
  destruct (decide (a = b)) as [->|Hab]; [congruence|].
  destruct (ltb_trichotomy a b Hab) as [Hlt|Hlt]; [|congruence].
  pose proof (ltb_trans c a b Hca Hlt). congruence.
Qed.

Section Sorting.

Context {A : Type} (comp : A → A → bool).

Lemma sort_insert_perm x l : sort_insert comp x l ≡ₚ x :: l.
Proof.
  induction l as [|y l IH]; simpl; [done|].
  destruct (comp y x); [|done]. rewrite IH. apply Permutation_swap.
Qed.

Lemma std_sort_perm l : std_sort comp l ≡ₚ l.
Proof.
  induction l as [|x l IH]; simpl; [done|].
  rewrite sort_insert_perm. by rewrite IH.
Qed.

(** What [std::sort] asks of [comp]: a strict weak ordering. *)
Hypothesis comp_asym : ∀ a b, comp a b = true → comp b a = false.
Hypothesis comp_neg_trans :
  ∀ a b c, comp b a = false → comp c b = false → comp c a = false.

(** [a] may stand before [b]. *)
Definition not_after (a b : A) : Prop := comp b a = false.

Lemma sort_insert_sorted x l :
  StronglySorted not_after l → StronglySorted not_after (sort_insert comp x l).
Proof.
  induction 1 as [|y l Hl IH Hy]; simpl.
  - repeat constructor.
  - destruct (comp y x) eqn:E.
    + constructor; [done|].
      rewrite sort_insert_perm. constructor; [|done].
      by apply comp_asym.
    + constructor; [by constructor|]. constructor; [done|].
      eapply Forall_impl; [exact Hy|]. intros z Hz. unfold not_after in *.
      by eapply comp_neg_trans.
Qed.

Lemma std_sort_sorted l : StronglySorted not_after (std_sort comp l).
Proof.
  induction l as [|x l IH]; simpl; [constructor|].
  by apply sort_insert_sorted.
Qed.

End Sorting.

(** Entries come out in strictly ascending key order. *)
Definition ascending (l r : string * VarzValue) : Prop :=
  String.ltb l.1 r.1 = true.

Lemma sorted_distinct_ascending (l : list (string * VarzValue)) :
  StronglySorted (not_after key_less) l → NoDup l.*1 →
  StronglySorted ascending l.
Proof.
  induction 1 as [|x l Hl IH Hx]; simpl; intros Hnd; [constructor|].
  apply NoDup_cons in Hnd as [Hx' Hnd]. constructor; [by apply IH|].
  apply Forall_forall. intros y Hy.
  rewrite Forall_forall in Hx. specialize (Hx y Hy).
  unfold not_after, key_less, ascending in *.
  destruct (ltb_trichotomy x.1 y.1) as [?|?]; [|done|congruence].
  intros Heq. apply Hx'. rewrite Heq. apply list_elem_of_fmap. by exists y.
Qed.

Lemma ascending_unique (l1 l2 : list (string * VarzValue)) :
  StronglySorted ascending l1 → StronglySorted ascending l2 →
  l1 ≡ₚ l2 → l1 = l2.
Proof.
  apply StronglySorted_unique_strong. unfold ascending.
  intros x1 x2 _ _ H12 H21. apply ltb_asym in H12. congruence.
Qed.

Section GetData.

(** The order in which [for (const auto& k_v : map_counts_)] visits the
    entries belongs to the container; any order is allowed. *)
Variable iterate : gmap string Z → list (string * Z).
Hypothesis iterate_entries : ∀ m, iterate m ≡ₚ map_to_list m.

(** [GetData()]. *)
Definition GetData (m : gmap string Z) : list (string * VarzValue) :=
  std_sort key_less ((λ k_v, (k_v.1, FromInt k_v.2)) <$> iterate m).

Lemma GetData_perm (m : gmap string Z) :
  GetData m ≡ₚ (λ k_v, (k_v.1, FromInt k_v.2)) <$> map_to_list m.
Proof. unfold GetData. rewrite std_sort_perm. by rewrite iterate_entries. Qed.

Lemma GetData_keys (m : gmap string Z) : (GetData m).*1 ≡ₚ (map_to_list m).*1.
Proof.
  rewrite GetData_perm. rewrite <- list_fmap_compose.
  induction (map_to_list m) as [|[k v] l IH]; [done|]. simpl. by rewrite IH.
Qed.

Lemma GetData_ascending (m : gmap string Z) :
  StronglySorted ascending (GetData m).
Proof.
  apply sorted_distinct_ascending.
  - apply std_sort_sorted; unfold key_less.
    + intros a b. apply ltb_asym.
    + intros a b c. apply ltb_neg_trans.
  - rewrite GetData_keys. apply NoDup_fst_map_to_list.
Qed.

End GetData.

(** The sorted export is the same whatever iteration order two
    implementations of the container use. *)
Lemma GetData_iteration_independent iterate1 iterate2 (m : gmap string Z) :
  (∀ m, iterate1 m ≡ₚ map_to_list m) → (∀ m, iterate2 m ≡ₚ map_to_list m) →
  GetData iterate1 m = GetData iterate2 m.
Proof.
  intros H1 H2. apply ascending_unique.
  - by apply GetData_ascending.
  - by apply GetData_ascending.
  - by rewrite !GetData_perm.
Qed.

(** C10. For every state of the map, [GetData] returns the entries in
    strictly ascending key order, every key of the map exactly once
    with its value; the result does not depend on the order in which the
    container hands out its entries, nor on the order in which two keys
    were set. *)
Theorem GetData_sorted_by_key
    (iterate : gmap string Z → list (string * Z)) (m : gmap string Z) :
  (∀ m, iterate m ≡ₚ map_to_list m) →
  StronglySorted ascending (GetData iterate m) ∧
  NoDup (GetData iterate m).*1 ∧
  (∀ k v, (k, FromInt v) ∈ GetData iterate m ↔ m !! k = Some v) ∧
  (∀ iterate', (∀ m, iterate' m ≡ₚ map_to_list m) →
     GetData iterate' m = GetData iterate m) ∧
  (∀ k1 v1 k2 v2, k1 ≠ k2 →
     GetData iterate (Set_ k1 v1 (Set_ k2 v2 m)) =
     GetData iterate (Set_ k2 v2 (Set_ k1 v1 m))).
Proof.
  intros Hit. split_and!.
  - by apply GetData_ascending.
  - rewrite GetData_keys by done. apply NoDup_fst_map_to_list.
  - intros k v. rewrite GetData_perm, list_elem_of_fmap by done. split.
    + intros ([k' v'] & [= -> ->] & Hin). by apply elem_of_map_to_list.
    + intros Hkv. exists (k, v). split; [done|]. by apply elem_of_map_to_list.
  - intros iterate' Hit'. by apply GetData_iteration_independent.
  - intros k1 v1 k2 v2 Hne. f_equal. apply map_eq. intros k.
    unfold Set_, FindOrInsert.
    repeat (case_decide || case_match || simplify_map_eq); try done;
      rewrite ?lookup_alter, ?lookup_insert; repeat case_decide;
      simplify_map_eq; done.
Qed.

Example GetData_demo :
  GetData map_to_list (IncBy "a" 1 (Set_ "c" 7 (IncBy "b" 2 (IncBy "a" 4 ∅)))) =
  [("a", FromInt 5); ("b", FromInt 2); ("c", FromInt 7)].
Proof. by vm_compute. Qed.

Lemma GetData_sorted_by_key_witness :
  (∀ m : gmap string Z, map_to_list m ≡ₚ map_to_list m) ∧
  StronglySorted ascending (GetData map_to_list (Set_ "b" 2 (Set_ "a" 1 ∅))).
Proof.
  split; [done|].
  apply (GetData_sorted_by_key map_to_list _ (λ m, reflexivity _)).
Defined.

End Varz.

(** * Further properties of the modelled code *)

(** ** The scheduler: order of dispatch and the sentinel timer *)

Module SchedulerFacts.
Import Scheduler.

Section Facts.

Variable type_of : ptr → context_type.

(** The fiber library waking the fibers of [cs], one after the other. *)
Fixpoint awaken_all (cs : list ptr) (s : round_robin) : option round_robin :=
  match cs with
  | [] => Some s
  | c :: cs' => s' ← awakened type_of c s; awaken_all cs' s'
  end.

(** [n] calls of [pick_next] in a row, stopping at the first null. *)
Fixpoint pick_many (n : nat) (s : round_robin) : list ptr * round_robin :=
  match n with
  | O => ([], s)
  | S n' =>
      match pick_next type_of s with
      | (Some c, s') => let '(l, s'') := pick_many n' s' in (c :: l, s'')
      | (None, s') => ([], s')
      end
  end.

Lemma awaken_all_queue cs : ∀ s s',
  awaken_all cs s = Some s' → rqueue_ s' = rqueue_ s ++ cs.
Proof.
  induction cs as [|c cs IH]; intros s s'; simpl.
  - intros [= <-]. by rewrite app_nil_r.
  - destruct (awakened type_of c s) as [s1|] eqn:E; [simpl|done].
    intros H. rewrite (IH _ _ H). revert E. unfold awakened.
    repeat case_bool_decide; try done. intros [= <-]. simpl.
    by rewrite <- app_assoc.
Qed.

Lemma awaken_all_reachable cs : ∀ s s',
  reachable type_of s → Forall valid_ptr cs →
  awaken_all cs s = Some s' → reachable type_of s'.
Proof.
  induction cs as [|c cs IH]; intros s s' Hr Hv; simpl.
  - by intros [= <-].
  - apply Forall_cons in Hv as [Hc Hv].
    destruct (awakened type_of c s) as [s1|] eqn:E; [simpl|done].
    apply IH; [|done]. by eapply reach_awakened.
Qed.

Lemma pick_many_queue q : ∀ s,
  rqueue_ s = q →
  (pick_many (length q) s).1 = q ∧ rqueue_ (pick_many (length q) s).2 = [].
Proof.
  induction q as [|c q IH]; intros s Hq; simpl; [done|].
  unfold pick_next. rewrite Hq.
  match goal with |- context [pick_many _ ?s1] =>
    destruct (IH s1 eq_refl) as [H1 H2];
    destruct (pick_many (length q) s1) as [l s2] end.
  simpl in *. by subst l.
Qed.

Lemma pick_many_reachable n : ∀ s,
  reachable type_of s → reachable type_of (pick_many n s).2.
Proof.
  induction n as [|n IH]; intros s Hr; simpl; [done|].
  pose proof (reach_pick_next type_of s Hr) as Hr1.
  destruct (pick_next type_of s) as [[c|] s1]; simpl in *; [|done].
  specialize (IH s1 Hr1). by destruct (pick_many n s1).
Qed.

(** X1. Dispatch is first in, first out: after the fibers of [cs] were
    awakened in this order, draining the ready queue with [pick_next]
    returns what was queued before, then [cs], in the same order; the
    queue is then empty, the ready counter is back to 0 and the next
    [pick_next] returns null. *)
Theorem pick_next_fifo (cs : list ptr) (s s' : round_robin) :
  reachable type_of s → Forall valid_ptr cs →
  awaken_all cs s = Some s' →
  let r := pick_many (length (rqueue_ s')) s' in
  r.1 = rqueue_ s ++ cs ∧ rqueue_ r.2 = [] ∧ counter_ r.2 = 0 ∧
  has_ready_fibers r.2 = false ∧ (pick_next type_of r.2).1 = None.
Proof.
  intros Hr Hv Ha r.
  destruct (pick_many_queue (rqueue_ s') s' eq_refl) as [H1 H2]. fold r in H1, H2.
  assert (Hr2 : reachable type_of r.2).
  { apply pick_many_reachable. by eapply awaken_all_reachable. }
  destruct (reachable_counter_inv type_of _ Hr2) as (_ & _ & Hc).
  rewrite H2 in Hc. change (counter_ r.2 = 0) in Hc.
  split_and!; try done.
  - rewrite H1. by eapply awaken_all_queue.
  - unfold has_ready_fibers. rewrite Hc. done.
  - unfold pick_next. by rewrite H2.
Qed.

(** X2. The sentinel timer never has more than one wait outstanding:
    [suspend_until] cancels what is pending before it starts a wait, and
    [notify] leaves none. *)
Theorem timer_one_wait (s : round_robin) :
  reachable type_of s → (pending (suspend_timer_ s) ≤ 1)%nat.
Proof.
  induction 1 as [|s ctx s' _ IH Hctx Haw|s _ IH|s t _ IH|s now _ IH]; simpl.
  - lia.
  - revert Haw. unfold awakened. repeat case_bool_decide; try done.
    by intros [= <-].
  - unfold pick_next. by destruct (rqueue_ s).
  - case_bool_decide; simpl; lia.
  - lia.
Qed.

End Facts.

Lemma pick_next_fifo_witness :
  let s' := demo_state in
  (pick_many demo_type_of 3 s').1 = [1; 2; 3]%N.
Proof.
  assert (Hv : Forall valid_ptr [1; 2; 3]%N).
  { repeat constructor; vm_compute; done. }
  apply (pick_next_fifo demo_type_of [1; 2; 3]%N init demo_state
           (reach_init demo_type_of) Hv eq_refl).
Defined.

Lemma timer_one_wait_witness :
  (pending (suspend_timer_
              (suspend_until 7%Z (notify 3%Z (suspend_until 5%Z init)))) ≤ 1)%nat.
Proof.
  apply (timer_one_wait demo_type_of).
  apply reach_suspend_until, reach_notify, reach_suspend_until, reach_init.
Defined.

End SchedulerFacts.

(** ** The echo session ([session] in examples/asio_fibers.cc) *)

Module EchoSession.

(** [boost::system::error_code] as the loop tests it. *)
Inductive error_code :=
| ec_success
| ec_eof
| ec_other (code : Z).

(** One round of socket results: what [async_read_some] completes with
    (error code and the bytes read), and what the [async_write] that
    follows a successful read completes with. *)
Record round := mk_round {
  read_ec : error_code;
  data : string;
  write_ec : error_code
}.

Inductive action :=
| QpsInc                      (* [qps.Inc()] *)
| AsyncWrite (bytes : string) (* [asio::async_write] of [data], [length] bytes *)
| LogWarning                  (* the [catch] block *)
| SockClose                   (* [sock->close()] *)
| HookUnlink                  (* [conn->hook_.unlink()] *)
| NotifyOne                   (* [conn->on_exit->notify_one()] *)
| DeleteConn.                 (* [delete conn] *)

(** How the [for (;;)] loop is left. *)
Inductive loop_exit :=
| by_break                    (* [eof] *)
| by_throw (code : Z)         (* [throw system::system_error(ec)] *)
| suspended.                  (* still waiting for the socket *)

Fixpoint session_loop (script : list round) : list action * loop_exit :=
  match script with
  | [] => ([], suspended)
  | r :: script' =>
      match read_ec r with
      | ec_eof => ([], by_break)
      | ec_other c => ([], by_throw c)
      | ec_success =>
          match write_ec r with
          | ec_eof => ([QpsInc; AsyncWrite (data r)], by_break)
          | ec_other c => ([QpsInc; AsyncWrite (data r)], by_throw c)
          | ec_success =>
              let '(acts, ex) := session_loop script' in
              (QpsInc :: AsyncWrite (data r) :: acts, ex)
          end
      end
  end.

Definition cleanup : list action :=
  [SockClose; HookUnlink; NotifyOne; DeleteConn].

(** [session(conn)]: the actions it performs on the given socket results,
    and whether it has returned. *)
Definition session (script : list round) : list action * bool :=
  match session_loop script with
  | (acts, by_break) => (acts ++ cleanup, true)
  | (acts, by_throw _) => (acts ++ LogWarning :: cleanup, true)
  | (acts, suspended) => (acts, false)
  end.

Definition round_ok (r : round) : Prop :=
  read_ec r = ec_success ∧ write_ec r = ec_success.

#[global] Instance error_code_eq_dec : EqDecision error_code.
Proof. solve_decision. Defined.

#[global] Instance action_eq_dec : EqDecision action.
Proof. solve_decision. Defined.

(** The bytes handed to [async_write], in order. *)
Definition writes (acts : list action) : list string :=
  omap (λ a, match a with AsyncWrite d => Some d | _ => None end) acts.

(** The rounds the loop goes through: up to and including the first one
    that is not clean. *)
Fixpoint consumed (script : list round) : list round :=
  match script with
  | [] => []
  | r :: script' =>
      if decide (round_ok r) then r :: consumed script' else [r]
  end.

Definition successful_reads (script : list round) : list string :=
  data <$> filter (λ r, read_ec r = ec_success) (consumed script).

Lemma session_loop_spec script :
  writes (session_loop script).1 = successful_reads script ∧
  Forall (λ a, a = QpsInc ∨ ∃ d, a = AsyncWrite d) (session_loop script).1 ∧
  length (filter (λ a, a = QpsInc) (session_loop script).1)
    = length (successful_reads script) ∧
  ((session_loop script).2 = suspended ↔ Forall round_ok script).
Proof.
  unfold successful_reads, round_ok.
  induction script as [|[rec d wec] script IH]; simpl.
  { split_and!; try done. }
  destruct IH as (IH1 & IH2 & IH3 & IH4).
  destruct rec; simpl.
  - destruct wec; simpl.
    + destruct (session_loop script) as [acts ex]; simpl in *.
      split_and!.
      * by rewrite IH1.
      * apply Forall_cons; split; [by left|].
        apply Forall_cons; split; [right; by eexists|done].
      * rewrite filter_cons_False by done. by rewrite IH3.
      * rewrite IH4, Forall_cons. simpl. tauto.
    + split_and!; try done.
      * apply Forall_cons; split; [by left|].
        apply Forall_cons; split; [right; by eexists|done].
      * split; [done|]. intros [[_ ?] _]%Forall_cons. done.
    + split_and!; try done.
      * apply Forall_cons; split; [by left|].
        apply Forall_cons; split; [right; by eexists|done].
      * split; [done|]. intros [[_ ?] _]%Forall_cons. done.
  - split_and!; try done.
    split; [done|]. intros [[? _] _]%Forall_cons. done.
  - split_and!; try done.
    split; [done|]. intros [[? _] _]%Forall_cons. done.
Qed.

(** X3. The session echoes and always cleans up: the chunks it writes
    are exactly the chunks it read successfully, in order, one [qps]
    tick each; it returns exactly when some round is not clean (end of
    stream or an error, on the read or on the write), and then, whether
    the loop was left by [break] or by an exception, its last actions are
    closing the socket, unlinking the connection, notifying the server and
    freeing the connection, in this order; while it has not returned it
    does none of these. *)
Theorem session_echoes_then_cleans_up (script : list round) :
  let acts := (session script).1 in
  writes acts = successful_reads script ∧
  length (filter (λ a, a = QpsInc) acts) = length (successful_reads script) ∧
  ((session script).2 = true ↔ ¬ Forall round_ok script) ∧
  ((session script).2 = true →
     ∃ body, acts = body ++ cleanup ∧ Forall (λ a, a ∉ cleanup) body) ∧
  ((session script).2 = false → Forall (λ a, a ∉ cleanup) acts).
Proof.
  destruct (session_loop_spec script) as (H1 & H2 & H3 & H4).
  assert (Hbody : Forall (λ a, a ∉ cleanup) (session_loop script).1).
  { eapply Forall_impl; [exact H2|]. intros a [->|[d ->]];
      unfold cleanup; rewrite !elem_of_cons, elem_of_nil; intuition discriminate. }
  assert (Hw : ∀ l1 l2, writes (l1 ++ l2) = writes l1 ++ writes l2).
  { intros. unfold writes. apply omap_app. }
  unfold session. destruct (session_loop script) as [acts ex]; simpl in *.
  destruct ex; simpl.
  - split_and!.
    + by rewrite Hw, app_nil_r.
    + rewrite filter_app, length_app. simpl. lia.
    + split; [|done]. intros _ Hall. apply H4 in Hall. done.
    + intros _. by exists acts.
    + done.
  - split_and!.
    + by rewrite Hw, app_nil_r.
    + rewrite filter_app, length_app. simpl. lia.
    + split; [|done]. intros _ Hall. apply H4 in Hall. done.
    + intros _. exists (acts ++ [LogWarning]). split.
      * by rewrite <- app_assoc.
      * apply Forall_app. split; [done|]. apply Forall_singleton.
        unfold cleanup; rewrite !elem_of_cons, elem_of_nil; intuition discriminate.
    + done.
  - split_and!; try done.
    split; [done|]. intros Hn. destruct Hn. by apply H4.
Qed.

End EchoSession.

(** ** [VarzMapCount]: what a sequence of updates adds up to *)

Module VarzFacts.
Import Varz.

Lemma wrap_long_range z : - 2 ^ 63 ≤ wrap_long z < 2 ^ 63.
Proof.
  unfold wrap_long. pose proof (Z.mod_pos_bound (z + 2 ^ 63) (2 ^ 64)). lia.
Qed.

Lemma wrap_long_small z : - 2 ^ 63 ≤ z < 2 ^ 63 → wrap_long z = z.
Proof. intros. unfold wrap_long. rewrite Z.mod_small; lia. Qed.

Lemma wrap_long_add_l a d : wrap_long (wrap_long a + d) = wrap_long (a + d).
Proof.
  unfold wrap_long. f_equal.
  replace ((a + 2 ^ 63) mod 2 ^ 64 - 2 ^ 63 + d + 2 ^ 63)
    with ((a + 2 ^ 63) mod 2 ^ 64 + d) by lia.
  rewrite Zplus_mod_idemp_l. f_equal. lia.
Qed.

(** What one [IncBy] does to the entry of any key. *)
Lemma IncBy_lookup key delta (m : gmap string Z) k :
  IncBy key delta m !! k =
  if decide (key ≠ EmptyString ∧ delta ≠ 0 ∧ key = k)
  then Some (wrap_long (default 0 (m !! k) + delta))
  else m !! k.
Proof.
  unfold IncBy, FindOrInsert.
  destruct (decide (key = EmptyString)) as [-> |Hk].
  { by rewrite decide_False by tauto. }
  destruct (decide (delta = 0)) as [-> |Hd].
  { by rewrite decide_False by tauto. }
  destruct (decide (key = k)) as [-> |Hne].
  - rewrite decide_True by done. rewrite lookup_alter_eq.
    destruct (m !! k) eqn:E; simpl.
    + by rewrite E.
    + by rewrite lookup_insert_eq.
  - rewrite decide_False by tauto. rewrite lookup_alter_ne by done.
    destruct (m !! key); [done|]. by rewrite lookup_insert_ne.
Qed.

Lemma Set_lookup key value (m : gmap string Z) k :
  Set_ key value m !! k =
  if decide (key ≠ EmptyString ∧ key = k) then Some value else m !! k.
Proof.
  unfold Set_, FindOrInsert.
  destruct (decide (key = EmptyString)) as [-> |Hk].
  { by rewrite decide_False by tauto. }
  destruct (decide (key = k)) as [-> |Hne].
  - rewrite decide_True by done. rewrite lookup_alter_eq.
    destruct (m !! k) eqn:E; simpl.
    + by rewrite E.
    + by rewrite lookup_insert_eq.
  - rewrite decide_False by tauto. rewrite lookup_alter_ne by done.
    destruct (m !! key); [done|]. by rewrite lookup_insert_ne.
Qed.

(** A run of [IncBy] calls, first call first. *)
Definition IncBy_all (calls : list (string * Z)) (m : gmap string Z)
    : gmap string Z :=
  foldl (λ m c, IncBy c.1 c.2 m) m calls.

(** The non-zero deltas a key received. *)
Definition deltas_of (k : string) (calls : list (string * Z)) : list Z :=
  filter (λ d, d ≠ 0) (filter (λ c, c.1 = k) calls).*2.

Definition sum (l : list Z) : Z := foldr Z.add 0 l.

Lemma sum_app l1 l2 : sum (l1 ++ l2) = sum l1 + sum l2.
Proof. induction l1 as [|x l1 IH]; simpl; [done|]. rewrite IH. lia. Qed.

Lemma deltas_of_snoc k calls c :
  deltas_of k (calls ++ [c]) =
  deltas_of k calls ++ (if decide (c.1 = k ∧ c.2 ≠ 0) then [c.2] else []).
Proof.
  unfold deltas_of. rewrite filter_app, fmap_app, filter_app. f_equal.
  rewrite filter_cons, filter_nil.
  destruct (decide (c.1 = k)); simpl.
  - rewrite filter_cons, filter_nil.
    destruct (decide (c.2 ≠ 0)).
    + by rewrite decide_True by done.
    + by rewrite decide_False by tauto.
  - by rewrite decide_False by tauto.
Qed.

(** X4. Starting from an empty map, after any run of [IncBy] calls a
    non-empty key is present exactly when it received a non-zero delta,
    and its value is the sum of its deltas, wrapped to 64 bits; the empty
    key is never present. *)
Theorem IncBy_sums_deltas (calls : list (string * Z)) (k : string) :
  IncBy_all calls ∅ !! k =
  if decide (k = EmptyString ∨ deltas_of k calls = []) then None
  else Some (wrap_long (sum (deltas_of k calls))).
Proof.
  unfold IncBy_all.
  induction calls as [|[key d] calls IH] using rev_ind; simpl.
  { rewrite lookup_empty. by rewrite decide_True by (by right). }
  rewrite foldl_app. simpl. rewrite IncBy_lookup, IH, deltas_of_snoc. simpl.
  clear IH. destruct (decide (key ≠ EmptyString ∧ d ≠ 0 ∧ key = k)) as [(Hk & Hd & ->)|Hn].
  - rewrite (decide_True (P := k = k ∧ d ≠ 0)) by done.
    rewrite (decide_False (P := k = EmptyString ∨ _ ++ [d] = []))
      by (intros [?|?%app_eq_nil]; [done|by destruct H]).
    f_equal. rewrite sum_app. simpl.
    case_decide as Hc.
    + destruct Hc as [? | ->]; [done|]. simpl. f_equal. lia.
    + simpl. rewrite wrap_long_add_l. f_equal. lia.
  - destruct (decide (key = k ∧ d ≠ 0)) as [[-> Hd]|Hn'].
    + assert (k = EmptyString) as -> by (destruct (decide (k = EmptyString)); tauto).
      by rewrite !decide_True by (by left).
    + by rewrite app_nil_r.
Qed.

(** X5. [IncBy] calls commute, on the same key as on different keys:
    the map after two increments does not depend on their order. *)
Theorem IncBy_commute k1 d1 k2 d2 (m : gmap string Z) :
  IncBy k1 d1 (IncBy k2 d2 m) = IncBy k2 d2 (IncBy k1 d1 m).
Proof.
  apply map_eq. intros k. rewrite !IncBy_lookup.
  repeat case_decide; try done; destruct_and?; simplify_eq; try tauto.
  simpl. f_equal. rewrite !wrap_long_add_l. f_equal. lia.
Qed.

(** Updates as the clients issue them; [Set] takes an [int32]. *)
Inductive update :=
| do_IncBy (key : string) (delta : Z)
| do_Set (key : string) (value : Z).

Definition apply_update (m : gmap string Z) (u : update) : gmap string Z :=
  match u with
  | do_IncBy key delta => IncBy key delta m
  | do_Set key value => Set_ key value m
  end.

Definition int32_args (u : update) : Prop :=
  match u with
  | do_IncBy _ delta => - 2 ^ 31 ≤ delta < 2 ^ 31
  | do_Set _ value => - 2 ^ 31 ≤ value < 2 ^ 31
  end.

(** X6. Whatever updates are applied to an empty map, no entry has the
    empty key and every counter is a valid [long]; accordingly the export
    never lists the empty key. *)
Theorem updates_keep_map_wellformed (us : list update)
    (iterate : gmap string Z → list (string * Z)) :
  (∀ m, iterate m ≡ₚ map_to_list m) →
  Forall int32_args us →
  let m := foldl apply_update ∅ us in
  m !! EmptyString = None ∧
  (∀ k v, m !! k = Some v → - 2 ^ 63 ≤ v < 2 ^ 63) ∧
  EmptyString ∉ (GetData iterate m).*1.
Proof.
  intros Hit Hus m.
  assert (Hm : m !! EmptyString = None ∧
               ∀ k v, m !! k = Some v → - 2 ^ 63 ≤ v < 2 ^ 63).
  { subst m. induction us as [|u us IH] using rev_ind; simpl.
    { split; [done|]. intros k v. by rewrite lookup_empty. }
    apply Forall_app in Hus as [Hus Hu]. apply Forall_cons in Hu as [Hu _].
    destruct (IH Hus) as [IH1 IH2]. rewrite foldl_app. simpl.
    destruct u as [key delta|key value]; simpl in *.
    - split.
      + rewrite IncBy_lookup. by rewrite decide_False by (intros (? & _ & ?); done).
      + intros k v. rewrite IncBy_lookup. case_decide.
        * intros [= <-]. apply wrap_long_range.
        * apply IH2.
    - split.
      + rewrite Set_lookup. by rewrite decide_False by (intros (? & ?); done).
      + intros k v. rewrite Set_lookup. case_decide.
        * intros [= <-]. lia.
        * apply IH2. }
  destruct Hm as [Hm1 Hm2]. split_and!; [done|done|].
  rewrite GetData_keys by done. intros Hin.
  apply list_elem_of_fmap in Hin as ([k v] & Hk & Hin). simpl in Hk. subst k.
  apply elem_of_map_to_list in Hin. congruence.
Qed.

Lemma updates_keep_map_wellformed_witness :
  let m := foldl apply_update ∅ [do_Set "" 3; do_IncBy "hits" 2; do_Set "hits" 5] in
  m !! EmptyString = None.
Proof.
  apply (updates_keep_map_wellformed
           [do_Set "" 3; do_IncBy "hits" 2; do_Set "hits" 5]
           map_to_list (λ m, reflexivity _)).
  repeat constructor; simpl; lia.
Defined.

End VarzFacts.

(** ** Rendering a value ([VarzListNode::Format]) *)

Module VarzFormat.

Section Format.

(** Printing a [double] is left to [StrAppend]; its digits are not
    modelled. *)
Context {double : Type}.
Variable StrAppend_double : double → string.

(** [AnyValue]: the tag and the field the tag selects. *)
#[warnings="-register-all"]
Inductive AnyValue :=
| STRING (str : string)
| NUM (num : Z)
| TIME (num : Z)
| DOUBLE (dbl : double)
| MAP (key_value_array : list (string * AnyValue)).

(** The one-character string holding a double quote. *)
Definition dquote : string := String (Ascii.ascii_of_nat 34) EmptyString.

Definition space : Ascii.ascii := Ascii.ascii_of_nat 32.

(** [result.back() = c]. *)
Fixpoint set_back (c : Ascii.ascii) (s : string) : string :=
  match s with
  | EmptyString => EmptyString
  | String a EmptyString => String c EmptyString
  | String a s' => String a (set_back c s')
  end.

(** [Format(av)]; [StrAppend] of an integer prints it in decimal. *)
Fixpoint Format (av : AnyValue) : string :=
  match av with
  | STRING str => dquote +:+ str +:+ dquote
  | NUM num | TIME num => pretty num
  | DOUBLE dbl => StrAppend_double dbl
  | MAP key_value_array =>
      let result :=
        (fix loop (l : list (string * AnyValue)) (result : string) : string :=
           match l with
           | [] => result
           | k_v :: l' =>
               loop l' (result +:+ dquote +:+ k_v.1 +:+ dquote +:+ ": "
                          +:+ Format k_v.2 +:+ ",")
           end) key_value_array "{ " in
      set_back space result +:+ "}"
  end.

(** One entry as it is meant to appear. *)
Definition entry (k_v : string * AnyValue) : string :=
  dquote +:+ k_v.1 +:+ dquote +:+ ": " +:+ Format k_v.2.

Lemma append_cons x (a b : string) : String x a +:+ b = String x (a +:+ b).
Proof. reflexivity. Qed.

Lemma append_assoc (a b c : string) : (a +:+ b) +:+ c = a +:+ b +:+ c.
Proof. induction a as [|x a IH]; [done|]. by rewrite !append_cons, IH. Qed.

Lemma append_nil_r (a : string) : a +:+ "" = a.
Proof. induction a as [|x a IH]; [done|]. by rewrite append_cons, IH. Qed.

Lemma set_back_snoc c (s : string) a :
  set_back c (s +:+ String a EmptyString) = s +:+ String c EmptyString.
Proof.
  induction s as [|x s IH]; [done|].
  rewrite !append_cons, <- IH. by destruct s.
Qed.

(** The loop of the [MAP] case appends every entry followed by a comma. *)
Fixpoint entries_with_commas (l : list (string * AnyValue)) : string :=
  match l with
  | [] => ""
  | k_v :: l' => entry k_v +:+ "," +:+ entries_with_commas l'
  end.

Lemma Format_MAP_loop l : ∀ result,
  (fix loop (l : list (string * AnyValue)) (result : string) : string :=
     match l with
     | [] => result
     | k_v :: l' =>
         loop l' (result +:+ dquote +:+ k_v.1 +:+ dquote +:+ ": "
                    +:+ Format k_v.2 +:+ ",")
     end) l result = result +:+ entries_with_commas l.
Proof.
  induction l as [|k_v l IH]; intros result.
  - cbn [entries_with_commas]. by rewrite append_nil_r.
  - rewrite IH. cbn [entries_with_commas]. unfold entry.
    by rewrite !append_assoc.
Qed.

Lemma entries_with_commas_concat k_v l :
  entries_with_commas (k_v :: l) =
  String.concat "," (entry <$> (k_v :: l)) +:+ ",".
Proof.
  revert k_v. induction l as [|k_v' l IH]; intros k_v.
  - cbn. by rewrite append_nil_r.
  - change (entries_with_commas (k_v :: k_v' :: l))
      with (entry k_v +:+ "," +:+ entries_with_commas (k_v' :: l)).
    rewrite IH. cbn [fmap list_fmap String.concat]. by rewrite !append_assoc.
Qed.

(** X7. A map is rendered as its entries separated by commas between
    "{ " and " }": the comma the loop leaves after the last entry is
    overwritten by a space; the empty map is rendered "{ }". *)
Theorem Format_MAP_separates_entries (l : list (string * AnyValue)) :
  Format (MAP l) =
  match l with
  | [] => "{ }"
  | _ => "{ " +:+ String.concat "," (entry <$> l) +:+ " }"
  end.
Proof.
  destruct l as [|k_v l]; [done|].
  change (Format (MAP (k_v :: l))) with
    (set_back space
       ((fix loop (l : list (string * AnyValue)) (result : string) : string :=
           match l with
           | [] => result
           | k_v :: l' =>
               loop l' (result +:+ dquote +:+ k_v.1 +:+ dquote +:+ ": "
                          +:+ Format k_v.2 +:+ ",")
           end) (k_v :: l) "{ ") +:+ "}").
  rewrite Format_MAP_loop, entries_with_commas_concat.
  rewrite <- append_assoc, set_back_snoc. by rewrite !append_assoc.
Qed.

End Format.

Example Format_demo :
  Format (λ _ : unit, "0.5")
    (MAP [("a", NUM 12); ("b", MAP []); ("c", STRING "x"); ("d", TIME (-3))]) =
  "{ " +:+ dquote +:+ "a" +:+ dquote +:+ ": 12," +:+
  dquote +:+ "b" +:+ dquote +:+ ": { }," +:+
  dquote +:+ "c" +:+ dquote +:+ ": " +:+ dquote +:+ "x" +:+ dquote +:+ "," +:+
  dquote +:+ "d" +:+ dquote +:+ ": -3 }".
Proof. by vm_compute. Qed.

End VarzFormat.

(** ** The io_uring manager and the connection handler: registration,
    submissions, failures *)

Module RedisFacts.
Import URing Redis.

Lemma bind_Ok {A B} (a : A) (f : A → outcome B) : (Ok a ≫= f) = f a.
Proof. reflexivity. Qed.

Section Events.

Context {callback : Type}.
Implicit Types m : URingManager callback.

Lemma event_at_app m p e (l : list (URingEvent callback)) :
  event_at m p = Some e →
  event_at {| ring_ := ring_ m; storage_ := storage_ m ++ l |} p = Some e.
Proof.
  unfold event_at; simpl. case_decide; [done|]. intros Hev.
  rewrite lookup_app_l; [done|]. by eapply lookup_lt_Some.
Qed.

Lemma event_at_Set_cb_eq p cb m e :
  event_at m p = Some e →
  event_at (Set_cb p cb m) p = Some {| fd_ := fd_ e; cb_ := cb |}.
Proof.
  unfold Set_cb. intros He. rewrite He. revert He. unfold event_at; simpl.
  case_decide; [done|]. intros He.
  apply list_lookup_insert_eq. by eapply lookup_lt_Some.
Qed.

Lemma event_at_Set_cb_ne p q cb m :
  p ≠ q → event_at (Set_cb p cb m) q = event_at m q.
Proof.
  intros Hne. unfold Set_cb. destruct (event_at m p) as [e|] eqn:E; [|done].
  unfold event_at in *; simpl. repeat case_decide; try done.
  rewrite list_lookup_insert_ne; [done|]. lia.
Qed.

(** X8. Registration pins an event: [AssignCb] with a callback returns a
    new non-null address at which the event is found with its descriptor
    and callback; every event registered before keeps its address and
    content, and the ring is not touched.  Re-setting the callback of one
    event later changes neither its descriptor nor any other event.
    With an empty callback [AssignCb] is fatal. *)
Theorem AssignCb_pins_events (fd : Z) (cb : callback) m :
  AssignCb fd None m = Fatal "CHECK(cb)" ∧
  ∃ p m',
    AssignCb fd (Some cb) m = Ok (p, m') ∧
    p ≠ 0%N ∧ event_at m p = None ∧
    event_at m' p = Some {| fd_ := fd; cb_ := Some cb |} ∧
    ring_ m' = ring_ m ∧
    (∀ q e, event_at m q = Some e → event_at m' q = Some e) ∧
    (∀ cb', event_at (Set_cb p cb' m') p = Some {| fd_ := fd; cb_ := cb' |} ∧
            ∀ q, q ≠ p → event_at (Set_cb p cb' m') q = event_at m' q).
Proof.
  split; [done|]. eexists _, _. split; [reflexivity|].
  assert (Hp : event_at {| ring_ := ring_ m;
                           storage_ := storage_ m ++ [{| fd_ := fd; cb_ := Some cb |}] |}
                 (N.of_nat (S (length (storage_ m))))
               = Some {| fd_ := fd; cb_ := Some cb |}).
  { unfold event_at; cbn [storage_]. case_decide; [lia|].
    replace (N.to_nat (N.of_nat (S (length (storage_ m))) - 1)) with
      (length (storage_ m) + 0)%nat by lia.
    rewrite lookup_app_r by lia.
    by replace (length (storage_ m) + 0 - length (storage_ m))%nat with 0%nat by lia. }
  split_and!.
  - lia.
  - unfold event_at. case_decide; [done|].
    apply lookup_ge_None. lia.
  - exact Hp.
  - done.
  - intros q e. apply event_at_app.
  - intros cb'. split.
    + by rewrite (event_at_Set_cb_eq _ cb' _ _ Hp).
    + intros q Hq. by apply event_at_Set_cb_ne.
Qed.

(** A manager with one more pending SQE. *)
Definition push_sqe (e : io_uring_sqe) m : URingManager callback :=
  {| ring_ := {| sq_entries := sq_entries (ring_ m);
                 sq := sq (ring_ m) ++ [e];
                 submitted := submitted (ring_ m);
                 cq := cq (ring_ m) |};
     storage_ := storage_ m |}.

Definition room (k : nat) m : Prop :=
  (length (sq (ring_ m)) + k ≤ sq_entries (ring_ m))%nat.

Lemma update_last_snoc f (l : list io_uring_sqe) x :
  update_last f (l ++ [x]) = l ++ [f x].
Proof.
  unfold update_last. rewrite reverse_snoc.
  by rewrite reverse_cons, reverse_involutive.
Qed.

Lemma on_last_push f e m : on_last_sqe f (push_sqe e m) = push_sqe (f e) m.
Proof. unfold on_last_sqe, push_sqe; simpl. by rewrite update_last_snoc. Qed.

Lemma GetSubmit_inv m m' : GetSubmit m = Ok m' → m' = push_sqe blank_sqe m.
Proof.
  unfold GetSubmit, io_uring_get_sqe. case_decide; [|done]. by intros [= <-].
Qed.

Lemma GetSubmit_room m : room 1 m → GetSubmit m = Ok (push_sqe blank_sqe m).
Proof.
  unfold room, GetSubmit, io_uring_get_sqe. intros Hr.
  by rewrite decide_True by lia.
Qed.

Lemma room_push k e m : room (S k) m → room k (push_sqe e m).
Proof. unfold room, push_sqe; simpl. rewrite length_app; simpl. lia. Qed.

Lemma room_le k k' m : (k' ≤ k)%nat → room k m → room k' m.
Proof. unfold room. lia. Qed.

Lemma event_at_push e m p : event_at (push_sqe e m) p = event_at m p.
Proof. done. Qed.

Lemma AddPollIn_room p m e :
  event_at m p = Some e → room 1 m →
  AddPollIn p m = Ok (push_sqe (mk_sqe (op_poll_add (fd_ e) POLLIN) 0 p) m).
Proof.
  intros He Hr. unfold AddPollIn. rewrite He, (GetSubmit_room _ Hr). simpl.
  by rewrite !on_last_push.
Qed.

Lemma AddPollIn_inv p m m' :
  AddPollIn p m = Ok m' →
  ∃ e, event_at m p = Some e ∧
       m' = push_sqe (mk_sqe (op_poll_add (fd_ e) POLLIN) 0 p) m.
Proof.
  unfold AddPollIn. destruct (event_at m p) as [e|]; [|done].
  destruct (GetSubmit m) as [m1|] eqn:E; [|done]. simpl.
  apply GetSubmit_inv in E as ->. intros [= <-]. exists e.
  by rewrite !on_last_push.
Qed.

End Events.

Section Handler.

Variable FLAGS_linked_ske : bool.
Context {PingCommand : Type}.
Variable Decode : PingCommand → Z → bool * PingCommand.
Variable PingCommand_new : PingCommand.

Implicit Types m : URingManager callback.
Implicit Types w : @world PingCommand.

Abbreviation Handle := (Redis.Handle FLAGS_linked_ske Decode).
Abbreviation InitiateRead := (@Redis.InitiateRead PingCommand).
Abbreviation InitiateWrite := (@Redis.InitiateWrite FLAGS_linked_ske PingCommand).

Lemma InitiateRead_inv c event m w m' w' :
  InitiateRead c event m w = Ok (m', w') →
  ∃ e, event_at m event = Some e ∧
       m' = push_sqe (mk_sqe (op_recvmsg (fd_ e)) 0 event) m ∧
       w' = update_conn c (set_state READ) w.
Proof.
  unfold Redis.InitiateRead. destruct (event_at m event) as [e|]; [|done].
  destruct (GetSubmit m) as [m1|] eqn:E; [|done]. simpl.
  apply GetSubmit_inv in E as ->. intros [= <- <-]. exists e.
  by rewrite !on_last_push.
Qed.

Lemma InitiateRead_room c event m w e :
  event_at m event = Some e → room 1 m →
  InitiateRead c event m w =
  Ok (push_sqe (mk_sqe (op_recvmsg (fd_ e)) 0 event) m,
      update_conn c (set_state READ) w).
Proof.
  intros He Hr. unfold Redis.InitiateRead.
  rewrite He, (GetSubmit_room _ Hr). simpl. by rewrite !on_last_push.
Qed.

Lemma InitiateWrite_inv c event m w m' w' :
  InitiateWrite c event m w = Ok (m', w') →
  ∃ e, event_at m event = Some e ∧
    if FLAGS_linked_ske then
      m' = push_sqe (mk_sqe (op_poll_add (fd_ e) POLLIN) 0 event)
             (push_sqe (mk_sqe (op_sendmsg (fd_ e)) IOSQE_IO_LINK 0) m) ∧
      w' = update_conn c (set_state WAIT_READ) w
    else
      m' = push_sqe (mk_sqe (op_sendmsg (fd_ e)) 0 event) m ∧
      w' = update_conn c (set_state WRITE) w.
Proof.
  unfold Redis.InitiateWrite. destruct (event_at m event) as [e|] eqn:He; [|done].
  destruct (GetSubmit m) as [m1|] eqn:E; [|done].
  apply GetSubmit_inv in E as ->. rewrite bind_Ok. intros Hw.
  exists e. split; [done|]. revert Hw.
  destruct FLAGS_linked_ske.
  - rewrite !on_last_push.
    destruct (AddPollIn event _) as [m3|] eqn:E3; [|done]. rewrite bind_Ok.
    apply AddPollIn_inv in E3 as (e' & He' & ->).
    rewrite event_at_push in He'. assert (e' = e) as -> by congruence.
    by intros [= <- <-].
  - intros [= <- <-]. by rewrite !on_last_push.
Qed.

Lemma InitiateWrite_room c event m w e :
  event_at m event = Some e → room 2 m →
  ∃ m' w', InitiateWrite c event m w = Ok (m', w').
Proof.
  intros He Hr. unfold Redis.InitiateWrite.
  rewrite He, (GetSubmit_room m) by (eapply room_le; [|done]; lia).
  rewrite bind_Ok. destruct FLAGS_linked_ske; [|by eexists _, _].
  rewrite !on_last_push.
  erewrite AddPollIn_room; [by eexists _, _|done|].
  by apply room_push.
Qed.

(** The state a successful completion leads to. *)
Definition next_state (st : State) (decoded : bool) : State :=
  match st with
  | WAIT_READ => READ
  | READ => if decoded then (if FLAGS_linked_ske then WAIT_READ else WRITE)
            else READ
  | WRITE => WAIT_READ
  end.

(** The request that is submitted with the event as user data. *)
Definition next_request (st : State) (decoded : bool) (fd : Z) : opcode :=
  match st with
  | WAIT_READ => op_recvmsg fd
  | READ => if decoded then (if FLAGS_linked_ske then op_poll_add fd POLLIN
                             else op_sendmsg fd)
            else op_recvmsg fd
  | WRITE => op_poll_add fd POLLIN
  end.

Lemma lookup_update_conn c f w c' :
  conns (update_conn c f w) !! c' =
  if decide (c = c') then f <$> conns w !! c' else conns w !! c'.
Proof.
  unfold update_conn; simpl. case_decide as E.
  - subst. apply lookup_alter_eq.
  - by apply lookup_alter_ne.
Qed.

(** X9. A completion with a positive result moves the connection one
    step along [WAIT_READ → READ → WRITE → WAIT_READ] (a read that does
    not complete a request stays in [READ]) and, when the ring has room
    for two entries, submits exactly one request that carries the event
    as user data, after at most one linked request without user data
    (none unless [linked_ske] is set); events and reference counts are
    left alone.  Hence each handled completion is followed by exactly one
    further completion for the same event. *)
Theorem Handle_submits_one_tagged_request (c : N) (res : Z) (event : N)
    m w (e : URingEvent callback) (conn : RedisConnection) :
  event_at m event = Some e →
  conns w !! c = Some conn →
  res > 0 →
  room 2 m →
  let decoded := (Decode (cmd_ conn) res).1 in
  ∃ m' w' linked conn',
    Handle c res event m w = Ok (m', w') ∧
    sq (ring_ m') = sq (ring_ m) ++ linked ++
      [mk_sqe (next_request (state_ conn) decoded (fd_ e)) 0 event] ∧
    (linked = [] ∨
     FLAGS_linked_ske = true ∧ state_ conn = READ ∧ decoded = true ∧
     linked = [mk_sqe (op_sendmsg (fd_ e)) IOSQE_IO_LINK 0]) ∧
    storage_ m' = storage_ m ∧
    submitted (ring_ m') = submitted (ring_ m) ∧
    conns w' !! c = Some conn' ∧
    state_ conn' = next_state (state_ conn) decoded ∧
    use_count conn' = use_count conn ∧
    syscalls w' = syscalls w.
Proof.
  intros He Hc Hres Hroom decoded. unfold Redis.Handle. rewrite He, Hc.
  assert (Hroom1 : room 1 m) by (eapply room_le; [|done]; lia).
  destruct (state_ conn) eqn:Hst.
  - rewrite decide_True by done.
    rewrite (InitiateRead_room _ _ _ _ _ He Hroom1).
    exists (push_sqe (mk_sqe (op_recvmsg (fd_ e)) 0 event) m),
      (update_conn c (set_state READ) w), [], (set_state READ conn).
    split_and!; try done; [by left|].
    by rewrite lookup_update_conn, decide_True, Hc by done.
  - rewrite decide_True by done. subst decoded.
    destruct (Decode (cmd_ conn) res) as [[] cmd] eqn:Ed; simpl.
    + destruct (InitiateWrite_room c event m
                  (inc_qps (update_conn c (set_cmd cmd) w)) e He Hroom)
        as (m' & w' & Hw).
      change (Redis.InitiateWrite FLAGS_linked_ske c event m
                (inc_qps (update_conn c (set_cmd cmd) w)))
        with (InitiateWrite c event m (inc_qps (update_conn c (set_cmd cmd) w))).
      rewrite Hw. apply InitiateWrite_inv in Hw as (e' & He' & Hw).
      assert (e' = e) as -> by congruence.
      destruct FLAGS_linked_ske; destruct Hw as [-> ->].
      * eexists _, _, [mk_sqe (op_sendmsg (fd_ e)) IOSQE_IO_LINK 0],
          (set_state WAIT_READ (set_cmd cmd conn)).
        split_and!; try done.
        -- simpl. by rewrite <- app_assoc.
        -- right. done.
        -- rewrite lookup_update_conn, decide_True by done.
           change (conns (inc_qps ?x)) with (conns x).
           by rewrite lookup_update_conn, decide_True, Hc by done.
      * eexists _, _, [], (set_state WRITE (set_cmd cmd conn)).
        split_and!; try done; [by left|].
        rewrite lookup_update_conn, decide_True by done.
        change (conns (inc_qps ?x)) with (conns x).
        by rewrite lookup_update_conn, decide_True, Hc by done.
    + rewrite (InitiateRead_room _ _ _ _ _ He Hroom1).
      eexists _, _, [], (set_state READ (set_cmd cmd conn)).
      split_and!; try done; [by left|].
      rewrite lookup_update_conn, decide_True by done.
      by rewrite lookup_update_conn, decide_True, Hc by done.
  - rewrite decide_True by done.
    rewrite (AddPollIn_room _ _ _ He Hroom1), bind_Ok.
    eexists _, _, [], (set_state WAIT_READ conn).
    split_and!; try done; [by left|].
    by rewrite lookup_update_conn, decide_True, Hc by done.
Qed.

(** *** Who owns a connection *)

(** The event at [p] holds the callback of connection [c]. *)
Definition owner_of m (p c : N) : Prop :=
  ∃ e, event_at m p = Some e ∧ cb_ e = Some (cb_Handle c).

(** The reference count of [c], if the object exists. *)
Definition counts w (c : N) : option nat := use_count <$> conns w !! c.

(** Every callback refers to a live connection; every live connection
    has reference count 1 and is held by exactly one callback; addresses
    not yet handed out are unused. *)
Definition owned m w : Prop :=
  (∀ p c, owner_of m p c → is_Some (counts w c)) ∧
  (∀ c n, counts w c = Some n → n = 1%nat ∧ (c < next_conn w)%N) ∧
  (∀ p1 p2 c, owner_of m p1 c → owner_of m p2 c → p1 = p2) ∧
  (∀ c, is_Some (counts w c) → ∃ p, owner_of m p c).

Lemma owned_same m m' w w' :
  storage_ m' = storage_ m → next_conn w' = next_conn w →
  (∀ c, counts w' c = counts w c) →
  owned m w → owned m' w'.
Proof.
  intros Hs Hn Hc (O1 & O2 & O3 & O4).
  assert (Ho : ∀ p c, owner_of m' p c ↔ owner_of m p c).
  { intros p c. unfold owner_of, event_at. by rewrite Hs. }
  unfold owned. setoid_rewrite Ho. setoid_rewrite Hc. rewrite Hn. done.
Qed.

Lemma counts_update_conn c f w c' :
  (∀ x, use_count (f x) = use_count x) →
  counts (update_conn c f w) c' = counts w c'.
Proof.
  intros Hf. unfold counts. rewrite lookup_update_conn. case_decide; [|done].
  destruct (conns w !! c'); simpl; [|done]. by rewrite Hf.
Qed.

Lemma owned_step c f m m' w :
  storage_ m' = storage_ m →
  (∀ x, use_count (f x) = use_count x) →
  owned m w → owned m' (update_conn c f w).
Proof.
  intros Hs Hf. apply owned_same; [done|done|].
  intros c'. by apply counts_update_conn.
Qed.

Lemma owner_of_Set_cb_None m event p c :
  owner_of (Set_cb event None m) p c ↔ p ≠ event ∧ owner_of m p c.
Proof.
  unfold owner_of. destruct (decide (p = event)) as [-> | Hne].
  - split; [|tauto]. intros (e & He & Hcb).
    destruct (event_at m event) as [e0|] eqn:E0.
    + rewrite (event_at_Set_cb_eq _ None _ _ E0) in He.
      injection He as <-. done.
    + unfold Set_cb in He. rewrite E0 in He. congruence.
  - rewrite event_at_Set_cb_ne by done. tauto.
Qed.

Lemma Handle_owned c res event m w m' w' e :
  event_at m event = Some e → cb_ e = Some (cb_Handle c) →
  owned m w → Handle c res event m w = Ok (m', w') → owned m' w'.
Proof.
  intros He Hcb Hown. unfold Redis.Handle. rewrite He.
  destruct (conns w !! c) as [conn|] eqn:Hc; [|done].
  destruct (state_ conn).
  - case_decide; [|done]. intros (e' & _ & -> & ->)%InitiateRead_inv.
    by apply (owned_step _ _ m).
  - case_decide.
    + destruct (Decode (cmd_ conn) res) as [[] cmd].
      * intros (e' & _ & Hw)%InitiateWrite_inv.
        assert (owned m (inc_qps (update_conn c (set_cmd cmd) w))) as Hown1.
        { eapply owned_same; [done|done| |by apply (owned_step c (set_cmd cmd) m m w)].
          done. }
        destruct FLAGS_linked_ske; destruct Hw as [-> ->];
          by apply (owned_step _ _ m).
      * intros (e' & _ & -> & ->)%InitiateRead_inv.
        apply (owned_step _ _ m); [done|done|]. by apply (owned_step _ _ m).
    + intros [= <- <-]. unfold Set_nullptr. rewrite He.
      destruct e as [fd cb]. simpl in Hcb. subst cb.
      set (w2 := do_syscalls _ _).
      assert (Hw2 : conns w2 = conns w ∧ next_conn w2 = next_conn w).
      { subst w2. by destruct (decide (res < 0)). }
      destruct Hw2 as [Hw2c Hw2n]. clearbody w2.
      destruct Hown as (O1 & O2 & O3 & O4).
      assert (Hev : owner_of m event c) by (eexists; split; [done|done]).
      assert (Hcount : use_count conn = 1%nat).
      { apply (O2 c). unfold counts. by rewrite Hc. }
      assert (Hcounts : ∀ c', counts (release c w2) c' =
                if decide (c' = c) then None else counts w c').
      { intros c'. unfold counts, release; simpl. rewrite Hw2c, Hc.
        rewrite decide_True by lia. case_decide as E.
        - subst. by rewrite lookup_delete_eq.
        - by rewrite lookup_delete_ne. }
      unfold owned. setoid_rewrite owner_of_Set_cb_None.
      setoid_rewrite Hcounts. split_and!.
      * intros p c' [Hp Ho]. rewrite decide_False; [by eapply O1|].
        intros ->. apply Hp. by eapply O3.
      * intros c' n. case_decide; [done|]. intros Hn.
        change (next_conn (release c w2)) with (next_conn w2). rewrite Hw2n.
        by apply O2.
      * intros p1 p2 c' [_ H1] [_ H2]. by eapply O3.
      * intros c'. case_decide as E; [by intros [? ?]|]. intros Hal.
        destruct (O4 c' Hal) as [p Hp]. exists p. split; [|done].
        intros ->. apply E.
        destruct Hp as (e1 & He1 & Hcb1), Hev as (e2 & He2 & Hcb2). congruence.
  - case_decide; [|done].
    destruct (AddPollIn event m) as [m1|] eqn:E; [|done]. rewrite bind_Ok.
    apply AddPollIn_inv in E as (e' & _ & ->). intros [= <- <-].
    by apply (owned_step _ _ m).
Qed.

Lemma StartPolling_inv c fd m w m' w' :
  Redis.StartPolling FLAGS_linked_ske c fd m w = Ok (m', w') →
  storage_ m' = storage_ m ++ [{| fd_ := fd; cb_ := Some (cb_Handle c) |}] ∧
  next_conn w' = next_conn w ∧
  ∀ c', counts w' c' = counts (update_conn c add_ref w) c'.
Proof.
  unfold Redis.StartPolling, AssignCb. rewrite bind_Ok.
  destruct (GetSubmit _) as [m2|] eqn:E2; [|done]. rewrite bind_Ok.
  apply GetSubmit_inv in E2 as ->. destruct FLAGS_linked_ske.
  - intros (e' & _ & -> & ->)%InitiateRead_inv. split_and!; [done|done|].
    intros c'. by apply counts_update_conn.
  - intros [= <- <-]. split_and!; [done|done|].
    intros c'. by apply counts_update_conn.
Qed.

Lemma owner_of_new m fd c p c' :
  owner_of {| ring_ := ring_ m;
              storage_ := storage_ m ++ [{| fd_ := fd; cb_ := Some (cb_Handle c) |}] |}
           p c' ↔
  owner_of m p c' ∨ (p = N.of_nat (S (length (storage_ m))) ∧ c' = c).
Proof.
  unfold owner_of, event_at; simpl. destruct (decide (p = 0%N)) as [-> | Hp].
  { split; [by intros (? & ? & _)|]. intros [(? & ? & _)|[? _]]; [done|lia]. }
  destruct (decide (N.to_nat (p - 1) < length (storage_ m))%nat) as [Hlt|Hge].
  - rewrite lookup_app_l by done. split; [tauto|]. intros [?|[-> _]]; [done|lia].
  - rewrite lookup_app_r by lia. split.
    + intros (e & He & Hcb). right.
      destruct (N.to_nat (p - 1) - length (storage_ m))%nat as [|k] eqn:Ek;
        simpl in He; [|done]. injection He as <-. simpl in Hcb.
      split; [lia|congruence].
    + intros [(e & He & _)|[-> ->]].
      * apply lookup_lt_Some in He. lia.
      * replace (N.to_nat (N.of_nat (S (length (storage_ m))) - 1)
                 - length (storage_ m))%nat with 0%nat by lia.
        by eexists.
Qed.

Lemma owner_of_storage m m' p c :
  storage_ m' = storage_ m → owner_of m' p c ↔ owner_of m p c.
Proof. intros Hs. unfold owner_of, event_at. by rewrite Hs. Qed.

Lemma accept_loop_owned pending : ∀ m w m' w',
  owned m w →
  Redis.accept_loop FLAGS_linked_ske PingCommand_new pending m w = Ok (m', w') →
  owned m' w'.
Proof.
  induction pending as [|[conn_fd|errno] rest IH]; intros m w m' w' Hown; simpl.
  - intros [= <- <-]. by eapply owned_same; [| | |exact Hown].
  - case_decide; [|done].
    destruct (Redis.StartPolling _ _ conn_fd m _) as [[m2 w2]|] eqn:E; [|done].
    rewrite bind_Ok. apply StartPolling_inv in E as (Hs & Hn & Hc).
    apply IH. clear IH. destruct Hown as (O1 & O2 & O3 & O4).
    set (nc := next_conn w) in *.
    assert (Hfresh : counts w nc = None).
    { destruct (counts w nc) as [n|] eqn:E; [|done].
      destruct (O2 nc n E) as [_ ?]. lia. }
    assert (Hcounts : ∀ c', counts (release nc w2) c' =
              if decide (c' = nc) then Some 1%nat else counts w c').
    { intros c'. pose proof (Hc nc) as Hnc. pose proof (Hc c') as Hc'.
      unfold counts in *. rewrite lookup_update_conn in Hnc, Hc'.
      rewrite decide_True in Hnc by done. simpl in Hnc, Hc'.
      rewrite lookup_insert_eq in Hnc. simpl in Hnc.
      unfold release; simpl.
      destruct (conns w2 !! nc) as [x|] eqn:Ex; [|done].
      injection Hnc as Hx.
      rewrite (decide_False (P := (use_count x ≤ 1)%nat)) by lia.
      destruct (decide (c' = nc)) as [-> | Ec].
      - rewrite lookup_insert_eq. simpl. f_equal. lia.
      - rewrite lookup_insert_ne by done. rewrite Hc'.
        rewrite decide_False by done. by rewrite lookup_insert_ne. }
    assert (Ho : ∀ p c', owner_of m2 p c' ↔
              owner_of m p c' ∨ (p = N.of_nat (S (length (storage_ m))) ∧ c' = nc)).
    { intros p c'. rewrite <- owner_of_new.
      apply owner_of_storage. by rewrite Hs. }
    assert (Hold : ∀ p c', owner_of m p c' → c' ≠ nc).
    { intros p c' Hp ->. destruct (O1 p nc Hp) as [n Hn']. congruence. }
    assert (Hnew : ∀ c', ¬ owner_of m (N.of_nat (S (length (storage_ m)))) c').
    { intros c' (e & He & _). unfold event_at in He.
      case_decide; [done|]. apply lookup_lt_Some in He. lia. }
    unfold owned. setoid_rewrite Ho. setoid_rewrite Hcounts.
    change (next_conn (release nc w2)) with (next_conn w2). rewrite Hn.
    split_and!.
    + intros p c' [Hp|[-> ->]].
      * rewrite decide_False by (by eapply Hold). by eapply O1.
      * by rewrite decide_True.
    + intros c' n. case_decide.
      * intros [= <-]. split; [done|simpl; lia].
      * intros Hn'. destruct (O2 c' n Hn'). split; [done|simpl; lia].
    + intros p1 p2 c' [H1|[Hp1 Hc1]] [H2|[Hp2 Hc2]].
      * by eapply O3.
      * by destruct (Hold _ _ H1).
      * by destruct (Hold _ _ H2).
      * congruence.
    + intros c'. case_decide as Ec.
      * intros _. subst c'. eexists. right. done.
      * intros Hal. destruct (O4 c' Hal) as [p Hp]. exists p. by left.
  - case_decide; [|done]. intros [= <- <-].
    by eapply owned_same; [| | |exact Hown].
Qed.

Abbreviation invoke := (Redis.invoke FLAGS_linked_ske Decode PingCommand_new).

Lemma invoke_owned cb res event m w m' w' e :
  event_at m event = Some e → cb_ e = Some cb →
  owned m w → invoke cb res event m w = Ok (m', w') → owned m' w'.
Proof.
  intros He Hcb Hown. destruct cb as [|c]; simpl.
  - unfold Redis.HandleAccept. case_decide; [|done].
    destruct (Redis.accept_loop _ _ _ m w) as [[m1 w1]|] eqn:E1; [|done].
    rewrite bind_Ok.
    destruct (AddPollIn event m1) as [m2|] eqn:E2; [|done]. rewrite bind_Ok.
    apply AddPollIn_inv in E2 as (e' & _ & ->). intros [= <- <-].
    apply accept_loop_owned in E1; [|done].
    by eapply owned_same; [| | |exact E1].
  - by apply Handle_owned with e.
Qed.

Lemma drain_owned batch : ∀ m w log m' w' log',
  owned m w → drain invoke batch m w log = Ok (m', w', log') → owned m' w'.
Proof.
  induction batch as [|cqe batch IH]; intros m w log m' w' log' Hown; simpl.
  - by intros [= <- <- <-].
  - set (m1 := with_ring (io_uring_cq_advance 1) m).
    assert (Hown1 : owned m1 w) by (by eapply owned_same; [| | |exact Hown]).
    case_decide; [by apply IH|].
    destruct (URingEvent_Run invoke _ _ m1 w) as [[m2 w2]|] eqn:E; [|done].
    rewrite bind_Ok. apply IH. unfold URingEvent_Run in E.
    destruct (event_at m1 _) as [e|] eqn:He; [|done].
    destruct (cb_ e) as [cb|] eqn:Hcb; [|done].
    by eapply invoke_owned.
Qed.

(** X11. Ownership is kept by the whole drain loop, whatever the kernel
    reports: if, at the start, every connection callback refers to a live
    connection and every live connection is held by exactly one callback
    with reference count 1, the same holds whenever [Run] stops.  So a
    handler never runs on a destroyed connection, and clearing the
    callback on close destroys the connection. *)
Theorem Run_keeps_ownership (turns : list kernel_turn) m w
    (en : run_end) m' w' (log : list (N * Z)) :
  owned m w →
  Run invoke turns m w [] = Ok (en, m', w', log) →
  owned m' w'.
Proof.
  generalize (@nil (N * Z)) as log0. revert m w.
  induction turns as [|t turns IH]; intros m w log0 Hown; simpl.
  - by intros [= <- <- <- <-].
  - case_decide; [done|]. case_decide.
    + case_decide; [|done]. intros [= <- <- <- <-].
      by eapply owned_same; [| | |exact Hown].
    + case_decide; [|done].
      destruct (drain invoke _ _ w log0) as [[[m3 w3] log3]|] eqn:E; [|done].
      rewrite bind_Ok. apply IH. eapply drain_owned; [|exact E].
      by eapply owned_same; [| | |exact Hown].
Qed.

End Handler.

Lemma demo_owned : owned Redis.demo_manager Redis.demo_world.
Proof.
  unfold owned, owner_of, counts. split_and!.
  - intros p c (e & He & Hcb). unfold event_at in He. case_decide; [done|].
    simpl in He. destruct (N.to_nat (p - 1)) as [|[|k]]; simpl in He; try done.
    injection He as <-. done.
  - intros c n. simpl. by rewrite lookup_empty.
  - intros p1 p2 c (e & He & Hcb). unfold event_at in He. case_decide; [done|].
    simpl in He. destruct (N.to_nat (p1 - 1)) as [|[|k]]; simpl in He; try done.
    injection He as <-. done.
  - intros c [n Hn]. simpl in Hn. by rewrite lookup_empty in Hn.
Qed.

Lemma Run_keeps_ownership_witness :
  ∃ m' w',
    Run (Redis.invoke false Redis.demo_decode tt) (take 2 Redis.demo_script)
      Redis.demo_manager Redis.demo_world [] =
      Ok (Waiting, m', w', [(1%N, 1); (2%N, 1)]) ∧
    owned m' w'.
Proof.
  eexists _, _. split; [vm_compute; reflexivity|].
  eapply (Run_keeps_ownership false Redis.demo_decode tt (take 2 Redis.demo_script)
            Redis.demo_manager Redis.demo_world _ _ _ _ demo_owned).
  vm_compute. reflexivity.
Defined.

Lemma Handle_submits_one_tagged_request_witness :
  ∃ m' w',
    Redis.Handle false Redis.demo_decode 100 5 2
      Redis.reading_manager Redis.reading_world = Ok (m', w') ∧
    sq (ring_ m') = [mk_sqe (op_recvmsg 9) 0 2].
Proof.
  destruct (Handle_submits_one_tagged_request false Redis.demo_decode 100 5 2
              Redis.reading_manager Redis.reading_world
              {| fd_ := 9; cb_ := Some (cb_Handle 100) |}
              {| state_ := READ; cmd_ := tt; use_count := 1 |}
              eq_refl eq_refl eq_refl)
    as (m' & w' & linked & conn' & H1 & H2 & [-> | (? & _)] & _).
  - unfold room; simpl; lia.
  - by exists m', w'.
  - done.
Defined.

End RedisFacts.

(** ** The pipeline: what a run keeps, and how it ends *)

Module PipelineFacts.
Import Pipeline.

Section Run.

Variable map_limit : Z.
Variable decode : FileInput → list string.

Abbreviation step := (Pipeline.step map_limit decode).
Abbreviation exec := (Pipeline.exec map_limit decode).

(** Every way in which one step of a run changes the state of one
    reactor. *)
Inductive local_step (p : PerIoStruct) : PerIoStruct → Prop :=
| ls_loop_head :
    process_fd p = W_loop_head →
    local_step p (set_worker (if stop_early p then W_finished else W_in_pop) p)
| ls_pop f :
    process_fd p = W_in_pop →
    local_step p (set_processed (processed p ++ [f])
                    (set_worker (W_process_file (decode f)) p))
| ls_pop_closed :
    process_fd p = W_in_pop → local_step p (set_worker W_finished p)
| ls_file_done :
    process_fd p = W_process_file [] → local_step p (set_worker W_loop_head p)
| ls_push_closed r rest :
    process_fd p = W_process_file (r :: rest) →
    is_closed (record_q p) = true →
    local_step p (set_worker (W_process_file rest) p)
| ls_push r rest :
    process_fd p = W_process_file (r :: rest) →
    is_closed (record_q p) = false →
    (length (items (record_q p)) < capacity (record_q p))%nat →
    local_step p (set_record_q (set_items (items (record_q p) ++ [r]) (record_q p))
                    (set_worker (W_process_file rest) p))
| ls_map r rest :
    map_fd p = Mp_running → items (record_q p) = r :: rest →
    local_step p (set_record_q (set_items rest (record_q p))
                    (set_mapper Mp_running (map_iter map_limit (map_st p) r) p))
| ls_map_done :
    map_fd p = Mp_running → items (record_q p) = [] →
    is_closed (record_q p) = true →
    local_step p (set_mapper Mp_finished (map_st p) p)
| ls_join_workers :
    shutdown_fb p = S_join_workers → process_fd p = W_finished →
    local_step p (set_shutdown S_start_closing p)
| ls_start_closing :
    shutdown_fb p = S_start_closing →
    local_step p (set_shutdown S_join_mapper
                    (set_record_q (close (record_q p)) p))
| ls_join_mapper :
    shutdown_fb p = S_join_mapper → map_fd p = Mp_finished →
    local_step p (set_shutdown S_flush p)
| ls_flush :
    shutdown_fb p = S_flush →
    local_step p (set_shutdown S_done (set_flushed p))
| ls_stop_flag : local_step p (set_stop_early p)
| ls_dispatch : local_step p (set_shutdown S_join_workers p).

Lemma insert_local (l : list PerIoStruct) j pj q :
  l !! j = Some pj → local_step pj q →
  ∀ i p1, <[j:=q]> l !! i = Some p1 →
    ∃ p, l !! i = Some p ∧ (p1 = p ∨ local_step p p1).
Proof.
  intros Hj Hls i p1 H.
  apply list_lookup_insert_Some in H as [(-> & <- & _)|[Hne H]].
  - exists pj. split; [done|by right].
  - exists p1. split; [done|by left].
Qed.

Lemma same_local (l : list PerIoStruct) :
  ∀ i p1, l !! i = Some p1 → ∃ p, l !! i = Some p ∧ (p1 = p ∨ local_step p p1).
Proof. intros i p1 H. exists p1. split; [done|by left]. Qed.

(** Each step is, for every reactor, either no change or one local
    step. *)
Lemma exec_local l e e1 :
  exec l e = Some e1 →
  ∀ i p1, per_io_ e1 !! i = Some p1 →
    ∃ p, per_io_ e !! i = Some p ∧ (p1 = p ∨ local_step p p1).
Proof.
  destruct l as [j|j|j| | |j]; simpl; intros Hl.
  - unfold ProcessFiles_step in Hl.
    destruct (per_io_ e !! j) as [pj|] eqn:Hj; [simpl in Hl|done].
    destruct (process_fd pj) as [| |[|r rest]|] eqn:Hpc.
    + injection Hl as <-. apply (insert_local _ _ pj); [done|]. by constructor.
    + destruct (file_name_q_ e) as [q|]; [simpl in Hl|done].
      destruct (items q) as [|f rest].
      * destruct (is_closed q); [|done]. injection Hl as <-.
        apply (insert_local _ _ pj); [done|]. by constructor.
      * injection Hl as <-. apply (insert_local _ _ pj); [done|]. by constructor.
    + injection Hl as <-. apply (insert_local _ _ pj); [done|]. by constructor.
    + destruct (is_closed (record_q pj)) eqn:Hc.
      * injection Hl as <-. apply (insert_local _ _ pj); [done|].
        by eapply ls_push_closed.
      * case_decide; [|done]. injection Hl as <-.
        apply (insert_local _ _ pj); [done|]. by apply ls_push.
    + done.
  - unfold MapFiber_step in Hl.
    destruct (per_io_ e !! j) as [pj|] eqn:Hj; [simpl in Hl|done].
    destruct (map_fd pj) eqn:Hm; [|done].
    destruct (items (record_q pj)) as [|r rest] eqn:Hi.
    + destruct (is_closed (record_q pj)) eqn:Hc; [|done]. injection Hl as <-.
      apply (insert_local _ _ pj); [done|]. by constructor.
    + injection Hl as <-. apply (insert_local _ _ pj); [done|]. by constructor.
  - unfold Shutdown_step in Hl.
    destruct (per_io_ e !! j) as [pj|] eqn:Hj; [simpl in Hl|done].
    destruct (shutdown_fb pj) eqn:Hs; try done.
    + destruct (process_fd pj) eqn:Hw; try done. injection Hl as <-.
      apply (insert_local _ _ pj); [done|]. by constructor.
    + injection Hl as <-. apply (insert_local _ _ pj); [done|]. by constructor.
    + destruct (map_fd pj) eqn:Hm; [done|]. injection Hl as <-.
      apply (insert_local _ _ pj); [done|]. by constructor.
    + injection Hl as <-. apply (insert_local _ _ pj); [done|]. by constructor.
  - unfold Run_step in Hl. destruct (run_fb e) as [[|f files]| | | |].
    + injection Hl as <-. apply same_local.
    + destruct (file_name_q_ e) as [q|]; [simpl in Hl|done].
      destruct (is_closed q).
      * injection Hl as <-. apply same_local.
      * case_decide; [|done]. injection Hl as <-. apply same_local.
    + destruct (file_name_q_ e) as [q|]; [simpl in Hl|done].
      injection Hl as <-. apply same_local.
    + injection Hl as <-. simpl. intros i p1 H.
      rewrite list_lookup_fmap in H.
      destruct (per_io_ e !! i) as [p|]; [|done]. injection H as <-.
      exists p. split; [done|]. right. constructor.
    + case_bool_decide; [|done]. injection Hl as <-. apply same_local.
    + done.
  - unfold stop_close_step in Hl.
    destruct (file_name_q_ e) as [q|]; [simpl in Hl|done].
    injection Hl as <-. apply same_local.
  - unfold stop_flag_step, Stop_callback in Hl.
    destruct (file_name_q_ e) as [q|]; [simpl in Hl|done].
    destruct (per_io_ e !! j) as [pj|] eqn:Hj; [simpl in Hl|done].
    destruct (decide (per_io_null pj)); [done|].
    injection Hl as <-. apply (insert_local _ _ pj); [done|]. constructor.
Qed.

(** What a worker still has to push. *)
Definition pending (pc : worker_pc) : list string :=
  match pc with W_process_file rest => rest | _ => [] end.

(** The records decoded from the files a worker took, in order. *)
Definition decoded (p : PerIoStruct) : list string :=
  concat (decode <$> processed p).

(** What holds of every reactor throughout a run: the record queue is
    within its 256 slots; it is closed only after the worker finished; a
    finished mapper has seen the queue closed and empty; and the records
    decoded so far are those the mapper has handled, those queued and
    those the worker still holds, in this order. *)
Definition local_inv (p : PerIoStruct) : Prop :=
  capacity (record_q p) = 256%nat ∧
  (length (items (record_q p)) ≤ 256)%nat ∧
  (is_closed (record_q p) = true → process_fd p = W_finished) ∧
  (map_fd p = Mp_finished →
     is_closed (record_q p) = true ∧ items (record_q p) = []) ∧
  ((1 ≤ events_done (shutdown_fb p))%nat → process_fd p = W_finished) ∧
  ∃ popped,
    map_st p = MapFiber map_limit popped ∧
    popped ++ items (record_q p) ++ pending (process_fd p) = decoded p.

Lemma local_inv_new i : local_inv (PerIoStruct_new i).
Proof.
  unfold local_inv; simpl. split_and!; try done; try lia.
  by exists [].
Qed.

Lemma local_step_inv p p1 : local_step p p1 → local_inv p → local_inv p1.
Proof.
  intros Hs (C & L & K & M & J & popped & Hm & Hd).
  unfold local_inv, decoded in *.
  destruct Hs; simpl in *;
    (split_and!;
     [ try done; try lia; try congruence;
       try (intros Hc; first [ specialize (K Hc) | specialize (J Hc)
                             | destruct (M Hc) ]; congruence);
       try (intros _; apply J; rewrite H; simpl; lia);
       try (intros Hc; destruct (M Hc); done);
       try (rewrite H0 in L; simpl in L; lia);
       try (rewrite ?length_app; simpl; lia) .. | ]).
  - exists popped. split; [done|]. rewrite <- Hd, H.
    by destruct (stop_early p).
  - exists popped. split; [done|].
    rewrite fmap_app, concat_app. simpl. rewrite app_nil_r.
    rewrite <- Hd, H. simpl. by rewrite app_nil_r, !app_assoc.
  - exists popped. split; [done|]. by rewrite <- Hd, H.
  - exists popped. split; [done|]. by rewrite <- Hd, H.
  - specialize (K H0). congruence.
  - exists popped. split; [done|]. rewrite <- Hd, H. simpl.
    by rewrite <- !app_assoc.
  - exists (popped ++ [r]). split.
    + by rewrite MapFiber_snoc, Hm.
    + rewrite <- Hd, H0. by rewrite <- !app_assoc.
  - by exists popped.
  - by exists popped.
  - by exists popped.
  - by exists popped.
  - by exists popped.
  - by exists popped.
  - by exists popped.
Qed.

Lemma exec_local_inv l e e1 :
  exec l e = Some e1 →
  (∀ i p, per_io_ e !! i = Some p → local_inv p) →
  ∀ i p, per_io_ e1 !! i = Some p → local_inv p.
Proof.
  intros Hl Hinv i p1 H1.
  destruct (exec_local l e e1 Hl i p1 H1) as (p & Hp & [-> | Hs]).
  - by eapply Hinv.
  - eapply local_step_inv; [done|]. by eapply Hinv.
Qed.

Lemma rtc_local_inv e e' :
  rtc step e e' →
  (∀ i p, per_io_ e !! i = Some p → local_inv p) →
  ∀ i p, per_io_ e' !! i = Some p → local_inv p.
Proof.
  induction 1 as [|e e1 e2 [l Hl] _ IH]; [done|].
  intros Hinv. apply IH. by eapply exec_local_inv.
Qed.

Lemma Run_start_local_inv reactors files i p :
  per_io_ (Run_start reactors files) !! i = Some p → local_inv p.
Proof.
  simpl. rewrite list_lookup_fmap.
  destruct (seq 0 reactors !! i); [|done]. intros [= <-]. apply local_inv_new.
Qed.

(** **** Which files are processed *)

(** The file names waiting in the queue, and those [Run] has still to
    push. *)
Definition fq_items (e : Executor) : list FileInput :=
  match file_name_q_ e with Some q => items q | None => [] end.

Definition to_push (pc : run_pc) : list FileInput :=
  match pc with R_push files => files | _ => [] end.

(** The files [ProcessFile] was called on, over all reactors. *)
Definition taken (l : list PerIoStruct) : list FileInput :=
  concat (processed <$> l).

Definition account (e : Executor) : list FileInput :=
  taken (per_io_ e) ++ fq_items e ++ to_push (run_fb e).

(** The two places where file names are discarded: the push loop finds
    the queue closed, or [file_name_q_.reset()] frees a queue that still
    holds names. *)
Definition lossy (e : Executor) : Prop :=
  (∃ f files q, run_fb e = R_push (f :: files) ∧
                file_name_q_ e = Some q ∧ is_closed q = true) ∨
  (run_fb e = R_shutdown ∧ fq_items e ≠ [] ∧
   Forall (λ p, shutdown_fb p = S_done) (per_io_ e)).

Lemma taken_insert l j pj q extra :
  l !! j = Some pj → processed q = processed pj ++ extra →
  taken (<[j:=q]> l) ≡ₚ taken l ++ extra.
Proof.
  intros Hj Hq. unfold taken.
  rewrite <- (take_drop_middle l j pj Hj) at 2.
  rewrite insert_take_drop by (by eapply lookup_lt_Some).
  rewrite !fmap_app, !fmap_cons, !concat_app, !concat_cons, Hq.
  rewrite <- !app_assoc. do 2 f_equiv. apply Permutation_app_comm.
Qed.

Lemma taken_fmap_set_shutdown pc l :
  taken (set_shutdown pc <$> l) = taken l.
Proof. unfold taken. by rewrite <- list_fmap_compose. Qed.

Definition reactor_label (l : label) : option nat :=
  match l with
  | L_worker i | L_mapper i | L_shutdown i | L_stop_flag i => Some i
  | L_run | L_stop_close => None
  end.

(** What a step taken on reactor [j] does to the file queue and to the
    reactor's worker: it leaves the queue alone, or it is the worker's
    successful [pop]. *)
Lemma reactor_step_files l j e e1 :
  reactor_label l = Some j → exec l e = Some e1 →
  run_fb e1 = run_fb e ∧
  ∃ pj q,
    per_io_ e !! j = Some pj ∧ per_io_ e1 = <[j:=q]> (per_io_ e) ∧
    (stop_early q = stop_early pj ∨ l = L_stop_flag j) ∧
    ((file_name_q_ e1 = file_name_q_ e ∧ processed q = processed pj ∧
      (process_fd q = W_finished →
         process_fd pj = W_finished ∨ stop_early pj = true ∨
         ∃ fq, file_name_q_ e = Some fq ∧ items fq = [] ∧ is_closed fq = true))
     ∨
     (∃ fq f rest,
        file_name_q_ e = Some fq ∧ items fq = f :: rest ∧
        file_name_q_ e1 = Some (set_items rest fq) ∧
        processed q = processed pj ++ [f] ∧ process_fd q ≠ W_finished)).
Proof.
  destruct l as [i|i|i| | |i]; simpl; try done; intros [= ->] Hl.
  - unfold ProcessFiles_step in Hl.
    destruct (per_io_ e !! j) as [pj|] eqn:Hj; [simpl in Hl|done].
    destruct (process_fd pj) as [| |[|r rest]|] eqn:Hpc.
    + injection Hl as <-. split; [done|]. eexists pj, _.
      split_and!; [done|done|by left|]. left. split_and!; [done|done|].
      simpl. destruct (stop_early pj); [auto|done].
    + destruct (file_name_q_ e) as [fq|] eqn:Hq; [simpl in Hl|done].
      destruct (items fq) as [|f rest] eqn:Hi.
      * destruct (is_closed fq) eqn:Hc; [|done]. injection Hl as <-.
        split; [done|]. eexists pj, _.
        split_and!; [done|done|by left|]. left. split_and!; [done|done|].
        intros _. right. right. by exists fq.
      * injection Hl as <-. split; [done|]. eexists pj, _.
        split_and!; [done|done|by left|]. right. by exists fq, f, rest.
    + injection Hl as <-. split; [done|]. eexists pj, _.
      split_and!; [done|done|by left|]. by left.
    + destruct (is_closed (record_q pj)).
      * injection Hl as <-. split; [done|]. eexists pj, _.
        split_and!; [done|done|by left|]. by left.
      * case_decide; [|done]. injection Hl as <-. split; [done|].
        eexists pj, _. split_and!; [done|done|by left|]. by left.
    + done.
  - unfold MapFiber_step in Hl.
    destruct (per_io_ e !! j) as [pj|] eqn:Hj; [simpl in Hl|done].
    destruct (map_fd pj); [|done].
    destruct (items (record_q pj)) as [|r rest].
    + destruct (is_closed (record_q pj)); [|done]. injection Hl as <-.
      split; [done|]. eexists pj, _.
      split_and!; [done|done|by left|]. left. split_and!; [done|done|auto].
    + injection Hl as <-. split; [done|]. eexists pj, _.
      split_and!; [done|done|by left|]. left. split_and!; [done|done|auto].
  - unfold Shutdown_step in Hl.
    destruct (per_io_ e !! j) as [pj|] eqn:Hj; [simpl in Hl|done].
    destruct (shutdown_fb pj); try done.
    + destruct (process_fd pj); try done. injection Hl as <-.
      split; [done|]. eexists pj, _.
      split_and!; [done|done|by left|]. left. split_and!; [done|done|auto].
    + injection Hl as <-. split; [done|]. eexists pj, _.
      split_and!; [done|done|by left|]. left. split_and!; [done|done|auto].
    + destruct (map_fd pj); [done|]. injection Hl as <-.
      split; [done|]. eexists pj, _.
      split_and!; [done|done|by left|]. left. split_and!; [done|done|auto].
    + injection Hl as <-. split; [done|]. eexists pj, _.
      split_and!; [done|done|by left|]. left. split_and!; [done|done|auto].
  - unfold stop_flag_step, Stop_callback in Hl.
    destruct (file_name_q_ e) as [fq|] eqn:Hq; [simpl in Hl|done].
    destruct (per_io_ e !! j) as [pj|] eqn:Hj; [simpl in Hl|done].
    destruct (decide (per_io_null pj)); [done|].
    injection Hl as <-. split; [done|]. eexists pj, _.
    split_and!; [done|done|by right|]. left. split_and!; [done|done|auto].
Qed.

Lemma fq_items_eq e e1 :
  file_name_q_ e1 = file_name_q_ e → fq_items e1 = fq_items e.
Proof. unfold fq_items. by intros ->. Qed.

(** Every step keeps the files accounted for, or is one of the two that
    discard names. *)
Lemma exec_account l e e1 :
  exec l e = Some e1 →
  account e1 ≡ₚ account e ∨ (account e1 ⊆+ account e ∧ lossy e).
Proof.
  intros Hl. destruct (reactor_label l) as [j|] eqn:Hlab.
  - left.
    destruct (reactor_step_files l j e e1 Hlab Hl)
      as (Hrun & pj & q & Hj & Hio & _ & [(Hfq & Hpr & _)|Hpop]).
    + unfold account. rewrite Hrun, Hio, (fq_items_eq e e1 Hfq).
      rewrite (taken_insert _ j pj q []) by (by rewrite ?app_nil_r).
      by rewrite app_nil_r.
    + destruct Hpop as (fq & f & rest & Hq & Hi & Hq1 & Hpr & _).
      unfold account, fq_items. rewrite Hrun, Hio, Hq, Hq1, Hi.
      rewrite (taken_insert _ j pj q [f]) by done. simpl.
      by rewrite <- !app_assoc.
  - destruct l; try done; simpl in Hl.
    + unfold Run_step in Hl.
      destruct (run_fb e) as [[|f files]| | | |] eqn:Hr.
      * injection Hl as <-. left. unfold account, fq_items. simpl. by rewrite Hr.
      * destruct (file_name_q_ e) as [q|] eqn:Hq; [simpl in Hl|done].
        destruct (is_closed q) eqn:Hc.
        -- injection Hl as <-. right. split.
           ++ unfold account, fq_items. simpl. rewrite Hr, Hq. simpl.
              apply submseteq_app; [done|]. apply submseteq_app; [done|].
              apply submseteq_nil_l.
           ++ left. by exists f, files, q.
        -- case_decide; [|done]. injection Hl as <-. left.
           unfold account, fq_items. simpl. rewrite Hr, Hq. simpl.
           by rewrite <- !app_assoc.
      * destruct (file_name_q_ e) as [q|] eqn:Hq; [simpl in Hl|done].
        injection Hl as <-. left. unfold account, fq_items. simpl.
        by rewrite Hr, Hq.
      * injection Hl as <-. left. unfold account, fq_items. simpl.
        by rewrite Hr, taken_fmap_set_shutdown.
      * case_bool_decide as Hall; [|done]. injection Hl as <-.
        destruct (fq_items e) as [|f rest] eqn:Hi.
        -- left. unfold account. rewrite Hi. unfold fq_items. simpl.
           by rewrite Hr.
        -- right. split.
           ++ unfold account. rewrite Hi. unfold fq_items. simpl. rewrite Hr.
              apply submseteq_app; [done|]. apply submseteq_nil_l.
           ++ right. by rewrite Hi.
      * done.
    + unfold stop_close_step in Hl.
      destruct (file_name_q_ e) as [q|] eqn:Hq; [simpl in Hl|done].
      injection Hl as <-. left. unfold account, fq_items. simpl. by rewrite Hq.
Qed.

Lemma rtc_account e e' : rtc step e e' → account e' ⊆+ account e.
Proof.
  induction 1 as [|e e1 e2 [l Hl] _ IH]; [done|].
  etrans; [apply IH|].
  destruct (exec_account l e e1 Hl) as [Hp|[Hs _]]; [by rewrite Hp|done].
Qed.

(** The file queue keeps its 16 slots. *)
Definition fq_bounded (e : Executor) : Prop :=
  ∀ q, file_name_q_ e = Some q →
       capacity q = 16%nat ∧ (length (items q) ≤ 16)%nat.

Lemma exec_fq_bounded l e e1 :
  exec l e = Some e1 → fq_bounded e → fq_bounded e1.
Proof.
  intros Hl Hb. destruct (reactor_label l) as [j|] eqn:Hlab.
  - destruct (reactor_step_files l j e e1 Hlab Hl)
      as (_ & pj & q & _ & _ & _ & [(Hfq & _)|Hpop]).
    + unfold fq_bounded. by rewrite Hfq.
    + destruct Hpop as (fq & f & rest & Hq & Hi & Hq1 & _).
      intros q1. rewrite Hq1. intros [= <-]. simpl.
      destruct (Hb fq Hq) as [Hc Hlen]. rewrite Hi in Hlen. simpl in Hlen.
      split; [done|lia].
  - destruct l; try done; simpl in Hl.
    + unfold Run_step in Hl.
      destruct (run_fb e) as [[|f files]| | | |] eqn:Hr.
      * by injection Hl as <-.
      * destruct (file_name_q_ e) as [q|] eqn:Hq; [simpl in Hl|done].
        destruct (is_closed q) eqn:Hc.
        -- injection Hl as <-. exact Hb.
        -- case_decide as Hlt; [|done]. injection Hl as <-.
           intros q1. simpl. intros [= <-]. simpl.
           destruct (Hb q Hq) as [Hcap Hlen]. rewrite length_app. simpl.
           split; [done|lia].
      * destruct (file_name_q_ e) as [q|] eqn:Hq; [simpl in Hl|done].
        injection Hl as <-. intros q1. simpl. intros [= <-]. simpl.
        by apply Hb.
      * by injection Hl as <-.
      * case_bool_decide; [|done]. by injection Hl as <-.
      * done.
    + unfold stop_close_step in Hl.
      destruct (file_name_q_ e) as [q|] eqn:Hq; [simpl in Hl|done].
      injection Hl as <-. intros q1. simpl. intros [= <-]. simpl.
      by apply Hb.
Qed.

Lemma rtc_fq_bounded e e' : rtc step e e' → fq_bounded e → fq_bounded e'.
Proof.
  induction 1 as [|e e1 e2 [l Hl] _ IH]; [done|].
  intros Hb. apply IH. by eapply exec_fq_bounded.
Qed.

Lemma exec_length l e e1 :
  exec l e = Some e1 → length (per_io_ e1) = length (per_io_ e).
Proof.
  intros Hl. destruct (reactor_label l) as [j|] eqn:Hlab.
  - destruct (reactor_step_files l j e e1 Hlab Hl)
      as (_ & pj & q & _ & Hio & _).
    by rewrite Hio, length_insert.
  - destruct l; try done; simpl in Hl.
    + unfold Run_step in Hl.
      destruct (run_fb e) as [[|f files]| | | |] eqn:Hr.
      * by injection Hl as <-.
      * destruct (file_name_q_ e) as [q|]; [simpl in Hl|done].
        destruct (is_closed q); [by injection Hl as <-|].
        case_decide; [|done]. by injection Hl as <-.
      * destruct (file_name_q_ e) as [q|]; [simpl in Hl|done].
        by injection Hl as <-.
      * injection Hl as <-. simpl. by rewrite length_fmap.
      * case_bool_decide; [|done]. by injection Hl as <-.
      * done.
    + unfold stop_close_step in Hl.
      destruct (file_name_q_ e) as [q|]; [simpl in Hl|done].
      by injection Hl as <-.
Qed.

(** **** Runs in which [Stop] is not called *)

Definition stop_label (l : label) : bool :=
  match l with L_stop_close | L_stop_flag _ => true | _ => false end.

Definition run_step (e e1 : Executor) : Prop :=
  ∃ l, stop_label l = false ∧ exec l e = Some e1.

Lemma run_step_step e e1 : run_step e e1 → step e e1.
Proof. intros (l & _ & Hl). by exists l. Qed.

Lemma rtc_run_step_step e e1 : rtc run_step e e1 → rtc step e e1.
Proof. apply rtc_subrel. intros x y. apply run_step_step. Qed.

Fixpoint run_all (ls : list label) (e : Executor) : option Executor :=
  match ls with
  | [] => Some e
  | l :: ls' => if stop_label l then None else e' ← exec l e; run_all ls' e'
  end.

Lemma run_all_rtc ls e e' : run_all ls e = Some e' → rtc run_step e e'.
Proof.
  revert e. induction ls as [|l ls IH]; simpl; intros e H.
  - injection H as <-. apply rtc_refl.
  - destruct (stop_label l) eqn:Hs; [done|].
    destruct (exec l e) as [e1|] eqn:E; [simpl in H|done].
    eapply rtc_l; [by exists l|by apply IH].
Qed.

(** [Run] is past [file_name_q_->close()]. *)
Definition past_close (pc : run_pc) : Prop :=
  match pc with R_push _ | R_close => False | _ => True end.

(** Without [Stop]: no flag is set, the file queue is closed by [Run]
    only, and a worker has finished only when the queue was closed and
    drained. *)
Definition clean_inv (e : Executor) : Prop :=
  Forall (λ p, stop_early p = false) (per_io_ e) ∧
  (∀ q, file_name_q_ e = Some q → is_closed q = true → past_close (run_fb e)) ∧
  (∀ i p, per_io_ e !! i = Some p → process_fd p = W_finished →
          fq_items e = [] ∧ past_close (run_fb e)).

Lemma Run_start_clean reactors files : clean_inv (Run_start reactors files).
Proof.
  split_and!; simpl.
  - apply Forall_fmap, Forall_forall. done.
  - by intros q [= <-].
  - intros i p. rewrite list_lookup_fmap.
    destruct (seq 0 reactors !! i); [|done]. by intros [= <-].
Qed.

Lemma exec_clean l e e1 :
  stop_label l = false → exec l e = Some e1 → clean_inv e → clean_inv e1.
Proof.
  intros Hsl Hl (C1 & C2 & C3). destruct (reactor_label l) as [j|] eqn:Hlab.
  - destruct (reactor_step_files l j e e1 Hlab Hl)
      as (Hrun & pj & q & Hj & Hio & Hse & Hcase).
    assert (Hpj : stop_early pj = false).
    { rewrite Forall_lookup in C1. by apply (C1 j). }
    assert (Hsq : stop_early q = false).
    { destruct Hse as [Hse|Hse]; [congruence|]. by rewrite Hse in Hsl. }
    split_and!.
    + rewrite Hio. by apply Forall_insert.
    + rewrite Hrun.
      destruct Hcase as [(Hfq & _)|(fq & f & rest & Hq & Hi & Hq1 & _)].
      * by rewrite Hfq.
      * rewrite Hq1. intros q1 [= <-]. simpl. by apply C2.
    + rewrite Hrun, Hio. intros i p Hi Hfin.
      apply list_lookup_insert_Some in Hi as [(-> & <- & _)|[Hne Hi]].
      * destruct Hcase as [(Hfq & _ & Hw)|(fq & f & rest & _ & _ & _ & _ & Hnf)];
          [|done].
        rewrite (fq_items_eq e e1 Hfq).
        destruct (Hw Hfin) as [Hf|[Hs|(fq & Hq & Hi & Hc)]].
        -- by apply (C3 i pj).
        -- congruence.
        -- split; [unfold fq_items; by rewrite Hq|by apply (C2 fq)].
      * destruct (C3 i p Hi Hfin) as [He Hp]. split; [|done].
        destruct Hcase as [(Hfq & _)|(fq & f & rest & Hq & Hi' & _)].
        -- by rewrite (fq_items_eq e e1 Hfq).
        -- unfold fq_items in He. by rewrite Hq, Hi' in He.
  - destruct l; try done; simpl in Hl. unfold Run_step in Hl.
    destruct (run_fb e) as [[|f files]| | | |] eqn:Hr.
    + injection Hl as <-.
      split_and!; [done|intros q Hq Hc; destruct (C2 q Hq Hc)|].
      intros i p Hi Hf. by destruct (C3 i p Hi Hf) as [_ []].
    + destruct (file_name_q_ e) as [q|] eqn:Hq; [simpl in Hl|done].
      destruct (is_closed q) eqn:Hc; [by destruct (C2 q)|].
      case_decide; [|done]. injection Hl as <-. split_and!; [done| |].
      * simpl. intros q1 [= <-]. simpl. congruence.
      * intros i p Hi Hf. by destruct (C3 i p Hi Hf) as [_ []].
    + destruct (file_name_q_ e) as [q|] eqn:Hq; [simpl in Hl|done].
      injection Hl as <-. split_and!; [done|done|].
      intros i p Hi Hf. by destruct (C3 i p Hi Hf) as [_ []].
    + injection Hl as <-. split_and!; simpl.
      * apply Forall_fmap. by eapply Forall_impl.
      * done.
      * intros i p. rewrite list_lookup_fmap.
        destruct (per_io_ e !! i) as [p0|] eqn:Hp0; [|done]. intros [= <-] Hf.
        split; [|done]. by apply (C3 i p0).
    + case_bool_decide; [|done]. injection Hl as <-. by split_and!.
    + done.
Qed.

Lemma taken_new l : taken (PerIoStruct_new <$> l) = [].
Proof. unfold taken. induction l as [|i l IH]; [done|]. simpl. exact IH. Qed.

Lemma reachable_local_inv reactors files e i p :
  rtc step (Run_start reactors files) e →
  per_io_ e !! i = Some p → local_inv p.
Proof.
  intros Hr. apply (rtc_local_inv _ _ Hr).
  intros j q. apply Run_start_local_inv.
Qed.

Lemma finished_mapper p :
  local_inv p → map_fd p = Mp_finished →
  process_fd p = W_finished ∧ items (record_q p) = [] ∧
  map_st p = MapFiber map_limit (decoded p).
Proof.
  intros (_ & _ & K & M & _ & popped & Hm & Hd) Hf.
  destruct (M Hf) as [Hc Hi]. specialize (K Hc).
  rewrite Hi, K in Hd. simpl in Hd. rewrite app_nil_r in Hd.
  split_and!; [done|done|congruence].
Qed.

(** A reactor whose shutdown is complete has a finished worker. *)
Lemma done_worker_finished p :
  local_inv p → shutdown_fb p = S_done → process_fd p = W_finished.
Proof.
  intros (_ & _ & _ & _ & J & _) Hs. apply J. rewrite Hs. simpl. lia.
Qed.

Lemma clean_run_inv reactors files e :
  (0 < reactors)%nat → rtc run_step (Run_start reactors files) e →
  clean_inv e ∧ account e ≡ₚ files ∧ length (per_io_ e) = reactors.
Proof.
  intros Hpos. revert e. apply rtc_ind_r.
  - split_and!.
    + apply Run_start_clean.
    + unfold account. simpl. by rewrite taken_new.
    + simpl. by rewrite length_fmap, length_seq.
  - intros e e1 Hr (l & Hsl & Hl) (Hc & Ha & Hlen). split_and!.
    + by apply (exec_clean l e).
    + destruct (exec_account l e e1 Hl) as [Hp|[_ Hlossy]]; [by rewrite Hp|].
      exfalso. destruct Hc as (C1 & C2 & C3).
      destruct Hlossy as [(f & fs & q & Hrun & Hq & Hcl)|(Hrun & Hne & Hall)].
      * specialize (C2 q Hq Hcl). by rewrite Hrun in C2.
      * destruct (lookup_lt_is_Some_2 (per_io_ e) 0) as [p0 Hp0]; [lia|].
        apply Hne, (C3 0%nat p0 Hp0). apply done_worker_finished.
        -- apply (reachable_local_inv reactors files e 0 p0); [|done].
           by apply rtc_run_step_step.
        -- rewrite Forall_lookup in Hall. by apply (Hall 0%nat).
    + by rewrite (exec_length l e e1 Hl).
Qed.

(** X12. At every moment of every run, [Stop] or not, the records the
    mapper of a reactor has handled, those in the record queue and those
    its worker still holds make up, in this order, the records of the files
    the worker has taken.  So a mapper that has finished has been run on
    every record of these files, in order: no record is lost at
    shutdown. *)
Theorem mapper_sees_every_record reactors files e i p :
  rtc step (Run_start reactors files) e → per_io_ e !! i = Some p →
  (∃ popped,
     map_st p = MapFiber map_limit popped ∧
     popped ++ items (record_q p) ++ pending (process_fd p) =
       concat (decode <$> processed p)) ∧
  (map_fd p = Mp_finished →
     process_fd p = W_finished ∧ items (record_q p) = [] ∧
     map_st p = MapFiber map_limit (concat (decode <$> processed p))).
Proof.
  intros Hr Hp.
  pose proof (reachable_local_inv reactors files e i p Hr Hp) as Hinv.
  split.
  - by destruct Hinv as (_ & _ & _ & _ & _ & H).
  - by apply finished_mapper.
Qed.

(** X13. In every run the files processed on all reactors, the names in
    the file queue and those still to be pushed are together drawn from
    the input list without repetition: no file is processed twice, and
    nothing is processed that was not given to [Run]. *)
Theorem no_file_processed_twice reactors files e :
  rtc step (Run_start reactors files) e →
  taken (per_io_ e) ++ fq_items e ++ to_push (run_fb e) ⊆+ files.
Proof.
  intros Hr. pose proof (rtc_account _ _ Hr) as H.
  unfold account in H at 2. simpl in H. by rewrite taken_new in H.
Qed.

(** A reactor whose shutdown is complete: mapper finished on all records,
    context flushed. *)
Lemma done_reactor reactors files e i p :
  rtc step (Run_start reactors files) e →
  per_io_ e !! i = Some p → shutdown_fb p = S_done →
  map_st p = MapFiber map_limit (concat (decode <$> processed p)) ∧
  flushed p = true.
Proof.
  intros Hr Hp Hs.
  destruct (rtc_run_inv map_limit decode _ _ Hr (Run_start_inv reactors files))
    as [_ Hre].
  destruct (Hre i p Hp) as (_ & _ & _ & Hm & Hfl). rewrite Hs in Hm, Hfl.
  split; [|by apply Hfl]. apply finished_mapper.
  - by apply (reachable_local_inv reactors files e i p).
  - apply Hm. simpl. lia.
Qed.

Lemma returned_all_done reactors files e :
  rtc step (Run_start reactors files) e → run_fb e = R_done →
  ∀ i p, per_io_ e !! i = Some p → shutdown_fb p = S_done.
Proof.
  intros Hr Hdone.
  destruct (rtc_run_inv map_limit decode _ _ Hr (Run_start_inv reactors files))
    as [Hg _].
  unfold global_inv in Hg. rewrite Hdone in Hg. destruct Hg as (_ & _ & Hall).
  by rewrite Forall_lookup in Hall.
Qed.

(** Without [Stop], every input file has been taken when [Run] returns. *)
Lemma clean_run_files reactors files e :
  (0 < reactors)%nat →
  rtc run_step (Run_start reactors files) e → run_fb e = R_done →
  taken (per_io_ e) ≡ₚ files.
Proof.
  intros Hpos Hr Hdone.
  destruct (clean_run_inv reactors files e Hpos Hr) as ((C1 & C2 & C3) & Ha & Hlen).
  pose proof (rtc_run_step_step _ _ Hr) as Hr'.
  destruct (lookup_lt_is_Some_2 (per_io_ e) 0) as [p0 Hp0]; [lia|].
  assert (Hfq : fq_items e = []).
  { apply (C3 0%nat p0 Hp0). apply done_worker_finished.
    - by apply (reachable_local_inv reactors files e 0 p0).
    - by apply (returned_all_done reactors files e Hr' Hdone 0%nat). }
  unfold account in Ha. rewrite Hfq, Hdone in Ha. simpl in Ha.
  by rewrite app_nil_r in Ha.
Qed.

(** X14. When [Run] returns and [Stop] was not called (at least one
    reactor): the files processed on the reactors are the input files, each
    exactly once; and on each reactor the mapper has been run on all
    records of the reactor's files, in order, and the context has been
    flushed. *)
Theorem Run_processes_every_file reactors files e :
  (0 < reactors)%nat →
  rtc run_step (Run_start reactors files) e → run_fb e = R_done →
  taken (per_io_ e) ≡ₚ files ∧
  ∀ i p, per_io_ e !! i = Some p →
    map_st p = MapFiber map_limit (concat (decode <$> processed p)) ∧
    flushed p = true.
Proof.
  intros Hpos Hr Hdone. split.
  - by apply (clean_run_files reactors).
  - intros i p Hp. pose proof (rtc_run_step_step _ _ Hr) as Hr'.
    apply (done_reactor reactors files e i p Hr' Hp).
    by apply (returned_all_done reactors files e Hr' Hdone i).
Qed.

(** **** [Run] cannot get stuck *)

(** [file_name_q_] is set until [Run] resets it on its last line. *)
Definition fq_present (e : Executor) : Prop :=
  run_fb e ≠ R_done → is_Some (file_name_q_ e).

Lemma exec_fq_present l e e1 :
  exec l e = Some e1 → fq_present e → fq_present e1.
Proof.
  intros Hl Hb. destruct (reactor_label l) as [j|] eqn:Hlab.
  - destruct (reactor_step_files l j e e1 Hlab Hl)
      as (Hrun & pj & q & _ & _ & _ & [(Hfq & _)|Hpop]).
    + unfold fq_present. by rewrite Hrun, Hfq.
    + destruct Hpop as (fq & f & rest & _ & _ & Hq1 & _).
      intros _. by rewrite Hq1.
  - destruct l; try done; simpl in Hl.
    + unfold Run_step in Hl. unfold fq_present in *.
      destruct (run_fb e) as [[|f files]| | | |] eqn:Hr.
      * injection Hl as <-. simpl. intros _. by apply Hb.
      * destruct (file_name_q_ e) as [q|] eqn:Hq; [simpl in Hl|done].
        destruct (is_closed q) eqn:Hc.
        -- injection Hl as <-. simpl. by rewrite Hq.
        -- case_decide as Hlt; [|done]. by injection Hl as <-.
      * destruct (file_name_q_ e) as [q|] eqn:Hq; [simpl in Hl|done].
        by injection Hl as <-.
      * injection Hl as <-. simpl. intros _. by apply Hb.
      * case_bool_decide; [|done]. by injection Hl as <-.
      * done.
    + unfold stop_close_step in Hl.
      destruct (file_name_q_ e) as [q|] eqn:Hq; [simpl in Hl|done].
      injection Hl as <-. intros _. simpl. eauto.
Qed.

Lemma rtc_fq_present e e' : rtc step e e' → fq_present e → fq_present e'.
Proof.
  induction 1 as [|e e1 e2 [l Hl] _ IH]; [done|].
  intros Hb. apply IH. by eapply exec_fq_present.
Qed.

(** Some fiber of the program can take a step. *)
Definition enabled (e : Executor) : Prop :=
  ∃ l e1, stop_label l = false ∧ exec l e = Some e1.

(** A worker that has not finished can move, or else its mapper can,
    provided the file queue is not both empty and open. *)
Lemma worker_can_step e i p q :
  per_io_ e !! i = Some p → local_inv p → file_name_q_ e = Some q →
  (items q = [] → is_closed q = true) →
  process_fd p ≠ W_finished → enabled e.
Proof.
  intros Hp (Hcap & _ & _ & M & _) Hq Hne Hnf.
  destruct (process_fd p) as [| |[|r rest]|] eqn:Hpc.
  - exists (L_worker i). eexists. split; [done|]. simpl.
    unfold ProcessFiles_step. rewrite Hp. simpl. by rewrite Hpc.
  - exists (L_worker i). simpl. unfold ProcessFiles_step.
    rewrite Hp. simpl. rewrite Hpc, Hq. simpl.
    destruct (items q) as [|f rest]; [rewrite Hne by done|]; eauto.
  - exists (L_worker i). eexists. split; [done|]. simpl.
    unfold ProcessFiles_step. rewrite Hp. simpl. by rewrite Hpc.
  - destruct (is_closed (record_q p)) eqn:Hc.
    { exists (L_worker i). eexists. split; [done|]. simpl.
      unfold ProcessFiles_step. rewrite Hp. simpl. by rewrite Hpc, Hc. }
    destruct (decide (length (items (record_q p)) < capacity (record_q p))%nat)
      as [Hlt|Hfull].
    { exists (L_worker i). eexists. split; [done|]. simpl.
      unfold ProcessFiles_step. rewrite Hp. simpl. rewrite Hpc, Hc.
      by rewrite decide_True. }
    destruct (map_fd p) eqn:Hm.
    + exists (L_mapper i). simpl. unfold MapFiber_step.
      rewrite Hp. simpl. rewrite Hm.
      destruct (items (record_q p)) as [|r1 rest1]; [|eauto].
      rewrite Hcap in Hfull. simpl in Hfull. lia.
    + destruct (M eq_refl). congruence.
  - done.
Qed.

(** X15. No deadlock: in a run in which [Stop] is not called (at least one
    reactor), as long as [Run] has not returned some fiber can take a step;
    [Run] is never left waiting on a full queue or on a join that cannot
    complete. *)
Theorem Run_never_deadlocks reactors files e :
  (0 < reactors)%nat →
  rtc run_step (Run_start reactors files) e → run_fb e ≠ R_done →
  ∃ l e1, stop_label l = false ∧ exec l e = Some e1.
Proof.
  intros Hpos Hr Hnd. change (enabled e).
  destruct (clean_run_inv reactors files e Hpos Hr) as ((C1 & C2 & C3) & _ & Hlen).
  pose proof (rtc_run_step_step _ _ Hr) as Hr'.
  destruct (rtc_run_inv map_limit decode _ _ Hr' (Run_start_inv reactors files))
    as [Hg Hre].
  assert (Hfb : fq_bounded e).
  { apply (rtc_fq_bounded _ _ Hr'). intros q. simpl. intros [= <-].
    simpl. split; [done|lia]. }
  assert (Hfp : fq_present e).
  { apply (rtc_fq_present _ _ Hr'). intros _. by eexists. }
  destruct (Hfp Hnd) as [q Hq]. destruct (Hfb q Hq) as [Hcap Hqlen].
  unfold global_inv in Hg.
  destruct (run_fb e) as [[|f fs]| | | |] eqn:Hrun.
  - exists L_run. eexists. split; [done|]. simpl. unfold Run_step. by rewrite Hrun.
  - destruct (is_closed q) eqn:Hc.
    { exists L_run. eexists. split; [done|]. simpl. unfold Run_step.
      rewrite Hrun, Hq. simpl. by rewrite Hc. }
    destruct (decide (length (items q) < capacity q)%nat) as [Hlt|Hfull].
    { exists L_run. eexists. split; [done|]. simpl. unfold Run_step.
      rewrite Hrun, Hq. simpl. rewrite Hc. by rewrite decide_True. }
    destruct (lookup_lt_is_Some_2 (per_io_ e) 0) as [p0 Hp0]; [lia|].
    apply (worker_can_step e 0 p0 q); try done.
    + by apply (reachable_local_inv reactors files e 0 p0).
    + intros Hi. rewrite Hi, Hcap in Hfull. simpl in Hfull. lia.
    + intros Hf. by destruct (C3 0%nat p0 Hp0 Hf) as [_ []].
  - exists L_run. eexists. split; [done|]. simpl. unfold Run_step.
    by rewrite Hrun, Hq.
  - exists L_run. eexists. split; [done|]. simpl. unfold Run_step. by rewrite Hrun.
  - destruct Hg as (_ & Hfc & Hni).
    destruct (decide (Forall (λ p, shutdown_fb p = S_done) (per_io_ e)))
      as [Hall|Hsome].
    { exists L_run. eexists. split; [done|]. simpl. unfold Run_step.
      rewrite Hrun. by rewrite bool_decide_eq_true_2. }
    apply not_Forall_Exists in Hsome; [|apply _].
    apply Exists_exists in Hsome as (p & Hin & Hns).
    apply list_elem_of_lookup in Hin as [i Hp].
    pose proof (reachable_local_inv reactors files e i p Hr' Hp) as Hloc.
    destruct (Hre i p Hp) as (_ & _ & Hrc & _).
    rewrite Forall_lookup in Hni. specialize (Hni i p Hp).
    destruct (shutdown_fb p) eqn:Hs; try done.
    + assert (Hw : process_fd p = W_finished ∨ process_fd p ≠ W_finished).
      { destruct (process_fd p); auto. }
      destruct Hw as [Hw|Hw].
      * exists (L_shutdown i). eexists. split; [done|]. simpl.
        unfold Shutdown_step. rewrite Hp. simpl. by rewrite Hs, Hw.
      * apply (worker_can_step e i p q); try done.
        intros _. by apply Hfc.
    + exists (L_shutdown i). eexists. split; [done|]. simpl.
      unfold Shutdown_step. rewrite Hp. simpl. by rewrite Hs.
    + destruct (map_fd p) eqn:Hm.
      * exists (L_mapper i). simpl. unfold MapFiber_step.
        rewrite Hp. simpl. rewrite Hm.
        destruct (items (record_q p)) as [|r rest]; [|eauto].
        rewrite Hrc by (simpl; lia). eauto.
      * exists (L_shutdown i). eexists. split; [done|]. simpl.
        unfold Shutdown_step. rewrite Hp. simpl. by rewrite Hs, Hm.
    + exists (L_shutdown i). eexists. split; [done|]. simpl.
      unfold Shutdown_step. rewrite Hp. simpl. by rewrite Hs.
  - done.
Qed.

(** **** The shutdown sequence and what precedes it *)

(** The order of the shutdown events in a state: the close of the
    file-name queue comes first; on each reactor the events are an initial
    part of "workers joined, [StartClosing], mapper joined, flushed". *)
Definition ordered (e : Executor) : Prop :=
  (trace e = [] ∨ closed_first (trace e)) ∧
  (closed_first (trace e) → fq_closed e) ∧
  (∀ i p, per_io_ e !! i = Some p →
     events_of i (trace e) =
       take (events_done (shutdown_fb p)) (shutdown_events i) ∧
     (EvJoinWorker i ∈ trace e → process_fd p = W_finished) ∧
     (EvStartClosing i ∈ trace e → is_closed (record_q p) = true) ∧
     (EvJoinMapper i ∈ trace e → map_fd p = Mp_finished) ∧
     (EvFlush i ∈ trace e ↔ flushed p = true) ∧
     (run_fb e = R_done → events_of i (trace e) = shutdown_events i)).

(** All inputs are enqueued: every input file is in the file-name queue
    or has been taken from it by a worker. *)
Definition all_enqueued (files : list FileInput) (e : Executor) : Prop :=
  taken (per_io_ e) ++ fq_items e ≡ₚ files.

(** The file-name queue is drained: it is empty and every input file has
    been taken by a worker. *)
Definition drained (files : list FileInput) (e : Executor) : Prop :=
  fq_items e = [] ∧ taken (per_io_ e) ≡ₚ files.

(** The claim as the spec words it, for every run: the order, the close
    after all inputs are enqueued, the workers joined with the queue
    drained. *)
Definition shutdown_as_claimed (reactors : nat) (files : list FileInput)
    : Prop :=
  ∀ e, rtc step (Run_start reactors files) e →
    ordered e ∧
    (EvCloseFileQ ∈ trace e → all_enqueued files e) ∧
    (∀ i p, per_io_ e !! i = Some p → EvJoinWorker i ∈ trace e →
            drained files e).

(** C4 (as the code has it). In every run, with [Stop] or without, the
    shutdown follows the order: the main thread closes the file-name
    queue, then on each reactor the workers are joined, [StartClosing] is
    called on the record queue, the mapper is joined and the context is
    flushed.  In the runs in which [Stop] is not called (at least one
    reactor) the close comes after all inputs are enqueued, and when the
    workers of a reactor are joined the file-name queue is drained: it is
    empty and every input file has been taken by a worker. *)
Theorem shutdown_sequence reactors files e :
  (rtc step (Run_start reactors files) e → ordered e) ∧
  ((0 < reactors)%nat → rtc run_step (Run_start reactors files) e →
     (EvCloseFileQ ∈ trace e → all_enqueued files e) ∧
     (∀ i p, per_io_ e !! i = Some p → EvJoinWorker i ∈ trace e →
             drained files e)).
Proof.
  split.
  - intros Hr. exact (shutdown_order map_limit decode reactors files e Hr).
  - intros Hpos Hr.
    destruct (clean_run_inv reactors files e Hpos Hr) as ((C1 & C2 & C3) & Ha & Hlen).
    pose proof (rtc_run_step_step _ _ Hr) as Hr'.
    destruct (rtc_run_inv map_limit decode _ _ Hr' (Run_start_inv reactors files))
      as [Hg Hre].
    assert (Hpast : trace e ≠ [] → to_push (run_fb e) = []).
    { intros Hne. unfold global_inv in Hg.
      destruct (run_fb e); try done; by destruct Hg. }
    split.
    + intros Hin. unfold all_enqueued. unfold account in Ha.
      rewrite Hpast in Ha; [by rewrite app_nil_r in Ha|].
      intros Hnil. rewrite Hnil in Hin. by apply elem_of_nil in Hin.
    + intros i p Hp Hin.
      assert (Hfin : process_fd p = W_finished).
      { destruct (Hre i p Hp) as (I1 & I2 & _). apply I2.
        assert (Hev : EvJoinWorker i ∈ events_of i (trace e)).
        { unfold events_of. by apply list_elem_of_filter. }
        rewrite I1 in Hev. destruct (shutdown_fb p); simpl in *; try lia;
          by apply elem_of_nil in Hev. }
      destruct (C3 i p Hp Hfin) as [Hfq _]. split; [done|].
      unfold account in Ha. rewrite Hfq, Hpast in Ha.
      * by rewrite !app_nil_r in Ha.
      * intros Hnil. rewrite Hnil in Hin. by apply elem_of_nil in Hin.
Qed.

End Run.

(** **** The mapper without a limit *)

Lemma MapFiber_0 (records : list string) :
  Z.of_nat (length records) < 2 ^ 62 →
  let st := MapFiber 0 records in
  invoked st = records ∧ skipped st = 0%nat ∧
  record_num st = 2 * Z.of_nat (length records).
Proof.
  induction records as [|r records IH] using rev_ind; intros Hlen st.
  { subst st. by split_and!. }
  rewrite length_app in Hlen. simpl in Hlen.
  destruct IH as (Hinv & Hsk & Hrn); [lia|].
  subst st. rewrite MapFiber_snoc, length_app. simpl.
  set (j := length records) in *.
  unfold map_iter. rewrite Hrn. simpl.
  rewrite (wrap64_small (2 * Z.of_nat j + 1)) by (unfold two64; lia).
  rewrite (wrap64_small (2 * Z.of_nat j + 1 + 1)) by (unfold two64; lia).
  split_and!; [by rewrite Hinv|done|lia].
Qed.

(** X16. With [FLAGS_map_limit = 0] the mapper calls the user function on
    every record it pops, in order, and skips none.  Its counter goes up by
    two for each record, so it yields after every 500th record. *)
Theorem MapFiber_no_limit (records : list string) :
  Z.of_nat (length records) < 2 ^ 62 →
  let st := MapFiber 0 records in
  invoked st = records ∧ skipped st = 0%nat ∧
  record_num st = 2 * Z.of_nat (length records) ∧
  Z.of_nat (yields st) = Z.of_nat (length records) / 500.
Proof.
  intros Hlen st. subst st.
  destruct (MapFiber_0 records Hlen) as (Hinv & Hsk & Hrn).
  split_and!; try done. clear Hinv Hsk Hrn.
  induction records as [|r records IH] using rev_ind; [done|].
  rewrite length_app in Hlen |- *. simpl in Hlen |- *.
  specialize (IH ltac:(lia)).
  destruct (MapFiber_0 records) as (_ & _ & Hrn); [lia|].
  rewrite MapFiber_snoc. set (j := length records) in *.
  unfold map_iter. rewrite Hrn. simpl.
  rewrite (wrap64_small (2 * Z.of_nat j + 1)) by (unfold two64; lia).
  rewrite (wrap64_small (2 * Z.of_nat j + 1 + 1)) by (unfold two64; lia).
  case_bool_decide as Hmod.
  - rewrite Nat2Z.inj_succ, IH. revert Hmod.
    Z.to_euclidean_division_equations. lia.
  - rewrite IH. revert Hmod.
    Z.to_euclidean_division_equations. lia.
Qed.

(** **** From the input files to the calls of the user function *)

Lemma concat_fmap_Permutation {A B} (f : A → list B) (l1 l2 : list A) :
  l1 ≡ₚ l2 → concat (f <$> l1) ≡ₚ concat (f <$> l2).
Proof.
  induction 1 as [|x l1 l2 _ IH|x y l|l1 l2 l3 _ IH1 _ IH2]; simpl.
  - done.
  - by f_equiv.
  - rewrite !app_assoc. f_equiv. apply Permutation_app_comm.
  - by etrans.
Qed.

Lemma concat_fmap_taken (decode : FileInput → list string) l :
  concat (decode <$> taken l) = concat (decoded decode <$> l).
Proof.
  unfold taken. induction l as [|p l IH]; [done|].
  rewrite !fmap_cons, !concat_cons, fmap_app, concat_app. by rewrite IH.
Qed.

Lemma decoded_length_le (decode : FileInput → list string) l i p :
  l !! i = Some p →
  (length (decoded decode p) ≤ length (concat (decoded decode <$> l)))%nat.
Proof.
  intros Hp. rewrite <- (take_drop_middle l i p Hp).
  rewrite fmap_app, fmap_cons, concat_app, concat_cons, !length_app. lia.
Qed.

(** X17. From end to end, with no limit and no [Stop] (at least one
    reactor): when [Run] returns, the arguments the user function was
    called with, over all reactors, are the records of all input files,
    each record once; no mapper skipped a record. *)
Theorem Run_maps_every_record (decode : FileInput → list string)
    reactors files e :
  (0 < reactors)%nat →
  Z.of_nat (length (concat (decode <$> files))) < 2 ^ 62 →
  rtc (run_step 0 decode) (Run_start reactors files) e →
  run_fb e = R_done →
  concat ((λ p, invoked (map_st p)) <$> per_io_ e) ≡ₚ concat (decode <$> files) ∧
  Forall (λ p, skipped (map_st p) = 0%nat) (per_io_ e).
Proof.
  intros Hpos Hlen Hr Hdone.
  pose proof (clean_run_files 0 decode reactors files e Hpos Hr Hdone) as Ht.
  pose proof (rtc_run_step_step _ _ _ _ Hr) as Hr'.
  assert (Hall : ∀ i p, per_io_ e !! i = Some p →
            invoked (map_st p) = decoded decode p ∧ skipped (map_st p) = 0%nat).
  { intros i p Hp.
    destruct (done_reactor 0 decode reactors files e i p Hr' Hp) as [-> _].
    { by apply (returned_all_done 0 decode reactors files e Hr' Hdone i). }
    destruct (MapFiber_0 (decoded decode p)) as (Hi & Hs & _); [|done].
    pose proof (decoded_length_le decode _ i p Hp) as Hle.
    rewrite <- concat_fmap_taken in Hle.
    rewrite (Permutation_length (concat_fmap_Permutation decode _ _ Ht)) in Hle.
    unfold decoded in *. lia. }
  split.
  - rewrite <- (concat_fmap_Permutation decode _ _ Ht), concat_fmap_taken.
    replace ((λ p, invoked (map_st p)) <$> per_io_ e)
      with (decoded decode <$> per_io_ e); [done|].
    apply Forall_fmap_ext_1, Forall_lookup. intros i p Hp.
    symmetry. by apply (Hall i p).
  - apply Forall_lookup. intros i p Hp. by apply (Hall i p).
Qed.

(** **** The run of two files on two reactors *)

Lemma demo_final_clean :
  rtc (run_step 0 Pipeline.demo_decode) (Run_start 2 demo_files) demo_final.
Proof. apply (run_all_rtc 0 Pipeline.demo_decode demo_schedule). reflexivity. Qed.

Definition demo_reactor0 : PerIoStruct :=
  Eval vm_compute in default (PerIoStruct_new 0) (per_io_ demo_final !! 0%nat).

Lemma mapper_sees_every_record_witness :
  map_fd demo_reactor0 = Mp_finished ∧
  map_st demo_reactor0 =
    MapFiber 0 (concat (Pipeline.demo_decode <$> processed demo_reactor0)).
Proof.
  split; [reflexivity|].
  apply (mapper_sees_every_record 0 Pipeline.demo_decode 2 demo_files
           demo_final 0 demo_reactor0 demo_final_reachable eq_refl).
  reflexivity.
Defined.

Lemma no_file_processed_twice_witness :
  taken (per_io_ demo_final) ++ fq_items demo_final ++
    to_push (run_fb demo_final) ⊆+ demo_files.
Proof.
  apply (no_file_processed_twice 0 Pipeline.demo_decode 2 demo_files
           demo_final demo_final_reachable).
Defined.

Lemma Run_processes_every_file_witness :
  taken (per_io_ demo_final) ≡ₚ demo_files.
Proof.
  apply (Run_processes_every_file 0 Pipeline.demo_decode 2 demo_files
           demo_final); [lia|apply demo_final_clean|reflexivity].
Defined.

Lemma Run_never_deadlocks_witness :
  ∃ l e1, stop_label l = false ∧
          exec 0 Pipeline.demo_decode l (Run_start 2 demo_files) = Some e1.
Proof.
  apply (Run_never_deadlocks 0 Pipeline.demo_decode 2 demo_files
           (Run_start 2 demo_files)); [lia|apply rtc_refl|discriminate].
Defined.

Lemma MapFiber_no_limit_witness :
  invoked (MapFiber 0 ["a"; "b"; "c"]) = ["a"; "b"; "c"] ∧
  record_num (MapFiber 0 ["a"; "b"; "c"]) = 6.
Proof.
  destruct (MapFiber_no_limit ["a"; "b"; "c"]) as (Hi & _ & Hn & _);
    [reflexivity|].
  split; [exact Hi|exact Hn].
Defined.

(** *** [Stop] in the middle of the push loop

    [Run] has pushed the first of two files when [Stop] closes the queue
    and sets the flags; [Run] then drops the second file and closes; the
    worker of reactor 0 leaves at the head of its loop and is joined. *)

Definition stopped_schedule : list label :=
  [L_run; L_stop_close; L_stop_flag 0; L_stop_flag 1;
   L_run; L_run; L_run; L_worker 0; L_shutdown 0].

Definition stopped_state : Executor :=
  Eval vm_compute in
    default (Run_start 0 [])
      (exec_all 0 Pipeline.demo_decode stopped_schedule
         (Run_start 2 demo_files)).

(** C4 (the claim as worded fails when [Stop] is called). In the run
    above the queue is closed and the workers of reactor 0 are joined,
    although the second input was never enqueued and the first is still in
    the queue, taken by no worker. *)
Lemma shutdown_after_Stop_leaves_inputs :
  rtc (step 0 Pipeline.demo_decode) (Run_start 2 demo_files) stopped_state ∧
  trace stopped_state = [EvCloseFileQ; EvJoinWorker 0] ∧
  fq_items stopped_state = [("a", 0%nat)] ∧
  taken (per_io_ stopped_state) = [] ∧
  ¬ shutdown_as_claimed 0 Pipeline.demo_decode 2 demo_files.
Proof.
  assert (Hr : rtc (step 0 Pipeline.demo_decode) (Run_start 2 demo_files)
                 stopped_state).
  { apply (exec_all_rtc 0 Pipeline.demo_decode stopped_schedule). reflexivity. }
  split_and!; try done.
  intros Hclaim. destruct (Hclaim stopped_state Hr) as (_ & Hb & _).
  assert (Hin : EvCloseFileQ ∈ trace stopped_state) by (by constructor).
  apply Hb, Permutation_length in Hin. simpl in Hin. lia.
Qed.

Lemma shutdown_sequence_witness :
  ordered demo_final ∧ all_enqueued demo_files demo_final ∧
  drained demo_files demo_final.
Proof.
  destruct (shutdown_sequence 0 Pipeline.demo_decode 2 demo_files demo_final)
    as [Hord Hclean].
  split; [apply Hord, demo_final_reachable|].
  destruct Hclean as [Hb Hc]; [lia|apply demo_final_clean|].
  split.
  - apply Hb. by constructor.
  - apply (Hc 0%nat demo_reactor0 eq_refl). by repeat constructor.
Defined.

Lemma Run_maps_every_record_witness :
  concat ((λ p, invoked (map_st p)) <$> per_io_ demo_final) ≡ₚ
    concat (Pipeline.demo_decode <$> demo_files).
Proof.
  apply (Run_maps_every_record Pipeline.demo_decode 2 demo_files demo_final);
    [lia|reflexivity|apply demo_final_clean|reflexivity].
Defined.

End PipelineFacts.

(** * The global list of varz nodes ([VarzListNode]) *)

Module VarzList.

(** A [VarzListNode] in memory; [name_] may be [nullptr]. *)
Record VarzListNode := mk_node {
  name_ : option string;
  prev_ : option N;
  next_ : option N
}.

Abbreviation memory := (gmap N VarzListNode) (only parsing).

Record state := mk_state {
  objects : gmap N VarzListNode;   (* the nodes alive, by address *)
  global_list : option N           (* [varz_global_list] *)
}.

Definition init : state := {| objects := ∅; global_list := None |}.

(** [a->prev_ = v] and [a->next_ = v]; a store through a pointer to no
    live object is undefined behaviour, [None]. *)
Definition set_prev (a : N) (v : option N) (h : memory) : option memory :=
  n ← h !! a; Some (<[a := mk_node (name_ n) v (next_ n)]> h).

Definition set_next (a : N) (v : option N) (h : memory) : option memory :=
  n ← h !! a; Some (<[a := mk_node (name_ n) (prev_ n) v]> h).

(** [VarzListNode::VarzListNode(name)] for the object at [this]. *)
Definition construct (this : N) (name : option string) (s : state)
    : option state :=
  let next := global_list s in
  let h := <[this := mk_node name None next]> (objects s) in
  h1 ← match next with
       | Some n => set_prev n (Some this) h
       | None => Some h
       end;
  Some {| objects := h1; global_list := Some this |}.

(** The [else] branch of the destructor. *)
Definition unlink (this : N) (h : memory) : option memory :=
  node ← h !! this;
  h1 ← match next_ node with
       | Some n => set_prev n (prev_ node) h
       | None => Some h
       end;
  node1 ← h1 !! this;
  match prev_ node1 with
  | Some p => set_next p (next_ node1) h1
  | None => Some h1
  end.

(** [VarzListNode::~VarzListNode()]; the object is gone afterwards. *)
Definition destroy (this : N) (s : state) : option state :=
  if decide (global_list s = Some this) then
    node ← objects s !! this;
    Some {| objects := delete this (objects s); global_list := next_ node |}
  else
    h ← unlink this (objects s);
    Some {| objects := delete this h; global_list := global_list s |}.

(** The loop of [Iterate]: the calls [f(node->name_, node->GetData())], each
    given as the name and the address of the node whose data is passed.
    [None] when a dead node is read or the fuel runs out. *)
Fixpoint walk (fuel : nat) (h : memory) (cur : option N)
    : option (list (string * N)) :=
  match cur with
  | None => Some []
  | Some a =>
      match fuel with
      | O => None
      | S k =>
          n ← h !! a;
          rest ← walk k h (next_ n);
          Some (match name_ n with
                | Some nm => (nm, a) :: rest
                | None => rest
                end)
      end
  end.

Definition Iterate (fuel : nat) (s : state) : option (list (string * N)) :=
  walk fuel (objects s) (global_list s).

(** **** A program's use of the list *)

Inductive op :=
| Construct (this : N) (name : option string)
| Destroy (this : N).

Definition run_op (o : op) (s : state) : option state :=
  match o with
  | Construct this name => construct this name s
  | Destroy this => destroy this s
  end.

Fixpoint run (ops : list op) (s : state) : option state :=
  match ops with
  | [] => Some s
  | o :: ops' => s' ← run_op o s; run ops' s'
  end.

(** The objects alive, most recent first; [None] when the program breaks
    the rules of the language: an object is constructed where one is
    alive, or one is destroyed that is not alive. *)
Definition live_op (o : op) (ls : list (N * option string))
    : option (list (N * option string)) :=
  match o with
  | Construct this name =>
      if decide (this ∈ ls.*1) then None else Some ((this, name) :: ls)
  | Destroy this =>
      if decide (this ∈ ls.*1) then Some (filter (λ x, x.1 ≠ this) ls)
      else None
  end.

Fixpoint live_after (ops : list op) (ls : list (N * option string))
    : option (list (N * option string)) :=
  match ops with
  | [] => Some ls
  | o :: ops' => ls' ← live_op o ls; live_after ops' ls'
  end.

(** What [Iterate] is to report for these objects. *)
Definition named (ls : list (N * option string)) : list (string * N) :=
  omap (λ x, (λ nm, (nm, x.1)) <$> x.2) ls.

(** **** The shape of the list in memory *)

(** From [cur] the [next_] pointers lead through the nodes [ls] and end in
    [nullptr]; each node but the first points back to the one before it.
    The [prev_] of the first node is not constrained: the destructor leaves
    it stale. *)
Fixpoint chain (h : memory) (prev cur : option N)
    (ls : list (N * option string)) : Prop :=
  match ls with
  | [] => cur = None
  | x :: rest =>
      cur = Some x.1 ∧
      ∃ n, h !! x.1 = Some n ∧ name_ n = x.2 ∧
           (prev ≠ None → prev_ n = prev) ∧
           chain h (Some x.1) (next_ n) rest
  end.

Definition repr (ls : list (N * option string)) (s : state) : Prop :=
  chain (objects s) None (global_list s) ls ∧ NoDup ls.*1.

Lemma chain_frame h h' prev cur ls :
  (∀ a, a ∈ ls.*1 → h' !! a = h !! a) →
  chain h prev cur ls → chain h' prev cur ls.
Proof.
  revert prev cur. induction ls as [|x rest IH]; intros prev cur Hf; [done|].
  simpl. intros (Hc & n & Hn & Hnm & Hp & Hch). split; [done|].
  exists n. split_and!; try done.
  - rewrite Hf; [done|]. simpl. apply elem_of_cons. by left.
  - apply IH; [|done]. intros a Ha. apply Hf. simpl. apply elem_of_cons. by right.
Qed.

Lemma chain_prev_None h prev cur ls :
  chain h prev cur ls → chain h None cur ls.
Proof.
  destruct ls as [|x rest]; [done|]. simpl.
  intros (Hc & n & Hn & Hnm & Hp & Hch). split; [done|].
  exists n. by split_and!.
Qed.

Lemma filter_fst_id (this : N) (ls : list (N * option string)) :
  this ∉ ls.*1 → filter (λ x, x.1 ≠ this) ls = ls.
Proof.
  induction ls as [|x rest IH]; [done|]. simpl. intros Hn.
  apply not_elem_of_cons in Hn as [Hx Hr].
  rewrite filter_cons_True by done. by rewrite IH.
Qed.

Lemma filter_fst_elem (this a : N) (ls : list (N * option string)) :
  a ∈ (filter (λ x, x.1 ≠ this) ls).*1 → a ∈ ls.*1 ∧ a ≠ this.
Proof.
  intros H. apply list_elem_of_fmap in H as (x & -> & Hx).
  apply list_elem_of_filter in Hx as [Hne Hx]. split; [|done].
  apply list_elem_of_fmap. by exists x.
Qed.

Lemma filter_fst_NoDup (this : N) (ls : list (N * option string)) :
  NoDup ls.*1 → NoDup (filter (λ x, x.1 ≠ this) ls).*1.
Proof.
  induction ls as [|x rest IH]; [done|]. simpl. intros Hnd.
  apply NoDup_cons in Hnd as [Hx Hr].
  destruct (decide (x.1 ≠ this)) as [Hne|He].
  - rewrite filter_cons_True by done. simpl. apply NoDup_cons. split; [|auto].
    intros Hin. by apply filter_fst_elem in Hin as [? _].
  - rewrite filter_cons_False by done. auto.
Qed.

(** [Iterate] follows the chain to its end. *)
Lemma walk_chain h prev cur ls fuel :
  chain h prev cur ls → (length ls ≤ fuel)%nat →
  walk fuel h cur = Some (named ls).
Proof.
  revert prev cur fuel.
  induction ls as [|[a nm] rest IH]; intros prev cur fuel.
  - simpl. intros -> _. by destruct fuel.
  - simpl. intros (-> & n & Hn & Hnm & _ & Hch) Hlen.
    destruct fuel as [|k]; [lia|]. simpl. rewrite Hn. simpl.
    rewrite (IH _ _ k Hch) by lia. simpl. rewrite Hnm.
    unfold named. simpl. by destruct nm.
Qed.

Lemma construct_repr this name ls s :
  repr ls s → this ∉ ls.*1 →
  ∃ s', construct this name s = Some s' ∧ repr ((this, name) :: ls) s'.
Proof.
  intros [Hch Hnd] Hfresh. unfold construct.
  destruct ls as [|[a nm] rest].
  - simpl in Hch. rewrite Hch. simpl. eexists. split; [done|]. split.
    + simpl. split; [done|]. exists (mk_node name None None).
      rewrite lookup_insert_eq. by do 3 (split; [done|]).
    + simpl. apply NoDup_singleton.
  - simpl in Hch. destruct Hch as (Hg & n & Hn & Hnm & _ & Hrest).
    simpl in Hfresh. apply not_elem_of_cons in Hfresh as [Hne Hfresh].
    simpl in Hnd. apply NoDup_cons in Hnd as [Ha Hnd'].
    rewrite Hg. simpl. unfold set_prev.
    rewrite lookup_insert_ne by done. rewrite Hn. simpl.
    eexists. split; [done|]. split.
    + simpl. split; [done|]. exists (mk_node name None (Some a)).
      rewrite lookup_insert_ne by done. rewrite lookup_insert_eq.
      do 3 (split; [done|]). simpl. split; [done|].
      exists (mk_node (name_ n) (Some this) (next_ n)).
      rewrite lookup_insert_eq. do 3 (split; [done|]). simpl.
      apply (chain_frame (objects s)); [|done].
      intros b Hb. rewrite !lookup_insert_ne; [done| |]; intros ->; done.
    + simpl. apply NoDup_cons. split; [|by apply NoDup_cons].
      apply not_elem_of_cons. by split.
Qed.

(** Taking a node that is not the first out of the chain. *)
Lemma chain_unlink ls h prev cur this :
  chain h prev cur ls → NoDup ls.*1 → this ∈ ls.*1 → cur ≠ Some this →
  ∃ h', unlink this h = Some h' ∧
        chain (delete this h') prev cur (filter (λ x, x.1 ≠ this) ls) ∧
        (∀ b, b ∉ ls.*1 → h' !! b = h !! b).
Proof.
  revert prev cur.
  induction ls as [|[a nm] rest IH]; intros prev cur Hch Hnd Hin Hcur.
  { by apply elem_of_nil in Hin. }
  simpl in Hch. destruct Hch as (-> & na & Hna & Hnma & Hpa & Hrest).
  assert (Hat : a ≠ this) by congruence.
  simpl in Hin. apply elem_of_cons in Hin as [Hin|Hin]; [done|].
  simpl in Hnd. apply NoDup_cons in Hnd as [Ha Hnd].
  rewrite filter_cons_True by done.
  destruct rest as [|[b nmb] rest2]; [by apply elem_of_nil in Hin|].
  destruct (decide (b = this)) as [->|Hbt].
  - (* [this] comes right after [a] *)
    clear IH. simpl in Hrest.
    destruct Hrest as (Hnext & nt & Hnt & Hnmt & Hpt & Hrest2).
    specialize (Hpt ltac:(done)).
    simpl in Hnd. apply NoDup_cons in Hnd as [Ht Hnd2].
    simpl in Ha. apply not_elem_of_cons in Ha as [_ Ha2].
    rewrite filter_cons_False by (simpl; intros ?; done).
    rewrite (filter_fst_id this rest2) by done.
    unfold unlink. rewrite Hnt. simpl.
    destruct rest2 as [|[c nmc] rest3].
    + simpl in Hrest2. rewrite Hrest2. simpl. rewrite Hnt. simpl.
      rewrite Hpt, Hrest2. unfold set_next. rewrite Hna. simpl.
      eexists. split; [done|]. split.
      * simpl. split; [done|]. exists (mk_node (name_ na) (prev_ na) None).
        rewrite lookup_delete_ne by done. rewrite lookup_insert_eq.
        by do 3 (split; [done|]).
      * intros x Hx. simpl in Hx.
        rewrite lookup_insert_ne; [done|].
        intros ->. apply Hx. apply elem_of_cons. by left.
    + simpl in Hrest2.
      destruct Hrest2 as (Hnext2 & nc & Hnc & Hnmc & Hpc & Hrest3).
      simpl in Ht. apply not_elem_of_cons in Ht as [Htc Ht3].
      simpl in Ha2. apply not_elem_of_cons in Ha2 as [Hac Ha3].
      simpl in Hnd2. apply NoDup_cons in Hnd2 as [Hc3 Hnd3].
      rewrite Hnext2. simpl. unfold set_prev. rewrite Hnc. simpl.
      rewrite lookup_insert_ne by done. rewrite Hnt. simpl.
      rewrite Hpt, Hnext2. unfold set_next.
      rewrite lookup_insert_ne by done. rewrite Hna. simpl.
      eexists. split; [done|]. split.
      * simpl. split; [done|].
        exists (mk_node (name_ na) (prev_ na) (Some c)).
        rewrite lookup_delete_ne by done. rewrite lookup_insert_eq.
        do 3 (split; [done|]). simpl. split; [done|].
        exists (mk_node (name_ nc) (Some a) (next_ nc)).
        rewrite lookup_delete_ne by done.
        rewrite lookup_insert_ne by done. rewrite lookup_insert_eq.
        do 3 (split; [done|]). simpl.
        apply (chain_frame h); [|done]. intros x Hx.
        rewrite lookup_delete_ne by (intros ->; done).
        rewrite !lookup_insert_ne; [done| |]; intros ->; done.
      * intros x Hx. simpl in Hx.
        apply not_elem_of_cons in Hx as [Hxa Hx].
        apply not_elem_of_cons in Hx as [_ Hx].
        apply not_elem_of_cons in Hx as [Hxc _].
        by rewrite !lookup_insert_ne by done.
  - (* [this] is further down *)
    assert (Hnext : next_ na = Some b).
    { simpl in Hrest. by destruct Hrest as [-> _]. }
    destruct (IH (Some a) (next_ na) Hrest Hnd Hin) as (h' & Hu & Hch' & Hfr).
    { rewrite Hnext. congruence. }
    exists h'. split; [done|]. split.
    + simpl. split; [done|]. exists na.
      rewrite lookup_delete_ne by done. rewrite Hfr by done.
      by split_and!.
    + intros x Hx. apply Hfr. simpl in Hx.
      by apply not_elem_of_cons in Hx as [_ Hx].
Qed.

Lemma destroy_repr this ls s :
  repr ls s → this ∈ ls.*1 →
  ∃ s', destroy this s = Some s' ∧ repr (filter (λ x, x.1 ≠ this) ls) s'.
Proof.
  intros [Hch Hnd] Hin. unfold destroy.
  destruct (decide (global_list s = Some this)) as [Hg|Hg].
  - destruct ls as [|[a nm] rest]; [by apply elem_of_nil in Hin|].
    simpl in Hch. destruct Hch as (Ha & n & Hn & Hnm & _ & Hrest).
    assert (a = this) as -> by congruence.
    simpl in Hnd. apply NoDup_cons in Hnd as [Ht Hnd].
    rewrite Hn. simpl. eexists. split; [done|].
    rewrite filter_cons_False by (simpl; intros ?; done).
    rewrite filter_fst_id by done. split; [|done]. simpl.
    apply chain_prev_None with (prev := Some this).
    apply (chain_frame (objects s)); [|done].
    intros b Hb. apply lookup_delete_ne. by intros ->.
  - destruct (chain_unlink ls (objects s) None (global_list s) this
                Hch Hnd Hin Hg) as (h' & -> & Hch' & _).
    simpl. eexists. split; [done|]. split; [done|].
    by apply filter_fst_NoDup.
Qed.

Lemma run_repr ops ls s ls' :
  repr ls s → live_after ops ls = Some ls' →
  ∃ s', run ops s = Some s' ∧ repr ls' s'.
Proof.
  revert ls s. induction ops as [|o ops IH]; simpl; intros ls s Hr Hl.
  - injection Hl as <-. by exists s.
  - destruct (live_op o ls) as [ls1|] eqn:Ho; [simpl in Hl|done].
    assert (∃ s1, run_op o s = Some s1 ∧ repr ls1 s1) as (s1 & -> & Hr1).
    { destruct o as [this name|this]; simpl in Ho |- *.
      - case_decide; [done|]. injection Ho as <-. by apply construct_repr.
      - case_decide; [|done]. injection Ho as <-. by apply destroy_repr. }
    simpl. by apply (IH ls1).
Qed.

(** X18. Whatever nodes a program constructs and destroys, in whatever
    order: no constructor or destructor stores through a pointer to a dead
    node, and [Iterate] calls the function once for every node with a name
    that is alive, the most recently constructed first, and for no
    other. *)
Theorem Iterate_visits_live_nodes ops ls fuel :
  live_after ops [] = Some ls → (length ls ≤ fuel)%nat →
  ∃ s, run ops init = Some s ∧ Iterate fuel s = Some (named ls).
Proof.
  intros Hl Hfuel.
  destruct (run_repr ops [] init ls) as (s & Hrun & Hch & _); [|done|].
  { split; [done|]. simpl. apply NoDup_nil_2. }
  exists s. split; [done|]. by apply (walk_chain _ None).
Qed.

Definition demo_ops : list op :=
  [Construct 8 (Some "a"); Construct 16 None; Construct 24 (Some "c");
   Construct 32 (Some "d"); Destroy 32; Destroy 16; Construct 32 (Some "e");
   Destroy 8].

Lemma Iterate_visits_live_nodes_witness :
  ∃ s, run demo_ops init = Some s ∧
       Iterate 2 s = Some [("e", 32%N); ("c", 24%N)].
Proof.
  apply (Iterate_visits_live_nodes demo_ops
           [(32%N, Some "e"); (24%N, Some "c")] 2); [reflexivity|simpl; lia].
Defined.

End VarzList.

(** * Module initializers ([ModuleInitializer], [MainInitGuard]) *)

Module Init.

(** A [CtorNode]; the function is given by a number, and [next] is the
    rest of the list the node heads. *)
Record CtorNode := mk_ctor_node {
  func : nat;
  is_ctor : bool
}.

(** [ModuleInitializer(ftor, is_ctor)]: the new node is put in front of
    [global_list()]. *)
Definition ModuleInitializer (ftor : nat) (is_ctor : bool)
    (global_list : list CtorNode) : list CtorNode :=
  {| func := ftor; is_ctor := is_ctor |} :: global_list.

(** [RunFtors(is_ctor)]: the functions called, in order. *)
Fixpoint RunFtors (b : bool) (node : list CtorNode) : list nat :=
  match node with
  | [] => []
  | n :: next =>
      if bool_decide (is_ctor n = b) then func n :: RunFtors b next
      else RunFtors b next
  end.

(** What [MainInitGuard] does when it is constructed and destroyed. *)
Inductive action :=
| ParseCommandLineFlags | InitGoogleLogging | InitializeSymbolizer
| InstallFailureSignalHandler | SetProgramName | LogMode
| SetupJiffiesTimer | Call (f : nat)
| DestroyJiffiesTimer | ShutdownGoogleLogging.

Definition MainInitGuard (global_list : list CtorNode) : list action :=
  [ParseCommandLineFlags; InitGoogleLogging; InitializeSymbolizer;
   InstallFailureSignalHandler; SetProgramName; LogMode; SetupJiffiesTimer]
  ++ (Call <$> RunFtors true global_list).

Definition MainInitGuard_dtor (global_list : list CtorNode) : list action :=
  (Call <$> RunFtors false global_list)
  ++ [DestroyJiffiesTimer; ShutdownGoogleLogging].

(** The static initializers of a program, in the order they run. *)
Definition register_all (ms : list (nat * bool)) : list CtorNode :=
  foldl (λ gl m, ModuleInitializer m.1 m.2 gl) [] ms.

(** The functions of [ms] registered with flag [b]. *)
Definition with_flag (b : bool) (ms : list (nat * bool)) : list nat :=
  (filter (λ m, m.2 = b) ms).*1.

Lemma RunFtors_app b l1 l2 :
  RunFtors b (l1 ++ l2) = RunFtors b l1 ++ RunFtors b l2.
Proof.
  induction l1 as [|n l1 IH]; [done|]. simpl.
  case_bool_decide; simpl; by rewrite IH.
Qed.

Lemma register_all_snoc ms m :
  register_all (ms ++ [m]) = ModuleInitializer m.1 m.2 (register_all ms).
Proof. unfold register_all. by rewrite foldl_app. Qed.

Lemma RunFtors_register_all b ms :
  RunFtors b (register_all ms) = reverse (with_flag b ms).
Proof.
  induction ms as [|m ms IH] using rev_ind; [done|].
  rewrite register_all_snoc. unfold with_flag in *.
  rewrite filter_app, fmap_app, reverse_app. simpl. rewrite IH.
  destruct (decide (m.2 = b)) as [Hb|Hb].
  - rewrite bool_decide_eq_true_2 by done.
    by rewrite filter_cons_True by done.
  - rewrite bool_decide_eq_false_2 by done.
    by rewrite filter_cons_False by done.
Qed.

(** X19. The functions registered as initializers are called by
    [MainInitGuard]'s constructor, after logging and the timer are set up;
    those registered as finalizers by its destructor, before the timer and
    logging are torn down.  Both are called in the reverse of the order of
    registration, each once, and nothing else is called. *)
Theorem MainInitGuard_runs_registered ms :
  let gl := register_all ms in
  MainInitGuard gl =
    [ParseCommandLineFlags; InitGoogleLogging; InitializeSymbolizer;
     InstallFailureSignalHandler; SetProgramName; LogMode; SetupJiffiesTimer]
    ++ (Call <$> reverse (with_flag true ms)) ∧
  MainInitGuard_dtor gl =
    (Call <$> reverse (with_flag false ms))
    ++ [DestroyJiffiesTimer; ShutdownGoogleLogging] ∧
  RunFtors true gl ++ RunFtors false gl ≡ₚ ms.*1.
Proof.
  intros gl. subst gl. unfold MainInitGuard, MainInitGuard_dtor.
  rewrite !RunFtors_register_all. split_and!; [done|done|].
  rewrite !reverse_Permutation. unfold with_flag.
  induction ms as [|[f b] ms IH]; [done|].
  destruct b.
  - rewrite filter_cons_True by done.
    rewrite (filter_cons_False (λ m, m.2 = false)) by done.
    simpl. by rewrite IH.
  - rewrite filter_cons_False by done.
    rewrite (filter_cons_True (λ m, m.2 = false)) by done.
    simpl. rewrite <- Permutation_middle. by rewrite IH.
Qed.

End Init.
